(** * The ontology coherence-repair pipeline of neon-gpt

    A shallow embedding of [neon-gpt/validate_fix_ontology_consistency.py]
    (with the part of [neon-gpt/api_utils.py] it calls) and the properties
    of its normalizer passes, non-simple-property resolver, reasoner loop,
    coherence diagnostic, slicer and patch loop.

    Conventions of the embedding:
    - a Python [str] is a [string] (a sequence of bytes); [lower], [strip]
      and the regular expressions act on the ASCII range, other bytes are
      ordinary characters;
    - an rdflib term is a [node]; a [Literal] keeps the lexical form it was
      built from; an rdflib [Graph] is a finite set of triples ([gset]),
      and iterating over a graph or a Python [set] visits [elements] of it;
    - a function that can raise returns a [result]; a function that touches
      files passes the file system along;
    - external programs (HermiT, ROBOT, the language-model service) and
      library functions the repository does not contain ([json.loads],
      rdflib's conversion of non-string values into literals) are the
      variables of the sections that use them;
    - the second component of a normalizer pass's return value, a log
      message, is left out: the passes return the graph and the count. *)

From Stdlib Require Import Ascii String ZArith Lia.
From stdpp Require Import gmap strings list sets sorting pretty.

Local Open Scope Z_scope.
Local Open Scope nat_scope.

(* ================================================================== *)
(** * Part I: the embedding                                            *)
(* ================================================================== *)

(** ** Python string operations *)

Module Py.

Definition is_upper (c : ascii) : bool :=
  (65 <=? nat_of_ascii c) && (nat_of_ascii c <=? 90).

(** [c.lower()] on one ASCII character. *)
Definition lower_char (c : ascii) : ascii :=
  if is_upper c then ascii_of_nat (nat_of_ascii c + 32) else c.

(** [s.lower()] *)
Fixpoint lower (s : string) : string :=
  match s with
  | EmptyString => EmptyString
  | String c s' => String (lower_char c) (lower s')
  end.

(** The characters [str.strip()] removes: tab, line feed, vertical tab,
    form feed, carriage return, the four separators 28..31 and space. *)
Definition is_space (c : ascii) : bool :=
  let n := nat_of_ascii c in
  ((9 <=? n) && (n <=? 13)) || ((28 <=? n) && (n <=? 32)).

Definition is_digit (c : ascii) : bool :=
  (48 <=? nat_of_ascii c) && (nat_of_ascii c <=? 57).

(** [s.lstrip()] *)
Fixpoint lstrip (s : string) : string :=
  match s with
  | EmptyString => EmptyString
  | String c s' => if is_space c then lstrip s' else s
  end.

(** [s.rstrip()] *)
Fixpoint rstrip (s : string) : string :=
  match s with
  | EmptyString => EmptyString
  | String c s' =>
      match rstrip s' with
      | EmptyString => if is_space c then EmptyString else String c EmptyString
      | r => String c r
      end
  end.

(** [s.strip()] *)
Definition strip (s : string) : string := rstrip (lstrip s).

(** [s.startswith(p)] *)
Fixpoint startswith (s p : string) : bool :=
  match p, s with
  | EmptyString, _ => true
  | String _ _, EmptyString => false
  | String a p', String b s' => if decide (a = b) then startswith s' p' else false
  end.

(** [sub in s] *)
Fixpoint contains (s sub : string) : bool :=
  startswith s sub ||
  match s with
  | EmptyString => false
  | String _ s' => contains s' sub
  end.

(** [s[:n]] *)
Fixpoint take (n : nat) (s : string) : string :=
  match n, s with
  | S n', String c s' => String c (take n' s')
  | _, _ => EmptyString
  end.

(** [s[n:]] *)
Fixpoint drop (n : nat) (s : string) : string :=
  match n, s with
  | S n', String _ s' => drop n' s'
  | _, _ => s
  end.

(** [s[:-1]] *)
Definition drop_last (s : string) : string := take (String.length s - 1) s.

(** [s[1:-1]] *)
Definition strip_ends (s : string) : string := drop_last (drop 1 s).

(** [s.endswith(p)] *)
Definition endswith (s p : string) : bool :=
  (String.length p <=? String.length s) &&
  bool_decide (drop (String.length s - String.length p) s = p).

(** [any(x in s for x in signals)] *)
Definition any_in (signals : list string) (s : string) : bool :=
  existsb (contains s) signals.

Definition newline : string := String (ascii_of_nat 10) EmptyString.
Definition dquote : string := String (ascii_of_nat 34) EmptyString.

End Py.

(** ** Results of functions that can raise *)

Inductive exn :=
| ValueError (msg : string)
| RuntimeError (msg : string)
| LibraryError (msg : string).

Inductive result (A : Type) :=
| Ok (a : A)
| Raise (e : exn).
Arguments Ok {A} a.
Arguments Raise {A} e.

Definition rbind {A B} (r : result A) (k : A → result B) : result B :=
  match r with
  | Ok a => k a
  | Raise e => Raise e
  end.

Notation "x ←? r ; k" := (rbind r (λ x, k))
  (at level 20, r at level 100, k at level 200, right associativity).

(** ** RDF terms, triples and graphs *)

Inductive node :=
| URIRef (iri : string)
| BNode (id : string)
| Literal (lex : string) (datatype : option string) (lang : option string).

Global Instance node_eq_dec : EqDecision node.
Proof. solve_decision. Defined.

Definition node_to_sum (n : node)
  : string + string + string * option string * option string :=
  match n with
  | URIRef i => inl (inl i)
  | BNode b => inl (inr b)
  | Literal l d g => inr (l, d, g)
  end.

Definition node_of_sum
  (x : string + string + string * option string * option string) : node :=
  match x with
  | inl (inl i) => URIRef i
  | inl (inr b) => BNode b
  | inr (l, d, g) => Literal l d g
  end.

Global Instance node_countable : Countable node.
Proof. apply (inj_countable' node_to_sum node_of_sum). by intros []. Defined.

Definition triple : Type := node * node * node.

Abbreviation graph := (gset triple).

(** [g.add(t)] and [g.remove(t)]; removing an absent triple does nothing. *)
Definition g_add (t : triple) (g : graph) : graph := {[ t ]} ∪ g.
Definition g_remove (t : triple) (g : graph) : graph := g ∖ {[ t ]}.

(** [isinstance(x, URIRef)], [isinstance(x, BNode)], [isinstance(x, Literal)] *)
Definition is_uri (x : node) : bool :=
  match x with URIRef _ => true | _ => false end.
Definition is_bnode (x : node) : bool :=
  match x with BNode _ => true | _ => false end.
Definition is_literal (x : node) : bool :=
  match x with Literal _ _ _ => true | _ => false end.

(** [str(x)] of a term: the IRI, the blank-node label or the lexical form. *)
Definition node_str (x : node) : string :=
  match x with
  | URIRef i => i
  | BNode b => b
  | Literal l _ _ => l
  end.

(** [g.objects(s, p)], [g.subjects(p, o)], [g.triples((s, None, None))],
    [g.triples((None, None, o))], [g.triples((None, p, None))],
    [g.triples((s, p, None))], [g.triples((None, p, o))] *)
Definition objects (g : graph) (s p : node) : list node :=
  omap (λ t : triple, if decide (t.1.1 = s ∧ t.1.2 = p) then Some t.2 else None)
       (elements g).
Definition subjects (g : graph) (p o : node) : list node :=
  omap (λ t : triple, if decide (t.1.2 = p ∧ t.2 = o) then Some t.1.1 else None)
       (elements g).
Definition triples_s (g : graph) (s : node) : list triple :=
  filter (λ t : triple, t.1.1 = s) (elements g).
Definition triples_o (g : graph) (o : node) : list triple :=
  filter (λ t : triple, t.2 = o) (elements g).
Definition triples_p (g : graph) (p : node) : list triple :=
  filter (λ t : triple, t.1.2 = p) (elements g).
Definition triples_sp (g : graph) (s p : node) : list triple :=
  filter (λ t : triple, t.1.1 = s ∧ t.1.2 = p) (elements g).
Definition triples_po (g : graph) (p o : node) : list triple :=
  filter (λ t : triple, t.1.2 = p ∧ t.2 = o) (elements g).

(** ** Vocabulary *)

Definition XSD (name : string) : string :=
  "http://www.w3.org/2001/XMLSchema#" +:+ name.
Definition RDF (name : string) : string :=
  "http://www.w3.org/1999/02/22-rdf-syntax-ns#" +:+ name.
Definition RDFS (name : string) : string :=
  "http://www.w3.org/2000/01/rdf-schema#" +:+ name.
Definition OWL (name : string) : string :=
  "http://www.w3.org/2002/07/owl#" +:+ name.

Definition XSD_date : string := XSD "date".
Definition XSD_dateTime : string := XSD "dateTime".
Definition XSD_string : string := XSD "string".
Definition RDF_type : node := URIRef (RDF "type").
Definition OWL_TransitiveProperty : node := URIRef (OWL "TransitiveProperty").
Definition OWL_propertyChainAxiom : node := URIRef (OWL "propertyChainAxiom").
Definition OWL_inverseOf : node := URIRef (OWL "inverseOf").
Definition RDFS_subPropertyOf : node := URIRef (RDFS "subPropertyOf").
Definition OWL_imports : node := URIRef (OWL "imports").

(** ** Deterministic repairs *)

(** [strip_owl_imports]: a copy of the graph without its owl:imports
    triples, and their number. *)
Definition strip_owl_imports (g : graph) : graph * nat :=
  foldl (λ (acc : graph * nat) (t : triple),
           (g_remove (t.1.1, OWL_imports, t.2) acc.1, S acc.2))
        (g, 0) (triples_p g OWL_imports).

(** [DATE_LEX_RE = ^\d{4}-\d{2}-\d{2}([zZ]|[+-]\d{2}:\d{2})?$]: [$] matches
    at the end of the string and before a line feed that ends it. *)
Definition re_dollar (s : string) : bool :=
  bool_decide (s = EmptyString) || bool_decide (s = Py.newline).

Definition re_date_tz (s : string) : bool :=
  match s with
  | String c r =>
      (bool_decide (c = "z"%char ∨ c = "Z"%char) && re_dollar r) ||
      match s with
      | String sg (String h1 (String h2 (String col (String m1 (String m2 r'))))) =>
          bool_decide (sg = "+"%char ∨ sg = "-"%char) &&
          Py.is_digit h1 && Py.is_digit h2 && bool_decide (col = ":"%char) &&
          Py.is_digit m1 && Py.is_digit m2 && re_dollar r'
      | _ => false
      end
  | EmptyString => false
  end.

Definition DATE_LEX_RE_match (lex : string) : bool :=
  match lex with
  | String y1 (String y2 (String y3 (String y4 (String da (String m1 (String m2
      (String db (String d1 (String d2 rest))))))))) =>
      Py.is_digit y1 && Py.is_digit y2 && Py.is_digit y3 && Py.is_digit y4 &&
      bool_decide (da = "-"%char) && Py.is_digit m1 && Py.is_digit m2 &&
      bool_decide (db = "-"%char) && Py.is_digit d1 && Py.is_digit d2 &&
      (re_date_tz rest || re_dollar rest)
  | _ => false
  end.

(** The lexical form the date pass gives a literal whose lexical form is
    [lex] (the body of the second loop, up to [new_lit]). *)
Definition date_new_lex (lex : string) : string :=
  if DATE_LEX_RE_match lex then
    let '(base, tz) :=
      if Py.endswith lex "Z" || Py.endswith lex "z" then (Py.drop_last lex, "Z")
      else if (10 <? String.length lex) &&
              bool_decide (String.get 10 lex = Some "+"%char ∨
                           String.get 10 lex = Some "-"%char)
           then (Py.take 10 lex, Py.drop 10 lex)
           else (Py.take 10 lex, EmptyString) in
    base +:+ "T00:00:00" +:+ tz
  else lex.

Definition is_xsd_date_uri (t : triple) : bool :=
  bool_decide (t.2 = URIRef XSD_date).

Definition is_xsd_date_literal (t : triple) : bool :=
  match t.2 with
  | Literal _ (Some dt) _ => bool_decide (dt = XSD_date)
  | _ => false
  end.

Definition date_uri_step (acc : graph * nat) (t : triple) : graph * nat :=
  let '(s, p, o) := t in
  (g_add (s, p, URIRef XSD_dateTime) (g_remove (s, p, o) acc.1), S acc.2).

Definition date_literal_step (acc : graph * nat) (t : triple) : graph * nat :=
  let '(s, p, lit) := t in
  let new_lit := Literal (date_new_lex (node_str lit)) (Some XSD_dateTime) None in
  (g_add (s, p, new_lit) (g_remove (s, p, lit) acc.1), S acc.2).

Definition deterministic_fix_xsd_date_to_datetime (g : graph) : graph * nat :=
  let triples_to_replace := filter (λ t, is_xsd_date_uri t) (elements g) in
  let st1 := foldl date_uri_step (g, 0) triples_to_replace in
  let lit_triples := filter (λ t, is_xsd_date_literal t) (elements st1.1) in
  foldl date_literal_step st1 lit_triples.

(** [deterministic_remove_rdf_reification_triples] *)
Definition deterministic_remove_rdf_reification_triples (g : graph) : graph * nat :=
  foldl (λ (acc : graph * nat) (pred : node),
           foldl (λ (acc' : graph * nat) (t : triple),
                    (g_remove t acc'.1, S acc'.2))
                 acc (triples_p acc.1 pred))
        (g, 0)
        [URIRef (RDF "subject"); URIRef (RDF "predicate"); URIRef (RDF "object")].

Definition OWL2_DATATYPE_URIS : gset string :=
  list_to_set (XSD <$>
    [ "string"; "boolean"; "decimal"; "float"; "double";
      "duration"; "dateTime"; "time"; "date";
      "gYearMonth"; "gYear"; "gMonthDay"; "gDay"; "gMonth";
      "hexBinary"; "base64Binary";
      "anyURI"; "QName"; "NOTATION";
      "normalizedString"; "token"; "language";
      "NMTOKEN"; "Name"; "NCName";
      "integer"; "nonPositiveInteger"; "negativeInteger";
      "long"; "int"; "short"; "byte";
      "nonNegativeInteger"; "unsignedLong"; "unsignedInt";
      "unsignedShort"; "unsignedByte";
      "positiveInteger" ]).

Definition has_unsupported_datatype (t : triple) : bool :=
  match t.2 with
  | Literal _ (Some dt) _ => bool_decide (dt ∉ OWL2_DATATYPE_URIS)
  | _ => false
  end.

Definition to_string_step (acc : graph * nat) (t : triple) : graph * nat :=
  let '(s, p, lit) := t in
  let new_lit := Literal (node_str lit) (Some XSD_string) None in
  (g_add (s, p, new_lit) (g_remove (s, p, lit) acc.1), S acc.2).

Definition deterministic_fix_unsupported_datatypes_to_string (g : graph)
  : graph * nat :=
  let to_change := filter (λ t, has_unsupported_datatype t) (elements g) in
  foldl to_string_step (g, 0) to_change.

Definition OBJECT_ONLY_TYPES : list node :=
  URIRef <$> (OWL <$>
    [ "ObjectProperty"; "DatatypeProperty"; "FunctionalProperty";
      "InverseFunctionalProperty"; "TransitiveProperty";
      "SymmetricProperty"; "AsymmetricProperty";
      "ReflexiveProperty"; "IrreflexiveProperty" ]).

Definition OWL_AnnotationProperty : node := URIRef (OWL "AnnotationProperty").

(** The loop body of [deterministic_fix_objectprop_literals_to_annotation]
    for one predicate [p]. *)
Definition convert_to_annotation (acc : graph * nat) (p : node) : graph * nat :=
  let a1 :=
    foldl (λ (a : graph * nat) (t : node),
             if decide ((p, RDF_type, t) ∈ a.1)
             then (g_remove (p, RDF_type, t) a.1, S a.2) else a)
          acc OBJECT_ONLY_TYPES in
  let a2 :=
    if decide ((p, RDF_type, OWL_AnnotationProperty) ∉ a1.1)
    then (g_add (p, RDF_type, OWL_AnnotationProperty) a1.1, S a1.2) else a1 in
  let a3 :=
    foldl (λ (a : graph * nat) (o : node), (g_remove (p, OWL_inverseOf, o) a.1, S a.2))
          a2 (objects a2.1 p OWL_inverseOf) in
  let a4 :=
    foldl (λ (a : graph * nat) (s : node), (g_remove (s, OWL_inverseOf, p) a.1, S a.2))
          a3 (subjects a3.1 OWL_inverseOf p) in
  foldl (λ (a : graph * nat) (chain : node),
           (g_remove (p, OWL_propertyChainAxiom, chain) a.1, S a.2))
        a4 (objects a4.1 p OWL_propertyChainAxiom).

Definition is_object_property_like (g : graph) (p : node) : bool :=
  bool_decide ((p, RDF_type, URIRef (OWL "ObjectProperty")) ∈ g)
  || negb (bool_decide (objects g p OWL_inverseOf = []))
  || negb (bool_decide (subjects g OWL_inverseOf p = []))
  || negb (bool_decide (objects g p OWL_propertyChainAxiom = []))
  || bool_decide ((p, RDF_type, OWL_TransitiveProperty) ∈ g).

Definition deterministic_fix_objectprop_literals_to_annotation (g : graph)
  : graph * nat :=
  let literal_preds : gset node :=
    list_to_set (omap (λ t : triple,
                         if is_uri t.1.2 && is_literal t.2 then Some t.1.2 else None)
                      (elements g)) in
  if decide (literal_preds = ∅) then (g, 0)
  else
    let to_convert : gset node :=
      filter (λ p, is_object_property_like g p) literal_preds in
    if decide (to_convert = ∅) then (g, 0)
    else
      foldl convert_to_annotation (g, 0)
            (merge_sort (λ x y, String.le (node_str x) (node_str y))
                        (elements to_convert)).

(** ** HermiT and the non-simple-property resolver *)

Definition run_hermit_verdict (out err : string) : option bool :=
  let blob := Py.lower (out +:+ Py.newline +:+ err) in
  if Py.contains blob "inconsistentontologyexception"
     || Py.contains blob "inconsistent ontology" then Some false
  else if Py.contains blob "is satisfiable" then Some true
  else if Py.contains blob "unsatisfiable"
          || Py.contains blob "is not satisfiable" then Some false
  else None.

Record HermitIssue := { kind : string; property_iri : string }.

(** A pattern's literal text matched at the start of [s] without regard to
    case ([re.IGNORECASE]); the rest of [s] when it matches. *)
Fixpoint re_literal_ci (lit s : string) : option string :=
  match lit, s with
  | EmptyString, _ => Some s
  | String _ _, EmptyString => None
  | String a lit', String b s' =>
      if decide (Py.lower_char a = Py.lower_char b) then re_literal_ci lit' s'
      else None
  end.

(** The longest prefix of [s] without the character [stop], and the rest. *)
Fixpoint re_span_until (stop : ascii) (s : string) : string * string :=
  match s with
  | EmptyString => (EmptyString, EmptyString)
  | String c s' =>
      if decide (c = stop) then (EmptyString, s)
      else let '(run, rest) := re_span_until stop s' in (String c run, rest)
  end.

(** What follows group 1: the quote, [(?: or its inverse)?] and the
    pattern's last words. *)
Definition re_after_group (tail rest : string) : bool :=
  match re_literal_ci "'" rest with
  | None => false
  | Some r1 =>
      match re_literal_ci " or its inverse" r1 with
      | Some r2 =>
          bool_decide (is_Some (re_literal_ci tail r2))
          || bool_decide (is_Some (re_literal_ci tail r1))
      | None => bool_decide (is_Some (re_literal_ci tail r1))
      end
  end.

(** [Non-simple property '(<[^>]+>|[^']+)'(?: or its inverse)? <tail>]
    matched at the start of [s]: group 1. *)
Definition re_non_simple_at (tail s : string) : option string :=
  match re_literal_ci "Non-simple property '" s with
  | None => None
  | Some r =>
      let alt1 :=
        match r with
        | String "<"%char r' =>
            match re_span_until ">"%char r' with
            | (String c body, String _ r3) =>
                if re_after_group tail r3
                then Some ("<" +:+ String c body +:+ ">") else None
            | _ => None
            end
        | _ => None
        end in
      match alt1 with
      | Some c => Some c
      | None =>
          match re_span_until "'"%char r with
          | (String c body, r'') =>
              if re_after_group tail r'' then Some (String c body) else None
          | _ => None
          end
      end
  end.

(** [RE.search(s)]: the leftmost match's group 1. *)
Fixpoint re_non_simple_search (tail s : string) : option string :=
  match re_non_simple_at tail s with
  | Some c => Some c
  | None =>
      match s with
      | EmptyString => None
      | String _ s' => re_non_simple_search tail s'
      end
  end.

Definition NON_SIMPLE_IN_CARD_RE : string → option string :=
  re_non_simple_search " appears in the cardinality restriction".
Definition NON_SIMPLE_IN_IRREFLEXIVE_RE : string → option string :=
  re_non_simple_search " appears in irreflexive object property axiom".

Definition captured_iri (group1 : string) : string :=
  let iri := Py.strip group1 in
  if Py.startswith iri "<" && Py.endswith iri ">" then Py.strip_ends iri else iri.

Definition classify_non_simple_issue (stderr_or_combined : string)
  : option HermitIssue :=
  if decide (stderr_or_combined = EmptyString) then None
  else
    match NON_SIMPLE_IN_CARD_RE stderr_or_combined with
    | Some m =>
        Some {| kind := "NON_SIMPLE_PROPERTY_IN_CARDINALITY";
                property_iri := captured_iri m |}
    | None =>
        match NON_SIMPLE_IN_IRREFLEXIVE_RE stderr_or_combined with
        | Some m =>
            Some {| kind := "NON_SIMPLE_PROPERTY_IN_IRREFLEXIVE";
                    property_iri := captured_iri m |}
        | None => None
        end
    end.

Definition uri_set (l : list node) : gset node :=
  list_to_set (filter (λ x, is_uri x) l).

Definition inverse_props (g : graph) (p : node) : gset node :=
  uri_set (objects g p OWL_inverseOf) ∪ uri_set (subjects g OWL_inverseOf p).

Definition super_props (g : graph) (p : node) : gset node :=
  uri_set (objects g p RDFS_subPropertyOf).

Definition sub_props (g : graph) (p : node) : gset node :=
  uri_set (subjects g RDFS_subPropertyOf p).

Definition related_props (g : graph) (p : node) : gset node :=
  inverse_props g p ∪ super_props g p ∪ sub_props g p.

(** One round of [related_property_closure]: the loop over [frontier].
    [inl] is the early [return seen.union(nxt)], [inr] the state at the
    end of the round. *)
Fixpoint closure_round (g : graph) (limit : nat) (frontier : list node)
    (seen nxt : gset node) : gset node + gset node * gset node :=
  match frontier with
  | [] => inr (seen, nxt)
  | p :: rest =>
      if decide (p ∈ seen) then closure_round g limit rest seen nxt
      else
        let seen' := {[ p ]} ∪ seen in
        let nxt' := nxt ∪ filter (λ q, q ∉ seen') (related_props g p) in
        if limit <=? size seen' + size nxt' then inl (seen' ∪ nxt')
        else closure_round g limit rest seen' nxt'
  end.

(** The rounds that remain of [for _ in range(depth + 1)]: [inl] is the
    set returned from inside a round, [inr] the set returned after the
    loop. *)
Fixpoint closure_rounds (g : graph) (limit rounds : nat)
    (frontier seen : gset node) : gset node + gset node :=
  match rounds with
  | 0 => inr seen
  | S rounds' =>
      match closure_round g limit (elements frontier) seen ∅ with
      | inl found => inl found
      | inr (seen', nxt) =>
          if decide (nxt = ∅) then inr seen'
          else closure_rounds g limit rounds' nxt seen'
      end
  end.

Definition returned (r : gset node + gset node) : gset node :=
  match r with
  | inl found => found
  | inr seen => seen
  end.

Definition related_property_closure (g : graph) (root : node)
    (depth limit : nat) : gset node :=
  returned (closure_rounds g limit (depth + 1) {[ root ]} ∅).

(** The loop body of [remove_non_simple_causes] for one property. *)
Definition remove_causes_of (acc : graph * nat) (p : node) : graph * nat :=
  let a1 :=
    if decide ((p, RDF_type, OWL_TransitiveProperty) ∈ acc.1)
    then (g_remove (p, RDF_type, OWL_TransitiveProperty) acc.1, S acc.2)
    else acc in
  foldl (λ (a : graph * nat) (chain : node),
           (g_remove (p, OWL_propertyChainAxiom, chain) a.1, S a.2))
        a1 (objects a1.1 p OWL_propertyChainAxiom).

Definition remove_non_simple_causes (g : graph) (props : gset node)
  : graph * nat :=
  foldl remove_causes_of (g, 0) (elements props).

Definition deterministic_fix_non_simple (g : graph) (issue : HermitIssue)
  : graph * nat :=
  let root := URIRef (property_iri issue) in
  let props := related_property_closure g root 2 500 in
  remove_non_simple_causes g props.

Definition HERMIT_MAX_LOOPS : nat := 30.

(** Why the HermiT loop of [run_deterministic_pipeline] was left: one of
    its four [break]s, or the end of [range(1, max_loops + 1)]. *)
Inductive loop_exit :=
| BreakSatisfiable
| BreakInconsistent
| BreakNoPattern
| BreakNoProgress
| RangeExhausted.

Global Instance loop_exit_eq_dec : EqDecision loop_exit.
Proof. solve_decision. Defined.

Record loop_outcome := {
  final_graph : graph;
  hermit_runs : nat;
  exit_by : loop_exit;
}.

Section Orchestrator.

(** The HermiT process on the serialized graph: exit code, stdout and
    stderr, or [None] when [subprocess.run] raises [TimeoutExpired]. *)
Variable hermit : graph → option (Z * string * string).

Definition run_hermit (g : graph) : result (option bool * string * string * Z) :=
  match hermit g with
  | None => Raise (LibraryError "TimeoutExpired")
  | Some (rc, out, err) => Ok (run_hermit_verdict out err, out, err, rc)
  end.

(** The HermiT loop with [loops] iterations of its range left. *)
Fixpoint hermit_loop (loops : nat) (g : graph) : result loop_outcome :=
  match loops with
  | 0 => Ok {| final_graph := g; hermit_runs := 0; exit_by := RangeExhausted |}
  | S loops' =>
      r ←? run_hermit g;
      let '(ok, out, err, rc) := r in
      match ok with
      | Some true =>
          Ok {| final_graph := g; hermit_runs := 1; exit_by := BreakSatisfiable |}
      | Some false =>
          Ok {| final_graph := g; hermit_runs := 1; exit_by := BreakInconsistent |}
      | None =>
          match classify_non_simple_issue (err +:+ Py.newline +:+ out) with
          | None =>
              Ok {| final_graph := g; hermit_runs := 1; exit_by := BreakNoPattern |}
          | Some issue =>
              let '(g', changed2) := deterministic_fix_non_simple g issue in
              if changed2 <=? 0
              then Ok {| final_graph := g'; hermit_runs := 1;
                         exit_by := BreakNoProgress |}
              else
                o ←? hermit_loop loops' g';
                Ok {| final_graph := final_graph o;
                      hermit_runs := S (hermit_runs o);
                      exit_by := exit_by o |}
          end
      end
  end.

(** [run_deterministic_pipeline] from the graph that [load_turtle_graph]
    returned to the graph handed to [write_graph_as_turtle], with the
    loop's record: the passes and the HermiT loop. Reading [input_ttl] and
    writing the files come before and after it; of the exceptions of a
    HermiT run it has the timeout. *)
Definition run_deterministic_pipeline (g0 : graph) (disable_imports : bool)
    (max_loops : nat) : result loop_outcome :=
  let g1 := if disable_imports then (strip_owl_imports g0).1 else g0 in
  let g2 := (deterministic_fix_xsd_date_to_datetime g1).1 in
  let g3 := (deterministic_fix_objectprop_literals_to_annotation g2).1 in
  let g4 := (deterministic_remove_rdf_reification_triples g3).1 in
  let g5 := (deterministic_fix_unsupported_datatypes_to_string g4).1 in
  hermit_loop max_loops g5.

End Orchestrator.

(** ** Files *)

(** JSON values as [json.loads] builds them; a [dict] keeps its members
    in a list, looked up by key. *)
Inductive json :=
| JNull
| JBool (b : bool)
| JInt (z : Z)
| JFloat (text : string)
| JString (s : string)
| JArray (items : list json)
| JObject (members : list (string * json)).

(** What a path of the output directory holds: a Turtle serialization of
    a graph, or a JSON document. *)
Inductive file :=
| TurtleFile (g : graph)
| JsonFile (j : json).

Abbreviation files := (gmap string file).

Definition load_turtle_graph (fs : files) (ttl_path : string) : result graph :=
  match fs !! ttl_path with
  | Some (TurtleFile g) => Ok g
  | Some (JsonFile _) => Raise (LibraryError "turtle parse error")
  | None => Raise (LibraryError "FileNotFoundError")
  end.

Definition write_graph_as_turtle (g : graph) (ttl_path : string) (fs : files)
  : files :=
  <[ ttl_path := TurtleFile g ]> fs.

(** ** The coherence diagnostic *)

Definition incoherent_signals : list string :=
  [ "the ontology is inconsistent"; "ontology is inconsistent";
    "unsatisfiable"; "incoherent" ].

Definition error_signals : list string :=
  [ "exception"; "stacktrace"; "parse"; "owlapi"; "failed to"; "could not";
    "illegalargument"; "nullpointer"; "not found"; "no such file";
    "unsupported" ].

(** [robot_reason_status] after [run_cmd] returned [(rc, out, err)]. *)
Definition robot_reason_classify (rc : Z) (out err : string) : string * string :=
  let diag := Py.strip (out +:+ Py.newline +:+ err) in
  let lower := Py.lower diag in
  if decide (rc = 0%Z) then ("coherent", diag)
  else if Py.any_in incoherent_signals lower then ("incoherent", diag)
  else if Py.any_in error_signals lower then ("error", diag)
  else ("error", diag).

(** ** Slices and evidence *)

Definition is_http (u : string) : bool :=
  Py.startswith u "http://" || Py.startswith u "https://".

(** [{URIRef(u) for u in iris if u.startswith(("http://", "https://"))}] *)
Definition http_uris (iris : gset string) : gset node :=
  list_to_set (URIRef <$> filter (λ u, is_http u) (elements iris)).

Definition bnode_set (x : node) : gset node :=
  if is_bnode x then {[ x ]} else ∅.

(** First loop of [slice_graph]: the triples with a seed as subject or
    object, and the blank nodes they touch. *)
Definition anchor_step (seeds : gset node) (acc : graph * gset node)
    (t : triple) : graph * gset node :=
  let '(s, p, o) := t in
  if decide (s ∈ seeds ∨ o ∈ seeds)
  then (g_add t acc.1, bnode_set o ∪ bnode_set s ∪ acc.2)
  else acc.

Record slice_state := {
  sl_out : graph;
  sl_seen : gset node;
  sl_new_frontier : gset node;
}.

(** The body of [for node in list(frontier)]. *)
Definition expand_node (g : graph) (st : slice_state) (nd : node) : slice_state :=
  if decide (nd ∈ sl_seen st) then st
  else
    let seen := {[ nd ]} ∪ sl_seen st in
    let st1 :=
      foldl (λ (a : slice_state) (t : triple),
               {| sl_out := g_add t (sl_out a);
                  sl_seen := sl_seen a;
                  sl_new_frontier :=
                    if is_bnode t.2 && bool_decide (t.2 ∉ seen)
                    then {[ t.2 ]} ∪ sl_new_frontier a else sl_new_frontier a |})
            {| sl_out := sl_out st; sl_seen := seen;
               sl_new_frontier := sl_new_frontier st |}
            (triples_s g nd) in
    foldl (λ (a : slice_state) (t : triple),
             {| sl_out := g_add t (sl_out a);
                sl_seen := sl_seen a;
                sl_new_frontier :=
                  if is_bnode t.1.1 && bool_decide (t.1.1 ∉ seen)
                  then {[ t.1.1 ]} ∪ sl_new_frontier a else sl_new_frontier a |})
          st1 (triples_o g nd).

(** [while depth < bnode_depth], with [rounds] iterations left. *)
Fixpoint expand_bnodes (g : graph) (rounds : nat) (out : graph)
    (frontier seen : gset node) : graph :=
  match rounds with
  | 0 => out
  | S rounds' =>
      let st := foldl (expand_node g)
                      {| sl_out := out; sl_seen := seen; sl_new_frontier := ∅ |}
                      (elements frontier) in
      expand_bnodes g rounds' (sl_out st) (sl_new_frontier st) (sl_seen st)
  end.

Definition schema_preds : list node :=
  [ RDF_type; URIRef (RDFS "subClassOf"); URIRef (RDFS "domain");
    URIRef (RDFS "range"); URIRef (OWL "disjointWith");
    URIRef (OWL "equivalentClass"); URIRef (OWL "equivalentProperty");
    OWL_inverseOf; OWL_propertyChainAxiom ].

Definition add_all (ts : list triple) (out : graph) : graph :=
  foldl (λ o t, g_add t o) out ts.

Definition add_schema (g : graph) (seeds : gset node) (out : graph) : graph :=
  foldl (λ o u,
           foldl (λ o' p, add_all (triples_po g p u) (add_all (triples_sp g u p) o'))
                 o schema_preds)
        out (elements seeds).

Definition slice_graph (g : graph) (seed_iris : gset string) (bnode_depth : nat)
    (include_schema_about_seeds : bool) : graph :=
  let seeds := http_uris seed_iris in
  let '(out0, frontier) := foldl (anchor_step seeds) (∅, seeds) (elements g) in
  let out1 := expand_bnodes g bnode_depth out0 frontier ∅ in
  if include_schema_about_seeds then add_schema g seeds out1 else out1.

(** The loop of [build_targeted_evidence] with its [break]. *)
Fixpoint collect_hits (targets : gset node) (max_triples : nat)
    (ts hits : list triple) : list triple :=
  match ts with
  | [] => hits
  | t :: rest =>
      if decide (t.1.1 ∈ targets ∨ t.1.2 ∈ targets ∨ t.2 ∈ targets) then
        let hits' := hits ++ [t] in
        if max_triples <=? length hits' then hits'
        else collect_hits targets max_triples rest hits'
      else collect_hits targets max_triples rest hits
  end.

Definition term (t : node) : string :=
  match t with
  | URIRef i => "<" +:+ i +:+ ">"
  | BNode b => "_:" +:+ b
  | Literal l dt lang =>
      match dt, lang with
      | Some (String c d), _ =>
          Py.dquote +:+ l +:+ Py.dquote +:+ "^^<" +:+ String c d +:+ ">"
      | _, Some (String c la) => Py.dquote +:+ l +:+ Py.dquote +:+ "@" +:+ String c la
      | _, _ => Py.dquote +:+ l +:+ Py.dquote
      end
  end.

Definition evidence_line (t : triple) : string :=
  term t.1.1 +:+ " " +:+ term t.1.2 +:+ " " +:+ term t.2 +:+ " .".

Definition build_targeted_evidence (fs : files) (ontology_path : string)
    (target_iris : gset string) (max_triples : nat) : result string :=
  g ←? load_turtle_graph fs ontology_path;
  let targets := http_uris target_iris in
  let hits := collect_hits targets max_triples (elements g) [] in
  Ok (String.concat Py.newline (evidence_line <$> hits)).

(** ** Patches *)

(** [d.get(k)]: the member's value, [None] ([JNull]) when absent. *)
Fixpoint dict_get (k : string) (members : list (string * json)) : json :=
  match members with
  | [] => JNull
  | (k', v) :: rest => if decide (k' = k) then v else dict_get k rest
  end.

(** [k in d] *)
Definition dict_has (k : string) (members : list (string * json)) : bool :=
  bool_decide (k ∈ members.*1).

(** [d.get(k, default)] *)
Definition dict_get_default (k : string) (default : json)
    (members : list (string * json)) : json :=
  if dict_has k members then dict_get k members else default.

(** [x == s] for a string constant [s] *)
Definition json_is_str (x : json) (s : string) : bool :=
  match x with JString s' => bool_decide (s' = s) | _ => false end.

(** [for k in ("s", "p", "o"): if k not in t: raise ValueError(...)] *)
Definition check_spo (prefix : string) (t : list (string * json)) : result unit :=
  if negb (dict_has "s" t) then Raise (ValueError (prefix +:+ "s"))
  else if negb (dict_has "p" t) then Raise (ValueError (prefix +:+ "p"))
  else if negb (dict_has "o" t) then Raise (ValueError (prefix +:+ "o"))
  else Ok ().

Definition validate_patch_one_op (patch : json) : result unit :=
  match patch with
  | JObject pm =>
      match dict_get "operations" pm with
      | JArray [op] =>
          match op with
          | JObject om =>
              let typ := dict_get "op" om in
              if negb (json_is_str typ "delete_triple" || json_is_str typ "add_triple"
                       || json_is_str typ "replace_triple")
              then Raise (ValueError "Unsupported operation")
              else
                _ ←? (if json_is_str typ "delete_triple" || json_is_str typ "add_triple"
                      then match dict_get "triple" om with
                           | JObject t => check_spo "Triple missing key: " t
                           | _ => Raise (ValueError "Missing 'triple' for add/delete.")
                           end
                      else Ok ());
                if json_is_str typ "replace_triple" then
                  match dict_get "old" om, dict_get "new" om with
                  | JObject oldt, JObject newt =>
                      _ ←? check_spo "old triple missing key: " oldt;
                      check_spo "new triple missing key: " newt
                  | _, _ => Raise (ValueError "replace_triple requires 'old' and 'new'.")
                  end
                else Ok ()
          | _ => Raise (ValueError "Operation must be an object.")
          end
      | _ => Raise (ValueError "Patch must contain exactly 1 operation.")
      end
  | _ => Raise (ValueError "Patch must be a JSON object.")
  end.

(** [{.*}] with [re.DOTALL], searched: from the first opening brace to the
    last closing brace after it. *)
Fixpoint re_upto_last (c : ascii) (s : string) : option string :=
  match s with
  | EmptyString => None
  | String a s' =>
      match re_upto_last c s' with
      | Some r => Some (String a r)
      | None => if decide (a = c) then Some (String a EmptyString) else None
      end
  end.

Fixpoint JSON_OBJ_RE_search (text : string) : option string :=
  match text with
  | EmptyString => None
  | String a s' =>
      if decide (a = "{"%char) then String a <$> re_upto_last "}"%char s'
      else JSON_OBJ_RE_search s'
  end.

(** [f"{it:03d}"] *)
Definition fmt_03d (n : nat) : string :=
  let d := pretty n in
  String.concat EmptyString (replicate (3 - String.length d) "0") +:+ d.

Record IterationRecord := {
  iteration : nat;
  robot_explain_mode : string;
  patch_path : string;
  ontology_path : string;
  rationale : json;
  operations : json;
  robot_reason_diagnostics_before : string;
}.

Record fix_result := {
  status : string;
  iterations : Z;
  final_ontology : string;
  history : list IterationRecord;
  latest_robot_diagnostics : string;
  target_iris_count : nat;
}.

Section PatchLoop.

(** [json.loads]: the value, or [None] for [JSONDecodeError]. *)
Variable json_loads : string → option json.

(** [api_utils.send_prompt(prompt, persona, step_name, ...)]: the reply
    text between the output markers, or [None] when the request failed.
    The text it saves as [outputs/<step_name>.txt] is no ontology or patch
    file and is not kept in [files]; [patch_loop_over] is the loop with
    that file. *)
Variable send_prompt : string → string → string → option string.

(** What [_to_node] does with a literal object whose value, datatype or
    language is not a JSON string (or absent): the literal rdflib builds
    from it, or the exception rdflib raises. *)
Variable rdflib_Literal_of : json → result node.

(** ROBOT [reason] on a file: exit code, stdout, stderr. *)
Variable robot_reason : files → string → Z * string * string.

(** [robot_explain_markdown]: the mode and the markdown, or [None] when
    neither mode produced a document ([RuntimeError]). *)
Variable robot_explain : files → string → nat → option (string * string).

(** The f-string of [make_prompt]. *)
Variable make_prompt : string → string → gset string → string.

Definition persona : string :=
  "You are an ontology debugging assistant." +:+ Py.newline +:+
  "Output ONLY JSON between ###start_output### and ###end_output###." +:+
  Py.newline +:+ "No text outside markers. No markdown fences.".

Definition openrouter_chat_json (prompt step_name : string) : result json :=
  match send_prompt prompt persona step_name with
  | None => Raise (RuntimeError "api_utils.send_prompt returned None (request failed).")
  | Some text =>
      let text := Py.strip text in
      match json_loads text with
      | Some v => Ok v
      | None =>
          match JSON_OBJ_RE_search text with
          | Some m =>
              match json_loads m with
              | Some v => Ok v
              | None =>
                  Raise (ValueError "Model output wasn't valid JSON even after extraction.")
              end
          | None => Raise (ValueError "Model output did not contain a JSON object.")
          end
      end
  end.

(** A string that is true in a condition: present and not empty. *)
Definition truthy_str (x : json) : option string :=
  match x with
  | JString (String c s) => Some (String c s)
  | _ => None
  end.

Definition falsy_str (x : json) : bool :=
  match x with
  | JNull | JString EmptyString => true
  | _ => false
  end.

Definition _to_node (x : json) : result node :=
  match x with
  | JObject m =>
      if dict_has "literal" m then
        let lit := dict_get "literal" m in
        let dt := dict_get "datatype" m in
        let lang := dict_get "lang" m in
        match lit with
        | JString l =>
            match truthy_str dt with
            | Some d => Ok (Literal l (Some d) None)
            | None =>
                if falsy_str dt then
                  match truthy_str lang with
                  | Some la => Ok (Literal l None (Some la))
                  | None =>
                      if falsy_str lang then Ok (Literal l None None)
                      else rdflib_Literal_of x
                  end
                else rdflib_Literal_of x
            end
        | _ => rdflib_Literal_of x
        end
      else Raise (ValueError "Unsupported node")
  | JString s =>
      if Py.startswith s "_:" then Ok (BNode (Py.drop 2 s))
      else if is_http s then Ok (URIRef s)
      else Ok (Literal s None None)
  | _ => Raise (ValueError "Unsupported node")
  end.

(** The nodes of [t["s"]], [t["p"]], [t["o"]]. *)
Definition triple_of_json (t : json) : result triple :=
  match t with
  | JObject m =>
      s ←? _to_node (dict_get "s" m);
      p ←? _to_node (dict_get "p" m);
      o ←? _to_node (dict_get "o" m);
      Ok (s, p, o)
  | _ => Raise (LibraryError "TypeError")
  end.

(** The graph edit of [apply_patch_to_ttl] for the validated operation. *)
Definition apply_op (op : json) (g : graph) : result graph :=
  match op with
  | JObject om =>
      let typ := dict_get "op" om in
      if json_is_str typ "delete_triple" || json_is_str typ "add_triple" then
        t ←? triple_of_json (dict_get "triple" om);
        if json_is_str typ "delete_triple" then Ok (g_remove t g)
        else Ok (g_add t g)
      else if json_is_str typ "replace_triple" then
        old ←? triple_of_json (dict_get "old" om);
        new ←? triple_of_json (dict_get "new" om);
        Ok (g_add new (g_remove old g))
      else Ok g
  | _ => Raise (LibraryError "TypeError")
  end.

Definition apply_patch_to_ttl (in_ttl out_ttl : string) (patch : json)
    (fs : files) : result unit * files :=
  match validate_patch_one_op patch with
  | Raise e => (Raise e, fs)
  | Ok _ =>
      match load_turtle_graph fs in_ttl with
      | Raise e => (Raise e, fs)
      | Ok g =>
          let op := match patch with
                    | JObject pm =>
                        match dict_get "operations" pm with
                        | JArray (op :: _) => op
                        | _ => JNull
                        end
                    | _ => JNull
                    end in
          match apply_op op g with
          | Raise e => (Raise e, fs)
          | Ok g' => (Ok (), write_graph_as_turtle g' out_ttl fs)
          end
      end
  end.

Definition robot_reason_status (fs : files) (ontology : string) : string * string :=
  let '(rc, out, err) := robot_reason fs ontology in
  robot_reason_classify rc out err.

Section Loop.

Variables (target_iris : gset string) (out_dir : string).
Variables (max_robot_explanations : nat) (max_iterations : Z).
Variable evidence_max_triples : nat.

Definition stopped (st : string) (it : nat) (current : string)
    (hist : list IterationRecord) (diag : string) : fix_result :=
  {| status := st;
     iterations := Z.of_nat it - 1;
     final_ontology := current;
     history := hist;
     latest_robot_diagnostics := diag;
     target_iris_count := size target_iris |}.

(** The loop of [llm_fix_by_target_iris] with [left] iterations of its
    range left, at iteration number [it]. Besides the function's outcome
    and the files, it returns the number of loop bodies entered ([started]
    counts them; it is no value of the program). *)
Fixpoint patch_loop (left it : nat) (current : string)
    (hist : list IterationRecord) (fs : files) (started : nat)
  : result fix_result * files * nat :=
  match left with
  | 0 =>
      let '(st, diag) := robot_reason_status fs current in
      (Ok {| status := if decide (st = "coherent") then "coherent"
                       else if decide (st = "error") then "robot_reason_error"
                       else "max_iterations_reached";
             iterations := max_iterations;
             final_ontology := current;
             history := hist;
             latest_robot_diagnostics := diag;
             target_iris_count := size target_iris |}, fs, started)
  | S left' =>
      let '(st, diag) := robot_reason_status fs current in
      if decide (st = "coherent")
      then (Ok (stopped "coherent" it current hist diag), fs, S started)
      else if decide (st = "error")
      then (Ok (stopped "robot_reason_error" it current hist diag), fs, S started)
      else
        match robot_explain fs current max_robot_explanations with
        | None => (Raise (RuntimeError "ROBOT could not produce explanation markdown."),
                   fs, S started)
        | Some (mode, md) =>
            match build_targeted_evidence fs current target_iris evidence_max_triples with
            | Raise e => (Raise e, fs, S started)
            | Ok evidence =>
                let prompt := make_prompt md evidence target_iris in
                match openrouter_chat_json prompt ("patch_" +:+ fmt_03d it) with
                | Raise e => (Raise e, fs, S started)
                | Ok patch =>
                    let patch_file := out_dir +:+ "/patch_" +:+ fmt_03d it +:+ ".json" in
                    let fs1 := <[ patch_file := JsonFile patch ]> fs in
                    let next_onto := out_dir +:+ "/iter_" +:+ fmt_03d it +:+ ".ttl" in
                    match apply_patch_to_ttl current next_onto patch fs1 with
                    | (Raise e, fs2) => (Raise e, fs2, S started)
                    | (Ok _, fs2) =>
                        let members := match patch with JObject m => m | _ => [] end in
                        let record :=
                          {| iteration := it;
                             robot_explain_mode := mode;
                             patch_path := patch_file;
                             ontology_path := next_onto;
                             rationale :=
                               dict_get_default "rationale" (JString EmptyString) members;
                             operations :=
                               dict_get_default "operations" (JArray []) members;
                             robot_reason_diagnostics_before := diag |} in
                        patch_loop left' (S it) next_onto (hist ++ [record]) fs2
                                   (S started)
                    end
                end
            end
        end
  end.

Definition llm_fix_by_target_iris (ontology : string) (fs : files)
  : result fix_result * files * nat :=
  patch_loop (Z.to_nat max_iterations) 1 ontology [] fs 0.

End Loop.

End PatchLoop.

(* ================================================================== *)
(** * Vocabulary of the specification                                  *)
(* ================================================================== *)

(** [YYYY-MM-DD]: four digits, two digits and two digits between hyphens. *)
Definition date_shape (d : string) : bool :=
  match d with
  | String y1 (String y2 (String y3 (String y4 (String da (String m1 (String m2
      (String db (String d1 (String d2 EmptyString))))))))) =>
      Py.is_digit y1 && Py.is_digit y2 && Py.is_digit y3 && Py.is_digit y4 &&
      bool_decide (da = "-"%char) && Py.is_digit m1 && Py.is_digit m2 &&
      bool_decide (db = "-"%char) && Py.is_digit d1 && Py.is_digit d2
  | _ => false
  end.

(** A numeric timezone suffix: a sign, [hh:mm]. *)
Definition offset_shape (tz : string) : bool :=
  match tz with
  | String sg (String h1 (String h2 (String col (String m1 (String m2 EmptyString))))) =>
      bool_decide (sg = "+"%char ∨ sg = "-"%char) &&
      Py.is_digit h1 && Py.is_digit h2 && bool_decide (col = ":"%char) &&
      Py.is_digit m1 && Py.is_digit m2
  | _ => false
  end.

(** ** Auxiliary definitions of the proofs *)

(** What the three rewriting passes put in the place of a triple. *)
Definition to_string_image (t : triple) : triple :=
  (t.1.1, t.1.2, Literal (node_str t.2) (Some XSD_string) None).
Definition date_uri_image (t : triple) : triple :=
  (t.1.1, t.1.2, URIRef XSD_dateTime).
Definition date_literal_image (t : triple) : triple :=
  (t.1.1, t.1.2, Literal (date_new_lex (node_str t.2)) (Some XSD_dateTime) None).

(** ** Example inputs *)

Definition ex_s : node := URIRef "http://example.org/s".
Definition ex_p : node := URIRef "http://example.org/p".

(** One date literal with a lower-case [z] suffix. *)
Definition ex_date_graph : graph :=
  {[ (ex_s, ex_p, Literal "2020-01-01z" (Some XSD_date) None) ]}.

(** ** Words of the claims *)

(** The text [s] contains [sub]. *)
Definition occurs (sub s : string) : Prop :=
  ∃ pre post, s = pre +:+ sub +:+ post.

(** The first character of [s] exists and is no white space; the same
    for the last one. *)
Definition first_solid (s : string) : bool :=
  match s with
  | String c _ => negb (Py.is_space c)
  | EmptyString => false
  end.

Fixpoint last_solid (s : string) : bool :=
  match s with
  | EmptyString => false
  | String c EmptyString => negb (Py.is_space c)
  | String _ s' => last_solid s'
  end.

(** The properties within [n] steps of [root] along inverse-of,
    subproperty-of and superproperty-of. *)
Fixpoint ball (g : graph) (root : node) (n : nat) : gset node :=
  match n with
  | 0 => {[ root ]}
  | S n' => ball g root n' ∪ set_bind (related_props g) (ball g root n')
  end.

(** The ball of radius [k - 1]: nothing for [k = 0]. *)
Definition inner_ball (g : graph) (root : node) (k : nat) : gset node :=
  match k with
  | 0 => ∅
  | S k' => ball g root k'
  end.

(** A triple that makes its subject a non-simple property. *)
Definition is_non_simple_cause (t : triple) : Prop :=
  (t.1.2 = RDF_type ∧ t.2 = OWL_TransitiveProperty) ∨ t.1.2 = OWL_propertyChainAxiom.

Global Instance is_non_simple_cause_dec t : Decision (is_non_simple_cause t).
Proof. unfold is_non_simple_cause. apply _. Defined.

(** The non-simple causes of a graph, and those of a set of properties. *)
Definition non_simple_causes (g : graph) : graph :=
  filter is_non_simple_cause g.
Definition non_simple_causes_of (g : graph) (props : gset node) : graph :=
  filter (λ t : triple, t.1.1 ∈ props ∧ is_non_simple_cause t) g.

(** A property [ex:b] two steps from [ex:P] with [n] inverses [ex:c0],
    [ex:c1], ..., the first of them transitive. *)
Definition ex_P : node := URIRef "http://example.org/P".
Definition ex_a : node := URIRef "http://example.org/a".
Definition ex_b : node := URIRef "http://example.org/b".
Definition ex_c (i : nat) : node := URIRef ("http://example.org/c" +:+ pretty i).
Definition ex_wide_graph (n : nat) : graph :=
  {[ (ex_P, OWL_inverseOf, ex_a); (ex_a, RDFS_subPropertyOf, ex_b);
     (ex_c 0, RDF_type, OWL_TransitiveProperty) ]}
  ∪ list_to_set ((λ i, (ex_b, OWL_inverseOf, ex_c i)) <$> seq 0 n).
Definition ex_issue : HermitIssue :=
  {| kind := "NON_SIMPLE_PROPERTY_IN_CARDINALITY";
     property_iri := "http://example.org/P" |}.

(** A HermiT that always reports [ex:P] as non-simple in a cardinality
    restriction, and a graph in which [ex:P] is transitive. *)
Definition ex_hermit_non_simple (g : graph) : option (Z * string * string) :=
  Some (1%Z, EmptyString,
        "Non-simple property '<http://example.org/P>' or its inverse appears in the cardinality restriction").
Definition ex_transitive_graph : graph :=
  {[ (ex_P, RDF_type, OWL_TransitiveProperty); (ex_P, OWL_inverseOf, ex_a) ]}.

(** A graph about [ex:P] and identifiers that are no HTTP IRIs. *)
Definition ex_non_http : gset string :=
  {[ "urn:example:P"; "file:///tmp/p.owl"; "P"; "HTTP://EXAMPLE.ORG/P" ]}.

(** A JSON object with the key [literal]. *)
Definition is_literal_object (x : json) : bool :=
  match x with
  | JObject m => dict_has "literal" m
  | _ => false
  end.

Definition is_json_string (x : json) : bool :=
  match x with
  | JString _ => true
  | _ => false
  end.

(** A triple object of a patch: a JSON object with the keys [s], [p], [o]. *)
Definition has_spo (t : json) : Prop :=
  ∃ m, t = JObject m ∧ "s" ∈ m.*1 ∧ "p" ∈ m.*1 ∧ "o" ∈ m.*1.

(** The shape of a patch: a JSON object whose [operations] is a list of
    exactly one operation, an object whose [op] is one of the three
    operations, with a [triple] that has s, p, o for add and delete, and
    with [old] and [new] that have s, p, o for replace. *)
Definition well_formed_patch (patch : json) : Prop :=
  ∃ pm om,
    patch = JObject pm
    ∧ dict_get "operations" pm = JArray [JObject om]
    ∧ (((dict_get "op" om = JString "delete_triple"
         ∨ dict_get "op" om = JString "add_triple")
        ∧ has_spo (dict_get "triple" om))
       ∨ (dict_get "op" om = JString "replace_triple"
          ∧ has_spo (dict_get "old" om) ∧ has_spo (dict_get "new" om))).

Definition ex_triple_json : json :=
  JObject [("s", JString "http://example.org/P");
           ("p", JString "http://www.w3.org/1999/02/22-rdf-syntax-ns#type");
           ("o", JString "http://www.w3.org/2002/07/owl#TransitiveProperty")].

Definition ex_delete_op : json :=
  JObject [("op", JString "delete_triple"); ("triple", ex_triple_json)].

(** A patch with one operation, and one with two. *)
Definition ex_patch : json :=
  JObject [("operations", JArray [ex_delete_op]); ("rationale", JString "not transitive")].
Definition ex_patch_two_ops : json :=
  JObject [("operations", JArray [ex_delete_op; ex_delete_op]);
           ("rationale", JString "twice")].

Definition ex_files : files :=
  {[ "in.ttl" := TurtleFile ex_transitive_graph ]}.

(** An rdflib that refuses every literal value that is no string. *)
Definition ex_rdflib_Literal_of (x : json) : result node :=
  Raise (LibraryError "TypeError").

(** The character [c] occurs in [s]. *)
Fixpoint has_char (c : ascii) (s : string) : bool :=
  match s with
  | EmptyString => false
  | String a s' => bool_decide (a = c) || has_char c s'
  end.

(** Following the specification's words, "the first brace-delimited JSON
    object": from the first opening brace to the brace that closes it,
    [depth] braces being open. *)
Fixpoint upto_closing_brace (depth : nat) (s : string) : option string :=
  match s with
  | EmptyString => None
  | String a s' =>
      if decide (a = "{"%char) then String a <$> upto_closing_brace (S depth) s'
      else if decide (a = "}"%char) then
        match depth with
        | 0 => Some (String a EmptyString)
        | S d => String a <$> upto_closing_brace d s'
        end
      else String a <$> upto_closing_brace depth s'
  end.

Fixpoint first_brace_object (text : string) : option string :=
  match text with
  | EmptyString => None
  | String a s' =>
      if decide (a = "{"%char) then String a <$> upto_closing_brace 0 s'
      else first_brace_object s'
  end.

(** A [json.loads] for the two texts of the example: it reads the empty
    object and refuses everything else, as [json.loads] refuses two
    objects in a row. *)
Definition ex_json_loads (s : string) : option json :=
  if decide (s = "{}") then Some (JObject []) else None.

(** A reply with two output blocks, joined by [send_prompt]. *)
Definition ex_send_prompt (prompt persona step_name : string) : option string :=
  Some ("{}" +:+ Py.newline +:+ Py.newline +:+ "{}").

(** Stubs of the external services for the patch loop: a ROBOT that finds
    a snapshot incoherent as long as [ex:P] is transitive in it, an explain
    that produces a document, a language model whose reply is the patch
    that deletes that triple, and a prompt template. *)
Definition ex_robot_reason (fs : files) (path : string) : Z * string * string :=
  match fs !! path with
  | Some (TurtleFile g) =>
      if decide ((ex_P, RDF_type, OWL_TransitiveProperty) ∈ g)
      then (1%Z, "ERROR unsatisfiable classes", EmptyString)
      else (0%Z, EmptyString, EmptyString)
  | _ => (1%Z, EmptyString, "No such file")
  end.
Definition ex_robot_explain (fs : files) (path : string) (max : nat)
  : option (string * string) :=
  Some ("unsatisfiability", "## P ##").
Definition ex_no_explain (fs : files) (path : string) (max : nat)
  : option (string * string) := None.
Definition ex_llm_loads (s : string) : option json :=
  if decide (s = "delete") then Some ex_patch else None.
Definition ex_llm_send (prompt persona step_name : string) : option string :=
  Some "delete".
Definition ex_make_prompt (md evidence : string) (iris : gset string) : string :=
  md +:+ evidence.
Definition ex_targets : gset string := {[ "http://example.org/P" ]}.

(** The same loop with a snapshot that is coherent from the start. *)
Definition ex_coherent_files : files :=
  {[ "in.ttl" := TurtleFile {[ (ex_P, OWL_inverseOf, ex_a) ]} ]}.

(** The records of a history are numbered in order from 1. *)
Definition numbered (hist : list IterationRecord) : Prop :=
  ∀ k r, hist !! k = Some r → iteration r = S k.

(** Three runs of the patch loop with a budget of 25 iterations: on a
    snapshot that is coherent from the start, on an incoherent one with an
    explain that fails, and on an incoherent one that the patch repairs. *)
Definition ex_run_coherent : result fix_result * files * nat :=
  llm_fix_by_target_iris ex_llm_loads ex_llm_send ex_rdflib_Literal_of ex_robot_reason
    ex_robot_explain ex_make_prompt ex_targets "out" 25 25%Z 1200 "in.ttl"
    ex_coherent_files.
Definition ex_run_failing : result fix_result * files * nat :=
  llm_fix_by_target_iris ex_llm_loads ex_llm_send ex_rdflib_Literal_of ex_robot_reason
    ex_no_explain ex_make_prompt ex_targets "out" 25 25%Z 1200 "in.ttl" ex_files.
Definition ex_run_repair : result fix_result * files * nat :=
  llm_fix_by_target_iris ex_llm_loads ex_llm_send ex_rdflib_Literal_of ex_robot_reason
    ex_robot_explain ex_make_prompt ex_targets "out" 25 25%Z 1200 "in.ttl" ex_files.

(** The three predicates of the RDF reification vocabulary. *)
Definition is_reification (t : triple) : Prop :=
  t.1.2 = URIRef (RDF "subject") ∨ t.1.2 = URIRef (RDF "predicate")
  ∨ t.1.2 = URIRef (RDF "object").

Global Instance is_reification_dec t : Decision (is_reification t).
Proof. unfold is_reification. apply _. Defined.

(** A triple that only an object property can have: a typing of [p] with
    one of the property types the conversion drops, an inverse-of axiom
    with [p] on either side, or a property chain of [p]. *)
Definition object_only (p : node) (t : triple) : Prop :=
  (t.1.1 = p ∧ t.1.2 = RDF_type ∧ t.2 ∈ OBJECT_ONLY_TYPES)
  ∨ (t.1.1 = p ∧ t.1.2 = OWL_inverseOf)
  ∨ (t.1.2 = OWL_inverseOf ∧ t.2 = p)
  ∨ (t.1.1 = p ∧ t.1.2 = OWL_propertyChainAxiom).

Global Instance object_only_dec p t : Decision (object_only p t).
Proof. unfold object_only. apply _. Defined.

(** [p] is an IRI used as predicate of a triple with a literal object. *)
Definition used_with_literal (g : graph) (p : node) : Prop :=
  is_uri p ∧ ∃ s o, (s, p, o) ∈ g ∧ is_literal o.

(** The typing the conversion adds for [p]. *)
Definition annotation_typing (p : node) : triple :=
  (p, RDF_type, OWL_AnnotationProperty).

(** What the normalizer passes leave behind: no reification triple, no
    literal of a datatype outside the allow-list, no xsd:date term, and no
    predicate used with a literal that looks like an object property. *)
Definition normalized (g : graph) : Prop :=
  (∀ t, t ∈ g →
        ¬ is_reification t ∧ has_unsupported_datatype t = false
        ∧ is_xsd_date_uri t = false ∧ is_xsd_date_literal t = false)
  ∧ (∀ p, used_with_literal g p → is_object_property_like g p = false).

(** The triples of [g] with a node of [X] as subject or object, the blank
    nodes on such triples, and the nodes reached from the seeds in [n]
    steps from a node to the blank nodes beside it. *)
Definition touching (g : graph) (X : gset node) : graph :=
  filter (λ t : triple, t.1.1 ∈ X ∨ t.2 ∈ X) g.
Definition blank_neighbours (g : graph) (X : gset node) : gset node :=
  set_bind (λ t : triple, bnode_set t.1.1 ∪ bnode_set t.2) (touching g X).
Fixpoint blank_ball (g : graph) (seeds : gset node) (n : nat) : gset node :=
  match n with
  | 0 => seeds
  | S k => blank_ball g seeds k ∪ blank_neighbours g (blank_ball g seeds k)
  end.

(* ================================================================== *)
(** * The embedding of [neon-gpt/api_utils.py]                         *)
(* ================================================================== *)

Module api_utils.

(** The text before the first occurrence of [needle] in [s], and the text
    after it. *)
Fixpoint split_first (needle s : string) : option (string * string) :=
  if Py.startswith s needle
  then Some (EmptyString, Py.drop (String.length needle) s)
  else match s with
       | EmptyString => None
       | String c s' =>
           match split_first needle s' with
           | Some (pre, post) => Some (String c pre, post)
           | None => None
           end
       end.

(** [pattern.findall(text)] for [re.escape(start) + (.*?) + re.escape(end)]
    with [re.DOTALL]: from the first start marker to the first end marker
    after it, then on from there. [fuel] bounds the number of matches. *)
Fixpoint marked_blocks (fuel : nat) (text start_marker end_marker : string)
  : list string :=
  match fuel with
  | 0 => []
  | S fuel' =>
      match split_first start_marker text with
      | None => []
      | Some (_, after) =>
          match split_first end_marker after with
          | None => []
          | Some (body, rest) =>
              body :: marked_blocks fuel' rest start_marker end_marker
          end
      end
  end.

(** [[m.strip() for m in matches if m.strip()]] *)
Definition extract_between_markers (text start_marker end_marker : string)
  : list string :=
  filter (λ m, m ≠ EmptyString)
         (Py.strip <$> marked_blocks (S (String.length text)) text
                         start_marker end_marker).

(** What a call of [send_prompt] did: what it returned ([Ok None] is
    Python's [None]; [Raise] a reply without the expected content), the
    requests it posted, the seconds it slept, and the file it saved. *)
Record sent := {
  returned : result (option string);
  requests : nat;
  slept : nat;
  saved : option (string * string);
}.

Definition system_content (persona : string) : string :=
  persona +:+ Py.newline +:+
  "Respond ONLY between ###start_output### and ###end_output### markers." +:+
  Py.newline +:+
  "For Turtle syntax responses, use ONLY ###start_turtle### and ###end_turtle### markers." +:+
  Py.newline +:+
  "Avoid explanations or text outside these markers.".

Section Requests.

(** [requests.post] for the system content, the prompt and the number of
    the attempt: the status code, and the content of the reply when it has
    one. *)
Variable post : string → string → nat → Z * option string.

(** [for attempt in range(1, max_retries + 1)], [left] attempts left. *)
Fixpoint send_attempts (prompt persona step_name : string)
    (max_retries wait_time left attempt slept_so_far : nat) : sent :=
  match left with
  | 0 => {| returned := Ok None; requests := attempt - 1;
            slept := slept_so_far; saved := None |}
  | S left' =>
      let '(status_code, content) := post (system_content persona) prompt attempt in
      if decide (status_code = 200%Z) then
        match content with
        | None => {| returned := Raise (LibraryError "KeyError"); requests := attempt;
                     slept := slept_so_far; saved := None |}
        | Some reply =>
            let extracted :=
              extract_between_markers reply "###start_output###" "###end_output###" in
            let extracted := match extracted with [] => [reply] | _ => extracted end in
            let joined := String.concat (Py.newline +:+ Py.newline) extracted in
            {| returned := Ok (Some joined); requests := attempt;
               slept := slept_so_far;
               saved := Some ("outputs/" +:+ step_name +:+ ".txt",
                              Py.strip joined +:+ Py.newline) |}
        end
      else if decide (status_code = 429%Z) then
        if attempt <? max_retries
        then send_attempts prompt persona step_name max_retries wait_time
                           left' (S attempt) (slept_so_far + wait_time)
        else {| returned := Ok None; requests := attempt;
                slept := slept_so_far; saved := None |}
      else {| returned := Ok None; requests := attempt;
              slept := slept_so_far; saved := None |}
  end.

Definition send_prompt (prompt persona step_name : string)
    (max_retries wait_time : nat) : sent :=
  send_attempts prompt persona step_name max_retries wait_time max_retries 1 0.

End Requests.

End api_utils.

(* ================================================================== *)
(** * Logging and the blocks of an explanation                         *)
(* ================================================================== *)

(** [short(s, n)]: [None] and the empty string are both [(s or "")]. *)
Definition short (s : option string) (n : nat) : string :=
  let s := Py.strip (default EmptyString s) in
  if String.length s <=? n then s
  else Py.take n s +:+ Py.newline +:+ "... [truncated] ...".

(** [s.lstrip(chars)], [s.rstrip(chars)] and [s.strip(chars)]. *)
Fixpoint lstrip_chars (chars s : string) : string :=
  match s with
  | EmptyString => EmptyString
  | String c s' => if has_char c chars then lstrip_chars chars s' else s
  end.

Fixpoint rstrip_chars (chars s : string) : string :=
  match s with
  | EmptyString => EmptyString
  | String c s' =>
      match rstrip_chars chars s' with
      | EmptyString => if has_char c chars then EmptyString else String c EmptyString
      | r => String c r
      end
  end.

Definition strip_chars (chars s : string) : string :=
  rstrip_chars chars (lstrip_chars chars s).

(** The line boundaries of [str.splitlines] in the ASCII range: line
    feed, vertical tab, form feed, carriage return (with a line feed after
    it as one boundary) and the separators 28, 29 and 30. *)
Definition is_line_boundary (c : ascii) : bool :=
  let n := nat_of_ascii c in
  ((10 <=? n) && (n <=? 13)) || ((28 <=? n) && (n <=? 30)).

(** [s.splitlines()] *)
Fixpoint splitlines (s : string) : list string :=
  match s with
  | EmptyString => []
  | String c s' =>
      if is_line_boundary c then
        EmptyString ::
          match s' with
          | String c2 s'' =>
              if bool_decide (nat_of_ascii c = 13) && bool_decide (nat_of_ascii c2 = 10)
              then splitlines s'' else splitlines s'
          | EmptyString => splitlines s'
          end
      else
        match splitlines s' with
        | [] => [String c EmptyString]
        | l :: ls => String c l :: ls
        end
  end.

(** [md.split(sep, 1)[0]]: the text before the first [sep], all of it when
    there is none. *)
Definition split_before (sep md : string) : string :=
  match api_utils.split_first sep md with
  | Some (pre, _) => pre
  | None => md
  end.

(** [_IRI_LINK_RE = \[[^\]]*\]\(([^)]+)\)] matched at the start of [s]:
    group 1 and the text after the match. *)
Definition IRI_LINK_RE_at (s : string) : option (string * string) :=
  match s with
  | String "["%char r =>
      match re_span_until "]"%char r with
      | (_, String _ (String "("%char r2)) =>
          match re_span_until ")"%char r2 with
          | (String c b, String _ r4) => Some (String c b, r4)
          | _ => None
          end
      | _ => None
      end
  | _ => None
  end.

(** [_IRI_LINK_RE.findall(s)]; [fuel] bounds the positions tried. *)
Fixpoint IRI_LINK_RE_findall_from (fuel : nat) (s : string) : list string :=
  match fuel with
  | 0 => []
  | S fuel' =>
      match IRI_LINK_RE_at s with
      | Some (iri, rest) => iri :: IRI_LINK_RE_findall_from fuel' rest
      | None =>
          match s with
          | EmptyString => []
          | String _ s' => IRI_LINK_RE_findall_from fuel' s'
          end
      end
  end.

Definition IRI_LINK_RE_findall (s : string) : list string :=
  IRI_LINK_RE_findall_from (S (String.length s)) s.

Record JustificationBlock := {
  title : string;
  axiom_lines : list string;
  block_iris : gset string;
}.

(** The state of [parse_justification_blocks]: [current_title],
    [current_axioms] and [blocks]. *)
Record parse_state := {
  current_title : option string;
  current_axioms : list string;
  blocks : list JustificationBlock;
}.

(** A string that is true in a condition. *)
Definition truthy (s : option string) : bool :=
  match s with
  | Some (String _ _) => true
  | _ => false
  end.

Definition flush (st : parse_state) : parse_state :=
  {| current_title := None;
     current_axioms := [];
     blocks :=
       if truthy (current_title st) && negb (bool_decide (current_axioms st = []))
       then blocks st ++
            [ {| title := Py.strip (default EmptyString (current_title st));
                 axiom_lines := current_axioms st;
                 block_iris :=
                   list_to_set (current_axioms st ≫= IRI_LINK_RE_findall) |} ]
       else blocks st |}.

Definition is_heading (ln : string) : bool :=
  Py.startswith ln "## " && Py.endswith ln " ##".

Definition is_axiom_line (ln : string) : bool :=
  Py.startswith (Py.strip ln) "- ".

(** The body of [for ln in lines]. *)
Definition parse_line (st : parse_state) (ln : string) : parse_state :=
  if is_heading ln then
    {| current_title := Some (Py.strip (strip_chars "# " ln));
       current_axioms := [];
       blocks := blocks (flush st) |}
  else if is_axiom_line ln then
    {| current_title := current_title st;
       current_axioms := current_axioms st ++ [Py.strip (Py.drop 2 (Py.strip ln))];
       blocks := blocks st |}
  else st.

Definition parse_justification_blocks (md : string) : list JustificationBlock :=
  let cut := split_before (Py.newline +:+ "# Axiom Impact") md in
  let lines := splitlines cut in
  blocks (flush (foldl parse_line
                       {| current_title := None; current_axioms := []; blocks := [] |}
                       lines)).

(** [openrouter_chat_json] with the [send_prompt] of [api_utils] under it,
    called as the source calls it, with [max_retries=3] and
    [wait_time=20]: an exception of [send_prompt] goes through. *)
Definition openrouter_chat_json_over
    (post : string → string → nat → Z * option string)
    (json_loads : string → option json) (prompt step_name : string)
  : result json * api_utils.sent :=
  let r := api_utils.send_prompt post prompt persona step_name 3 20 in
  (match api_utils.returned r with
   | Raise e => Raise e
   | Ok text => openrouter_chat_json json_loads (λ _ _ _, text) prompt step_name
   end, r).

(** The two results agree, but for the exception raised. *)
Definition same_outcome {A : Type} (r r0 : result A) : Prop :=
  r = r0 ∨ ∃ e e0, r = Raise e ∧ r0 = Raise e0.

(** ** The patch loop with the requests of [api_utils] under it *)

Section LoopOverRequests.

Variable json_loads : string → option json.

(** [requests.post] while [send_prompt] runs for a step: by the step name,
    the system content, the prompt and the number of the attempt. *)
Variable post : string → string → string → nat → Z * option string.

Variable rdflib_Literal_of : json → result node.
Variable robot_reason : files → string → Z * string * string.
Variable robot_explain : files → string → nat → option (string * string).
Variable make_prompt : string → string → gset string → string.
Variables (target_iris : gset string) (out_dir : string).
Variables (max_robot_explanations : nat) (max_iterations : Z).
Variable evidence_max_triples : nat.

(** The text [send_prompt] returns for a step, as the [send_prompt] that
    [patch_loop] takes: a reply without content counts as no reply. *)
Definition returned_text (prompt persona step_name : string) : option string :=
  match api_utils.returned
          (api_utils.send_prompt (post step_name) prompt persona step_name 3 20) with
  | Ok text => text
  | Raise _ => None
  end.

(** The directory [outputs] of [api_utils], a store of texts by path,
    after a call of [send_prompt]. It is kept apart from the ontology and
    patch files: the loop reads none of its texts (the ontology it is
    given is taken to be no such file). *)
Definition outputs_after (s : api_utils.sent) (outputs : gmap string string)
  : gmap string string :=
  match api_utils.saved s with
  | Some (filepath, content) => <[ filepath := content ]> outputs
  | None => outputs
  end.

(** The loop of [llm_fix_by_target_iris], as [patch_loop], with the file
    that [send_prompt] saves at each request that is answered. *)
Fixpoint patch_loop_over (left it : nat) (current : string)
    (hist : list IterationRecord) (fs : files) (outputs : gmap string string)
    (started : nat) : result fix_result * files * gmap string string * nat :=
  match left with
  | 0 =>
      let '(st, diag) := robot_reason_status robot_reason fs current in
      (Ok {| status := if decide (st = "coherent") then "coherent"
                       else if decide (st = "error") then "robot_reason_error"
                       else "max_iterations_reached";
             iterations := max_iterations;
             final_ontology := current;
             history := hist;
             latest_robot_diagnostics := diag;
             target_iris_count := size target_iris |}, fs, outputs, started)
  | S left' =>
      let '(st, diag) := robot_reason_status robot_reason fs current in
      if decide (st = "coherent")
      then (Ok (stopped target_iris "coherent" it current hist diag),
            fs, outputs, S started)
      else if decide (st = "error")
      then (Ok (stopped target_iris "robot_reason_error" it current hist diag),
            fs, outputs, S started)
      else
        match robot_explain fs current max_robot_explanations with
        | None => (Raise (RuntimeError "ROBOT could not produce explanation markdown."),
                   fs, outputs, S started)
        | Some (mode, md) =>
            match build_targeted_evidence fs current target_iris evidence_max_triples with
            | Raise e => (Raise e, fs, outputs, S started)
            | Ok evidence =>
                let prompt := make_prompt md evidence target_iris in
                let step_name := "patch_" +:+ fmt_03d it in
                let '(reply, s) :=
                  openrouter_chat_json_over (post step_name) json_loads prompt step_name in
                let outputs1 := outputs_after s outputs in
                match reply with
                | Raise e => (Raise e, fs, outputs1, S started)
                | Ok patch =>
                    let patch_file := out_dir +:+ "/patch_" +:+ fmt_03d it +:+ ".json" in
                    let fs1 := <[ patch_file := JsonFile patch ]> fs in
                    let next_onto := out_dir +:+ "/iter_" +:+ fmt_03d it +:+ ".ttl" in
                    match apply_patch_to_ttl rdflib_Literal_of current next_onto patch fs1 with
                    | (Raise e, fs2) => (Raise e, fs2, outputs1, S started)
                    | (Ok _, fs2) =>
                        let members := match patch with JObject m => m | _ => [] end in
                        let record :=
                          {| iteration := it;
                             robot_explain_mode := mode;
                             patch_path := patch_file;
                             ontology_path := next_onto;
                             rationale :=
                               dict_get_default "rationale" (JString EmptyString) members;
                             operations :=
                               dict_get_default "operations" (JArray []) members;
                             robot_reason_diagnostics_before := diag |} in
                        patch_loop_over left' (S it) next_onto (hist ++ [record]) fs2
                                        outputs1 (S started)
                    end
                end
            end
        end
  end.

Definition llm_fix_by_target_iris_over (ontology : string) (fs : files)
    (outputs : gmap string string)
  : result fix_result * files * gmap string string * nat :=
  patch_loop_over (Z.to_nat max_iterations) 1 ontology [] fs outputs 0.

End LoopOverRequests.

(* ================================================================== *)
(** * Part II: properties                                              *)
(* ================================================================== *)

(** ** Python strings *)

Lemma append_cons a s t : String a s +:+ t = String a (s +:+ t).
Proof. reflexivity. Qed.

Lemma append_empty_l s : EmptyString +:+ s = s.
Proof. reflexivity. Qed.

Lemma append_empty_r s : s +:+ EmptyString = s.
Proof. induction s as [|a s IH]; [reflexivity|]. by rewrite append_cons, IH. Qed.

Lemma append_assoc s t u : (s +:+ t) +:+ u = s +:+ t +:+ u.
Proof. induction s as [|a s IH]; [reflexivity|]. by rewrite !append_cons, IH. Qed.

Lemma startswith_spec s p :
  Py.startswith s p = true ↔ ∃ post, s = p +:+ post.
Proof.
  revert s. induction p as [|a p IH]; intros s.
  - destruct s; (split; [intros _; eexists; reflexivity | reflexivity]).
  - destruct s as [|b s]; cbn [Py.startswith].
    + split; [discriminate | intros [post Hpost]; discriminate Hpost].
    + destruct (decide (a = b)) as [->|Hne].
      * rewrite IH. split; intros [post Hpost]; exists post.
        -- by rewrite append_cons, <- Hpost.
        -- rewrite append_cons in Hpost. by injection Hpost.
      * split; [discriminate|]. intros [post Hpost].
        rewrite append_cons in Hpost. injection Hpost as Hab _. by destruct Hne.
Qed.

Lemma contains_spec s sub : Py.contains s sub = true ↔ occurs sub s.
Proof.
  induction s as [|a s IH]; cbn [Py.contains].
  - rewrite orb_false_r, startswith_spec. split.
    + intros [post Hpost]. by exists EmptyString, post.
    + intros ([|b pre] & post & Hs); [by exists post|discriminate Hs].
  - rewrite orb_true_iff, IH, startswith_spec. split.
    + intros [[post Hpost] | (pre & post & Hs)].
      * by exists EmptyString, post.
      * exists (String a pre), post. by rewrite append_cons, <- Hs.
    + intros ([|b pre] & post & Hs).
      * left. by exists post.
      * right. rewrite append_cons in Hs. injection Hs as _ Hs. by exists pre, post.
Qed.

Lemma any_in_spec sigs s :
  Py.any_in sigs s = true ↔ ∃ sig, sig ∈ sigs ∧ occurs sig s.
Proof.
  unfold Py.any_in. rewrite existsb_exists.
  setoid_rewrite contains_spec. setoid_rewrite <- list_elem_of_In. done.
Qed.

Lemma is_space_lower c : Py.is_space (Py.lower_char c) = Py.is_space c.
Proof. by destruct c as [[] [] [] [] [] [] [] []]. Qed.

Lemma lower_lstrip s : Py.lower (Py.lstrip s) = Py.lstrip (Py.lower s).
Proof.
  induction s as [|a s IH]; [reflexivity|].
  cbn [Py.lstrip Py.lower]. rewrite is_space_lower.
  by destruct (Py.is_space a).
Qed.

Lemma lower_rstrip s : Py.lower (Py.rstrip s) = Py.rstrip (Py.lower s).
Proof.
  induction s as [|a s IH]; [reflexivity|].
  cbn [Py.rstrip Py.lower]. rewrite <- IH, is_space_lower.
  destruct (Py.rstrip s); [by destruct (Py.is_space a) | reflexivity].
Qed.

Lemma lower_strip s : Py.lower (Py.strip s) = Py.strip (Py.lower s).
Proof. unfold Py.strip. by rewrite lower_rstrip, lower_lstrip. Qed.

Lemma occurs_cons a sub s : occurs sub s → occurs sub (String a s).
Proof.
  intros (pre & post & ->). exists (String a pre), post. by rewrite append_cons.
Qed.

Lemma occurs_lstrip sig u :
  first_solid sig → occurs sig (Py.lstrip u) ↔ occurs sig u.
Proof.
  intros Hsig. induction u as [|a u IH]; [reflexivity|].
  cbn [Py.lstrip]. destruct (Py.is_space a) eqn:Ha; [|reflexivity].
  rewrite IH. split; [apply occurs_cons|].
  intros ([|b pre] & post & Hu).
  - destruct sig as [|c sig]; [destruct Hsig|].
    rewrite append_empty_l, append_cons in Hu. injection Hu as -> _.
    cbn [first_solid] in Hsig. rewrite Ha in Hsig. destruct Hsig.
  - rewrite append_cons in Hu. injection Hu as _ Hu. by exists pre, post.
Qed.

Lemma rstrip_keeps_solid sig post :
  last_solid sig → ∃ post', Py.rstrip (sig +:+ post) = sig +:+ post'.
Proof.
  induction sig as [|c sig IH]; intros Hsig; [destruct Hsig|].
  destruct sig as [|d sig].
  - exists (Py.rstrip post). rewrite append_cons, !append_empty_l.
    cbn [Py.rstrip]. cbn [last_solid] in Hsig.
    destruct (Py.rstrip post); [|reflexivity].
    by destruct (Py.is_space c).
  - destruct (IH Hsig) as [post' Hpost']. exists post'.
    rewrite append_cons. cbn [Py.rstrip]. rewrite Hpost'.
    by rewrite append_cons.
Qed.

Lemma rstrip_split u : ∃ ws, u = Py.rstrip u +:+ ws.
Proof.
  induction u as [|a u [ws IH]]; [by exists EmptyString|].
  cbn [Py.rstrip]. destruct (Py.rstrip u) as [|b r].
  - rewrite append_empty_l in IH. subst u.
    destruct (Py.is_space a); [by exists (String a ws) | by exists ws].
  - exists ws. by rewrite append_cons, <- IH.
Qed.

Lemma occurs_nonempty sig s : first_solid sig → occurs sig s → s ≠ EmptyString.
Proof.
  intros Hsig ([|b pre] & post & ->); [|discriminate].
  destruct sig; [destruct Hsig | discriminate].
Qed.

Lemma occurs_rstrip sig u :
  first_solid sig → last_solid sig → occurs sig (Py.rstrip u) ↔ occurs sig u.
Proof.
  intros Hfirst Hlast. split.
  - intros (pre & post & Hr). destruct (rstrip_split u) as [ws Hu].
    exists pre, (post +:+ ws). by rewrite Hu, Hr, !append_assoc.
  - induction u as [|a u IH]; [done|].
    intros ([|b pre] & post & Hu).
    + rewrite append_empty_l in Hu. rewrite Hu.
      destruct (rstrip_keeps_solid sig post Hlast) as [post' ->].
      by exists EmptyString, post'.
    + rewrite append_cons in Hu. injection Hu as _ Hu.
      assert (Hocc : occurs sig (Py.rstrip u)) by (apply IH; by exists pre, post).
      cbn [Py.rstrip]. destruct (Py.rstrip u) as [|c r] eqn:Hr.
      * by destruct (occurs_nonempty sig EmptyString Hfirst Hocc).
      * by apply occurs_cons.
Qed.

Lemma occurs_strip sig u :
  first_solid sig → last_solid sig → occurs sig (Py.strip u) ↔ occurs sig u.
Proof.
  intros Hfirst Hlast. unfold Py.strip.
  by rewrite occurs_rstrip, occurs_lstrip.
Qed.

(** ** Graph rewriting loops *)

Section RewriteLoop.

Variable f : triple → triple.
Variable step : graph * nat → triple → graph * nat.
Hypothesis step_eq : ∀ acc t, step acc t = (g_add (f t) (g_remove t acc.1), S acc.2).

(** A loop that replaces each triple of [l] by its image, none of the
    images being itself in [l], replaces them all at once. *)
Lemma rewrite_loop (l : list triple) (g : graph) (n : nat) :
  (∀ t, t ∈ l → f t ∉ l) →
  foldl step (g, n) l
  = ((g ∖ list_to_set l) ∪ list_to_set (f <$> l), n + length l).
Proof.
  revert g n. induction l as [|t l IH]; intros g n Hfresh.
  - simpl. f_equal; [set_solver | lia].
  - simpl. rewrite step_eq. simpl. rewrite IH.
    + assert (f t ∉ l) by (intros ?; eapply Hfresh; [left | by right]).
      f_equal; [| lia]. unfold g_add, g_remove. set_solver.
    + intros t' Ht' Hin. eapply (Hfresh t'); [by right | by right].
Qed.

End RewriteLoop.

Lemma filter_none {A} (P : A → Prop) `{!∀ x, Decision (P x)} (l : list A) :
  (∀ x, x ∈ l → ¬ P x) → filter P l = [].
Proof.
  induction l as [|x l IH]; intros Hno; [done|].
  rewrite filter_cons. destruct (decide (P x)) as [HP|_].
  - exfalso. eapply Hno; [left | done].
  - apply IH. intros y Hy. apply Hno. by right.
Qed.

Lemma filter_as_list (P : triple → Prop) `{!∀ x, Decision (P x)} (g : graph) :
  filter P g = list_to_set (filter P (elements g)).
Proof.
  apply set_eq. intros t.
  rewrite elem_of_filter, elem_of_list_to_set, list_elem_of_filter, elem_of_elements.
  done.
Qed.

Lemma size_filter_elements (P : triple → Prop) `{!∀ x, Decision (P x)} (g : graph) :
  size (filter P g) = length (filter P (elements g)).
Proof.
  rewrite filter_as_list. apply size_list_to_set, NoDup_filter, NoDup_elements.
Qed.

(** ** The unsupported-datatype pass *)

Lemma XSD_string_supported : XSD_string ∈ OWL2_DATATYPE_URIS.
Proof. compute_done. Qed.

(** The allow-list is a closed set of 38 strings: proofs use it through
    membership facts, never by unfolding it. *)
Opaque OWL2_DATATYPE_URIS.

Lemma to_string_image_supported t : has_unsupported_datatype (to_string_image t) = false.
Proof.
  unfold has_unsupported_datatype, to_string_image. simpl.
  apply bool_decide_eq_false. intros Hn. apply Hn, XSD_string_supported.
Qed.

Lemma unsupported_pass_eq (g : graph) :
  deterministic_fix_unsupported_datatypes_to_string g
  = ((g ∖ filter (λ t, has_unsupported_datatype t) g)
       ∪ set_map to_string_image (filter (λ t : triple, has_unsupported_datatype t) g),
     size (filter (λ t : triple, has_unsupported_datatype t) g)).
Proof.
  unfold deterministic_fix_unsupported_datatypes_to_string.
  rewrite (rewrite_loop to_string_image).
  - rewrite size_filter_elements, filter_as_list. f_equal.
    apply set_eq. intros t. unfold set_map.
    rewrite !elem_of_union, !elem_of_difference, !elem_of_list_to_set,
      !list_elem_of_fmap.
    setoid_rewrite elem_of_elements. setoid_rewrite elem_of_list_to_set. done.
  - by intros acc [[s p] o].
  - intros t [Ht _]%list_elem_of_filter [Hi _]%list_elem_of_filter.
    rewrite to_string_image_supported in Hi. done.
Qed.

Lemma unsupported_literal s p lex dt lang :
  has_unsupported_datatype (s, p, Literal lex (Some dt) lang)
  ↔ dt ∉ OWL2_DATATYPE_URIS.
Proof. unfold has_unsupported_datatype. cbn [snd]. apply bool_decide_spec. Qed.

Lemma unsupported_inv t :
  has_unsupported_datatype t →
  ∃ s p lex dt lang, t = (s, p, Literal lex (Some dt) lang) ∧ dt ∉ OWL2_DATATYPE_URIS.
Proof.
  destruct t as [[s p] [i|b|lex [dt|] lang]]; unfold has_unsupported_datatype;
    cbn [snd]; intros Hb; [destruct Hb | destruct Hb | | destruct Hb].
  exists s, p, lex, dt, lang. split; [reflexivity|]. apply bool_decide_unpack in Hb. exact Hb.
Qed.

Lemma no_unsupported_filter (g : graph) :
  (∀ t, t ∈ g → has_unsupported_datatype t = false) →
  filter (λ t : triple, has_unsupported_datatype t) g = ∅.
Proof.
  intros Hnone. apply set_eq. intros t. rewrite elem_of_filter. split.
  - intros [Hb Hin]. rewrite (Hnone t Hin) in Hb. destruct Hb.
  - intros []%not_elem_of_empty.
Qed.

(** C7. Every literal whose datatype is outside the allow-list ends as an
    xsd:string literal with the same lexical form, and the literal it was is
    gone; every other triple (a literal without datatype or with an
    allow-listed one, or no literal at all) stays; nothing else appears; the
    count is the number of rewritten literals; and a graph without such
    literals is returned as it is, with count 0. The pass is a total
    function: it returns for every graph. *)
Theorem unsupported_datatypes_coerced (g : graph) :
  let g' := (deterministic_fix_unsupported_datatypes_to_string g).1 in
  let n := (deterministic_fix_unsupported_datatypes_to_string g).2 in
  (∀ s p lex dt lang,
      (s, p, Literal lex (Some dt) lang) ∈ g → dt ∉ OWL2_DATATYPE_URIS →
      (s, p, Literal lex (Some XSD_string) None) ∈ g'
      ∧ (s, p, Literal lex (Some dt) lang) ∉ g')
  ∧ (∀ s p o,
      (s, p, o) ∈ g →
      (∀ lex dt lang, o = Literal lex (Some dt) lang → dt ∈ OWL2_DATATYPE_URIS) →
      (s, p, o) ∈ g')
  ∧ (∀ t, t ∈ g' →
      (t ∈ g ∧ has_unsupported_datatype t = false)
      ∨ ∃ s p lex dt lang,
          t = (s, p, Literal lex (Some XSD_string) None)
          ∧ (s, p, Literal lex (Some dt) lang) ∈ g ∧ dt ∉ OWL2_DATATYPE_URIS)
  ∧ n = size (filter (λ t : triple, has_unsupported_datatype t) g)
  ∧ ((∀ t, t ∈ g → has_unsupported_datatype t = false) → g' = g ∧ n = 0).
Proof.
  intros g' n. subst g' n. rewrite unsupported_pass_eq. cbn [fst snd].
  split; [intros s p lex dt lang Hin Hdt; split | split; [|split; [|split]]].
  - apply elem_of_union_r, elem_of_map.
    exists (s, p, Literal lex (Some dt) lang). split; [reflexivity|].
    apply elem_of_filter. split; [|exact Hin]. apply unsupported_literal, Hdt.
  - intros [[_ Hn]%elem_of_difference | (t & Ht & _)%elem_of_map]%elem_of_union.
    + apply Hn, elem_of_filter. split; [|exact Hin]. apply unsupported_literal, Hdt.
    + unfold to_string_image in Ht. injection Ht as _ _ _ Hd. subst dt.
      apply Hdt, XSD_string_supported.
  - intros s p o Hin Hok. apply elem_of_union_l, elem_of_difference.
    split; [exact Hin|].
    intros [(s' & p' & lex & dt & lang & Heq & Hdt)%unsupported_inv _]%elem_of_filter.
    injection Heq as _ _ ->. eapply Hdt, Hok. reflexivity.
  - intros t [[Hin Hn]%elem_of_difference | (t0 & Ht & Hbad)%elem_of_map]%elem_of_union.
    + left. split; [exact Hin|].
      destruct (has_unsupported_datatype t) eqn:E; [|reflexivity].
      exfalso. apply Hn, elem_of_filter. rewrite E. split; [exact I | exact Hin].
    + right. apply elem_of_filter in Hbad as [Hbad Hin].
      apply unsupported_inv in Hbad as (s & p & lex & dt & lang & -> & Hdt).
      exists s, p, lex, dt, lang. rewrite Ht. split; [reflexivity|]. split; [exact Hin | exact Hdt].
  - reflexivity.
  - intros Hnone. rewrite (no_unsupported_filter g Hnone).
    split; [|by rewrite size_empty]. set_solver.
Qed.

(** ** The date pass *)

Lemma XSD_dateTime_not_date : XSD_dateTime ≠ XSD_date.
Proof. intros Heq. vm_compute in Heq. discriminate. Qed.

Lemma date_uri_image_fresh t :
  is_xsd_date_uri (date_uri_image t) = false
  ∧ is_xsd_date_literal (date_uri_image t) = false.
Proof.
  split; [|reflexivity]. apply bool_decide_eq_false. cbn [date_uri_image snd].
  intros Heq. inversion Heq.
Qed.

Lemma date_literal_image_fresh t :
  is_xsd_date_uri (date_literal_image t) = false
  ∧ is_xsd_date_literal (date_literal_image t) = false.
Proof.
  split; [done|]. apply bool_decide_eq_false, XSD_dateTime_not_date.
Qed.

Lemma date_kinds_disjoint t : is_xsd_date_uri t → is_xsd_date_literal t → False.
Proof.
  destruct t as [[s p] o]. unfold is_xsd_date_uri, is_xsd_date_literal. simpl.
  intros ->%bool_decide_unpack. done.
Qed.

Lemma date_pass_eq (g : graph) :
  let U : graph := filter (λ t : triple, is_xsd_date_uri t) g in
  let L : graph := filter (λ t : triple, is_xsd_date_literal t) g in
  deterministic_fix_xsd_date_to_datetime g
  = ((((g ∖ U) ∪ set_map date_uri_image U) ∖ L) ∪ set_map date_literal_image L,
     size U + size L).
Proof.
  intros U L. unfold deterministic_fix_xsd_date_to_datetime. cbv zeta.
  rewrite (rewrite_loop date_uri_image); cycle 1.
  { by intros acc [[s p] o]. }
  { intros t [_ _]%list_elem_of_filter [Hi _]%list_elem_of_filter.
    by rewrite (proj1 (date_uri_image_fresh t)) in Hi. }
  cbn [fst snd].
  set (g1 := (g ∖ list_to_set _) ∪ list_to_set _).
  assert (Hg1 : g1 = (g ∖ U) ∪ set_map date_uri_image U).
  { subst g1 U. rewrite filter_as_list. unfold set_map.
    apply set_eq. intros t.
    rewrite !elem_of_union, !elem_of_difference, !elem_of_list_to_set,
      !list_elem_of_fmap.
    setoid_rewrite elem_of_elements. setoid_rewrite elem_of_list_to_set. done. }
  assert (HL : filter (λ t : triple, is_xsd_date_literal t) g1 = L).
  { rewrite Hg1. subst U L. apply set_eq. intros t.
    rewrite !elem_of_filter, elem_of_union, elem_of_difference, elem_of_map.
    setoid_rewrite elem_of_filter. split.
    - intros [Hl [[Hin _] | (t0 & -> & _)]]; [done|].
      by rewrite (proj2 (date_uri_image_fresh t0)) in Hl.
    - intros [Hl Hin]. split; [done|]. left. split; [done|].
      intros [Hu _]. by eapply date_kinds_disjoint. }
  rewrite (rewrite_loop date_literal_image); cycle 1.
  { by intros acc [[s p] o]. }
  { intros t [_ _]%list_elem_of_filter [Hi _]%list_elem_of_filter.
    by rewrite (proj2 (date_literal_image_fresh t)) in Hi. }
  rewrite <- !size_filter_elements, <- !filter_as_list.
  replace (list_to_set (date_literal_image <$>
             filter (λ t : triple, is_xsd_date_literal t) (elements g1)))
    with (set_map (C:=graph) (D:=graph) date_literal_image
            (filter (λ t : triple, is_xsd_date_literal t) g1)).
  - rewrite HL, Hg1. reflexivity.
  - unfold set_map. apply set_eq. intros t.
    rewrite !elem_of_list_to_set, !list_elem_of_fmap.
    setoid_rewrite elem_of_elements. setoid_rewrite list_elem_of_filter.
    setoid_rewrite elem_of_filter. setoid_rewrite elem_of_elements. done.
Qed.

(** Lexical forms *)

Ltac split_shape H :=
  repeat match type of H with
         | Is_true (_ && _) => let H' := fresh "Hd" in apply andb_True in H as [H H']
         end;
  repeat match goal with
         | H : Is_true (Py.is_digit _) |- _ => apply Is_true_true in H
         | H : Is_true (bool_decide _) |- _ => apply bool_decide_unpack in H
         end.

Ltac digit_clash :=
  match goal with
  | H : Py.is_digit ?c = true |- _ =>
      is_ground c; vm_compute in H; discriminate H
  end.

Ltac decide_chars :=
  repeat first
    [ rewrite bool_decide_eq_true_2 by (first [reflexivity | by left | by right])
    | rewrite bool_decide_eq_false_2
        by (first [ intros [= ->]; digit_clash
                  | intros [[= ->] | [= ->]]; digit_clash
                  | intros [= ]
                  | intros [[= ] | [= ]] ]) ].
Ltac app_norm := cbv beta iota fix delta [String.append].
Ltac lex_case :=
  app_norm; unfold date_new_lex, DATE_LEX_RE_match;
  repeat match goal with H : Py.is_digit _ = true |- _ => rewrite H end;
  cbn; unfold re_dollar;
  repeat match goal with H : Py.is_digit _ = true |- _ => rewrite H end;
  decide_chars; cbn; app_norm; try reflexivity.
Lemma date_new_lex_shapes d :
  date_shape d →
  date_new_lex d = d +:+ "T00:00:00"
  ∧ date_new_lex (d +:+ "Z") = d +:+ "T00:00:00Z"
  ∧ date_new_lex (d +:+ "z") = d +:+ "T00:00:00Z"
  ∧ ∀ tz, offset_shape tz → date_new_lex (d +:+ tz) = d +:+ "T00:00:00" +:+ tz.
Proof.
  intros Hs.
  do 10 (destruct d as [|? d]; [destruct Hs|]). destruct d; [|destruct Hs].
  unfold date_shape in Hs. split_shape Hs. subst.
  split; [|split; [|split]].
  - lex_case.
  - lex_case.
  - lex_case.
  - intros tz Htz.
    do 6 (destruct tz as [|? tz]; [destruct Htz|]). destruct tz; [|destruct Htz].
    unfold offset_shape in Htz. split_shape Htz.
    match goal with H : _ ∨ _ |- _ => destruct H end; subst; lex_case.
Qed.

Lemma date_new_lex_unmatched lex :
  DATE_LEX_RE_match lex = false → date_new_lex lex = lex.
Proof. intros Hno. unfold date_new_lex. by rewrite Hno. Qed.

Lemma date_pass_leaves_no_date (g : graph) s p o :
  (s, p, o) ∈ (deterministic_fix_xsd_date_to_datetime g).1 →
  o ≠ URIRef XSD_date ∧ ∀ lex lang, o ≠ Literal lex (Some XSD_date) lang.
Proof.
  rewrite date_pass_eq. cbn [fst].
  intros [[Hin HnL]%elem_of_difference | (t0 & Ht & _)%elem_of_map]%elem_of_union.
  - apply elem_of_union in Hin as [[Hin HnU]%elem_of_difference | (t0 & Ht & _)%elem_of_map].
    + split.
      * intros ->. apply HnU, elem_of_filter. split; [|exact Hin].
        unfold is_xsd_date_uri. cbn [snd]. by apply bool_decide_pack.
      * intros lex lang ->. apply HnL, elem_of_filter. split.
        -- unfold is_xsd_date_literal. cbn [snd]. by apply bool_decide_pack.
        -- exact Hin.
    + unfold date_uri_image in Ht. injection Ht as _ _ ->. split.
      * intros Heq. inversion Heq.
      * intros lex lang Heq. discriminate Heq.
  - unfold date_literal_image in Ht. injection Ht as _ _ ->. split.
    + intros Heq. discriminate Heq.
    + intros lex lang Heq. inversion Heq.
Qed.

Lemma date_pass_fixpoint (g : graph) :
  (∀ s p o, (s, p, o) ∈ g →
     o ≠ URIRef XSD_date ∧ ∀ lex lang, o ≠ Literal lex (Some XSD_date) lang) →
  deterministic_fix_xsd_date_to_datetime g = (g, 0).
Proof.
  intros Hclean. unfold deterministic_fix_xsd_date_to_datetime.
  rewrite (filter_none (λ t : triple, is_xsd_date_uri t) (elements g)).
  - cbn [foldl fst].
    rewrite (filter_none (λ t : triple, is_xsd_date_literal t) (elements g)); [done|].
    intros [[s p] o] Hin%elem_of_elements Hl.
    unfold is_xsd_date_literal in Hl. cbn [snd] in Hl.
    destruct o as [i|b|lex [dt|] lang]; try (by destruct Hl).
    apply bool_decide_unpack in Hl as ->.
    by eapply (proj2 (Hclean _ _ _ Hin)).
  - intros [[s p] o] Hin%elem_of_elements Hu.
    apply bool_decide_unpack in Hu. cbn [snd] in Hu. subst o.
    by apply (proj1 (Hclean _ _ _ Hin)).
Qed.

(** C6, amended. After the date pass every literal that had the xsd:date
    datatype is in the graph as an xsd:dateTime literal, and no term of
    type xsd:date is left; a date-only lexical form [YYYY-MM-DD] gets
    [T00:00:00] appended, followed by [Z] when its suffix was [Z] or [z],
    and by the numeric offset as it was; a lexical form the pass's pattern
    does not match is kept as it is; a triple whose object has nothing to
    do with xsd:date is kept; and running the pass on its own output
    changes nothing and counts 0. *)
Theorem date_pass_normalizes (g : graph) :
  let g' := (deterministic_fix_xsd_date_to_datetime g).1 in
  (∀ s p lex lang,
      (s, p, Literal lex (Some XSD_date) lang) ∈ g →
      (s, p, Literal (date_new_lex lex) (Some XSD_dateTime) None) ∈ g')
  ∧ (∀ s p o, (s, p, o) ∈ g' →
      o ≠ URIRef XSD_date ∧ ∀ lex lang, o ≠ Literal lex (Some XSD_date) lang)
  ∧ (∀ d, date_shape d →
      date_new_lex d = d +:+ "T00:00:00"
      ∧ date_new_lex (d +:+ "Z") = d +:+ "T00:00:00Z"
      ∧ date_new_lex (d +:+ "z") = d +:+ "T00:00:00Z"
      ∧ ∀ tz, offset_shape tz → date_new_lex (d +:+ tz) = d +:+ "T00:00:00" +:+ tz)
  ∧ (∀ lex, DATE_LEX_RE_match lex = false → date_new_lex lex = lex)
  ∧ (∀ t, t ∈ g → is_xsd_date_uri t = false → is_xsd_date_literal t = false → t ∈ g')
  ∧ deterministic_fix_xsd_date_to_datetime g' = (g', 0).
Proof.
  intros g'. split; [|split; [|split; [|split; [|split]]]].
  - intros s p lex lang Hin. subst g'. rewrite date_pass_eq. cbn [fst].
    apply elem_of_union_r, elem_of_map.
    exists (s, p, Literal lex (Some XSD_date) lang). split; [reflexivity|].
    apply elem_of_filter. split; [|exact Hin].
    unfold is_xsd_date_literal. cbn [snd]. by apply bool_decide_pack.
  - intros s p o. apply date_pass_leaves_no_date.
  - apply date_new_lex_shapes.
  - apply date_new_lex_unmatched.
  - intros t Hin Hu Hl. subst g'. rewrite date_pass_eq. cbn [fst].
    apply elem_of_union_l, elem_of_difference. split.
    + apply elem_of_union_l, elem_of_difference. split; [exact Hin|].
      intros [Hu' _]%elem_of_filter. by rewrite Hu in Hu'.
    + intros [Hl' _]%elem_of_filter. by rewrite Hl in Hl'.
  - apply date_pass_fixpoint. intros s p o. apply date_pass_leaves_no_date.
Qed.

(** C6, counterexample. The date literal ["2020-01-01z"] becomes
    ["2020-01-01T00:00:00Z"]: neither the date-time with the suffix [z] it
    had, nor the lexical form it had. *)
Lemma date_pass_rewrites_lowercase_z :
  (deterministic_fix_xsd_date_to_datetime ex_date_graph).1
  = {[ (ex_s, ex_p, Literal "2020-01-01T00:00:00Z" (Some XSD_dateTime) None) ]}
  ∧ (ex_s, ex_p, Literal "2020-01-01T00:00:00z" (Some XSD_dateTime) None)
      ∉ (deterministic_fix_xsd_date_to_datetime ex_date_graph).1
  ∧ (ex_s, ex_p, Literal "2020-01-01z" (Some XSD_dateTime) None)
      ∉ (deterministic_fix_xsd_date_to_datetime ex_date_graph).1.
Proof. split; [|split]; compute_done. Qed.

(** ** The coherence diagnostic *)

Lemma signals_solid :
  Forall (λ sig, first_solid sig ∧ last_solid sig)
         (incoherent_signals ++ error_signals).
Proof. repeat constructor. Qed.

Lemma any_in_stripped sigs text :
  Forall (λ sig, first_solid sig ∧ last_solid sig) sigs →
  Py.any_in sigs (Py.lower (Py.strip text)) = true
  ↔ ∃ sig, sig ∈ sigs ∧ occurs sig (Py.lower text).
Proof.
  intros Hsolid. rewrite any_in_spec, lower_strip.
  split; intros (sig & Hin & Hocc); exists sig; (split; [exact Hin|]);
    destruct (proj1 (Forall_forall _ _) Hsolid sig Hin) as [Hf Hl].
  - by apply (occurs_strip sig _ Hf Hl).
  - by apply (occurs_strip sig _ Hf Hl).
Qed.

(** C1. Exit code 0 is coherent. A non-zero exit code whose combined
    output, in lower case, contains an incoherence signal is incoherent,
    whatever else the output contains. A non-zero exit code without an
    incoherence signal is an error; so is, in particular, one with neither
    vocabulary. The diagnostics are the combined output, stripped. *)
Theorem robot_reason_classification (rc : Z) (out err : string) :
  let text := out +:+ Py.newline +:+ err in
  let status := (robot_reason_classify rc out err).1 in
  (rc = 0%Z → status = "coherent")
  ∧ (rc ≠ 0%Z →
     (∃ sig, sig ∈ incoherent_signals ∧ occurs sig (Py.lower text)) →
     status = "incoherent")
  ∧ (rc ≠ 0%Z →
     (∀ sig, sig ∈ incoherent_signals ++ error_signals →
             ¬ occurs sig (Py.lower text)) →
     status = "error")
  ∧ (rc ≠ 0%Z →
     (∀ sig, sig ∈ incoherent_signals → ¬ occurs sig (Py.lower text)) →
     status = "error")
  ∧ (robot_reason_classify rc out err).2 = Py.strip text.
Proof.
  intros text status.
  assert (Hinc : Forall (λ sig, first_solid sig ∧ last_solid sig) incoherent_signals).
  { exact (proj1 (proj1 (Forall_app _ _ _) signals_solid)). }
  assert (Herror : rc ≠ 0%Z →
     (∀ sig, sig ∈ incoherent_signals → ¬ occurs sig (Py.lower text)) →
     status = "error").
  { intros Hrc Hnone. subst status. unfold robot_reason_classify.
    destruct (decide (rc = 0%Z)) as [Hz|_]; [by destruct Hrc|].
    fold text.
    destruct (Py.any_in incoherent_signals (Py.lower (Py.strip text))) eqn:Hsig.
    - apply any_in_stripped in Hsig as (sig & Hin & Hocc); [|exact Hinc].
      by destruct (Hnone sig Hin).
    - by destruct (Py.any_in error_signals (Py.lower (Py.strip text))). }
  split; [|split; [|split; [|split]]].
  - intros ->. reflexivity.
  - intros Hrc Hsig. subst status. unfold robot_reason_classify.
    destruct (decide (rc = 0%Z)) as [Hz|_]; [by destruct Hrc|].
    fold text. apply (any_in_stripped _ _ Hinc) in Hsig. by rewrite Hsig.
  - intros Hrc Hnone. apply Herror; [exact Hrc|].
    intros sig Hin. apply Hnone, elem_of_app. by left.
  - exact Herror.
  - subst status text. unfold robot_reason_classify.
    destruct (decide (rc = 0%Z)); [reflexivity|].
    by repeat match goal with |- context [if ?b then _ else _] => destruct b end.
Qed.

(** Tool-error vocabulary beside an incoherence signal; a silent failure. *)
Example robot_reason_noise :
  robot_reason_classify 1 "ERROR Exception: could not parse axiom"
                          "The ontology is INCONSISTENT"
  = ("incoherent",
     "ERROR Exception: could not parse axiom" +:+ Py.newline +:+
     "The ontology is INCONSISTENT")
  ∧ (robot_reason_classify 2 "" "").1 = "error".
Proof. split; reflexivity. Qed.

(** ** The non-simple-property resolver *)

Lemma elem_of_objects (g : graph) s p o : o ∈ objects g s p ↔ (s, p, o) ∈ g.
Proof.
  unfold objects. rewrite list_elem_of_omap. split.
  - intros ([[s' p'] o'] & Hin%elem_of_elements & Hsome).
    cbn [fst snd] in Hsome. destruct (decide (s' = s ∧ p' = p)) as [[-> ->]|]; [|done].
    by injection Hsome as ->.
  - intros Hin. exists (s, p, o). split; [by apply elem_of_elements|].
    cbn [fst snd]. by rewrite decide_True.
Qed.

Lemma elem_of_subjects (g : graph) p o s : s ∈ subjects g p o ↔ (s, p, o) ∈ g.
Proof.
  unfold subjects. rewrite list_elem_of_omap. split.
  - intros ([[s' p'] o'] & Hin%elem_of_elements & Hsome).
    cbn [fst snd] in Hsome. destruct (decide (p' = p ∧ o' = o)) as [[-> ->]|]; [|done].
    by injection Hsome as ->.
  - intros Hin. exists (s, p, o). split; [by apply elem_of_elements|].
    cbn [fst snd]. by rewrite decide_True.
Qed.

Lemma elem_of_uri_set l x : x ∈ uri_set l ↔ is_uri x ∧ x ∈ l.
Proof. unfold uri_set. by rewrite elem_of_list_to_set, list_elem_of_filter. Qed.

Lemma elem_of_related_props (g : graph) p q :
  q ∈ related_props g p
  ↔ is_uri q ∧ ((p, OWL_inverseOf, q) ∈ g ∨ (q, OWL_inverseOf, p) ∈ g
                ∨ (p, RDFS_subPropertyOf, q) ∈ g ∨ (q, RDFS_subPropertyOf, p) ∈ g).
Proof.
  unfold related_props, inverse_props, super_props, sub_props.
  rewrite !elem_of_union, !elem_of_uri_set, !elem_of_objects, !elem_of_subjects.
  tauto.
Qed.

Lemma ball_mono_S g root n : ball g root n ⊆ ball g root (S n).
Proof. cbn [ball]. set_solver. Qed.

Lemma ball_mono g root n m : n ≤ m → ball g root n ⊆ ball g root m.
Proof.
  induction 1 as [|m _ IH]; [done|]. etrans; [exact IH | apply ball_mono_S].
Qed.

Lemma ball_step g root n p :
  p ∈ ball g root n → related_props g p ⊆ ball g root (S n).
Proof.
  intros Hp q Hq. cbn [ball]. apply elem_of_union_r, elem_of_set_bind.
  by exists p.
Qed.

Lemma inner_ball_sub g root k : inner_ball g root k ⊆ ball g root k.
Proof. destruct k; [set_solver | apply ball_mono_S]. Qed.

Lemma inner_ball_mono g root n m :
  n ≤ m → inner_ball g root n ⊆ inner_ball g root m.
Proof.
  destruct n, m; cbn [inner_ball]; try set_solver; try lia.
  intros Hle. apply ball_mono. lia.
Qed.

Lemma closure_round_cons g limit p rest seen nxt :
  closure_round g limit (p :: rest) seen nxt
  = if decide (p ∈ seen) then closure_round g limit rest seen nxt
    else
      let seen' := {[ p ]} ∪ seen in
      let nxt' := nxt ∪ filter (λ q, q ∉ seen') (related_props g p) in
      if limit <=? size seen' + size nxt' then inl (seen' ∪ nxt')
      else closure_round g limit rest seen' nxt'.
Proof. reflexivity. Qed.

Lemma closure_rounds_S g limit rounds frontier seen :
  closure_rounds g limit (S rounds) frontier seen
  = match closure_round g limit (elements frontier) seen ∅ with
    | inl found => inl found
    | inr (seen', nxt) =>
        if decide (nxt = ∅) then inr seen'
        else closure_rounds g limit rounds nxt seen'
    end.
Proof. reflexivity. Qed.

(** One round at distance [k]: what is seen stays within [k] steps, what is
    found for the next round within [k + 1]. *)
Lemma closure_round_inv g root limit k frontier seen nxt :
  (∀ p, p ∈ frontier → p ∈ ball g root k) →
  seen ⊆ ball g root k →
  nxt ⊆ ball g root (S k) →
  match closure_round g limit frontier seen nxt with
  | inl found => seen ⊆ found ∧ found ⊆ ball g root (S k)
  | inr (seen', nxt') =>
      seen ⊆ seen' ∧ seen' ⊆ ball g root k ∧ nxt' ⊆ ball g root (S k)
      ∧ ∀ p, p ∈ frontier → p ∈ seen'
  end.
Proof.
  revert seen nxt. induction frontier as [|p rest IH]; intros seen nxt Hf Hs Hn.
  - cbn [closure_round]. set_solver.
  - rewrite closure_round_cons.
    assert (Hp : p ∈ ball g root k) by (apply Hf; left).
    assert (Hrest : ∀ q, q ∈ rest → q ∈ ball g root k) by (intros q Hq; apply Hf; by right).
    destruct (decide (p ∈ seen)) as [Hin|Hnin].
    + specialize (IH seen nxt Hrest Hs Hn).
      destruct (closure_round g limit rest seen nxt) as [found|[seen' nxt']]; [done|].
      destruct IH as (H1 & H2 & H3 & H4). repeat split; try done.
      intros q [->|Hq]%elem_of_cons; [by apply H1 | by apply H4].
    + cbv zeta.
      set (seen1 := {[ p ]} ∪ seen).
      set (nxt1 := nxt ∪ filter (λ q, q ∉ seen1) (related_props g p)).
      assert (Hs1 : seen1 ⊆ ball g root k) by (subst seen1; set_solver).
      assert (Hn1 : nxt1 ⊆ ball g root (S k)).
      { subst nxt1. intros q [Hq|[_ Hq]%elem_of_filter]%elem_of_union; [by apply Hn|].
        by eapply ball_step. }
      destruct (limit <=? size seen1 + size nxt1).
      * split; [subst seen1; set_solver|].
        pose proof (ball_mono_S g root k). set_solver.
      * specialize (IH seen1 nxt1 Hrest Hs1 Hn1).
        destruct (closure_round g limit rest seen1 nxt1) as [found|[seen' nxt']].
        -- destruct IH as [H1 H2]. split; [subst seen1; set_solver | done].
        -- destruct IH as (H1 & H2 & H3 & H4). repeat split; try done.
           ++ subst seen1; set_solver.
           ++ intros q [->|Hq]%elem_of_cons; [subst seen1; set_solver | by apply H4].
Qed.

Lemma closure_rounds_inv g root limit rounds k frontier seen :
  frontier ⊆ ball g root k →
  seen ⊆ inner_ball g root k →
  match closure_rounds g limit rounds frontier seen with
  | inl found => seen ⊆ found ∧ found ⊆ ball g root (k + rounds)
  | inr seen' =>
      seen ⊆ seen' ∧ seen' ⊆ inner_ball g root (k + rounds)
      ∧ (0 < rounds → frontier ⊆ seen')
  end.
Proof.
  revert k frontier seen. induction rounds as [|rounds IH]; intros k frontier seen Hf Hs.
  - cbn [closure_rounds]. rewrite Nat.add_0_r. repeat split; [done..|lia].
  - rewrite closure_rounds_S.
    pose proof (closure_round_inv g root limit k (elements frontier) seen ∅) as Hr.
    destruct (closure_round g limit (elements frontier) seen ∅) as [found|[seen' nxt]].
    + destruct Hr as [H1 H2].
      * intros p Hp%elem_of_elements. by apply Hf.
      * etrans; [exact Hs | apply inner_ball_sub].
      * set_solver.
      * split; [done|]. etrans; [exact H2|]. apply ball_mono. lia.
    + destruct Hr as (H1 & H2 & H3 & H4).
      * intros p Hp%elem_of_elements. by apply Hf.
      * etrans; [exact Hs | apply inner_ball_sub].
      * set_solver.
      * assert (Hfs : frontier ⊆ seen').
        { intros p Hp. apply H4. by apply elem_of_elements. }
        destruct (decide (nxt = ∅)) as [_|_].
        -- repeat split; [done| |done].
           etrans; [exact H2|]. apply (inner_ball_mono g root (S k)). lia.
        -- specialize (IH (S k) nxt seen' H3 H2).
           destruct (closure_rounds g limit rounds nxt seen') as [found|seen''].
           ++ destruct IH as [I1 I2]. split; [set_solver|].
              by replace (k + S rounds) with (S k + rounds) by lia.
           ++ destruct IH as (I1 & I2 & _). repeat split; [set_solver| |set_solver].
              by replace (k + S rounds) with (S k + rounds) by lia.
Qed.

Lemma closure_round_grows g limit frontier seen nxt :
  match closure_round g limit frontier seen nxt with
  | inl found => seen ⊆ found
  | inr (seen', _) => seen ⊆ seen'
  end.
Proof.
  revert seen nxt. induction frontier as [|p rest IH]; intros seen nxt.
  - cbn [closure_round]. set_solver.
  - rewrite closure_round_cons. destruct (decide (p ∈ seen)); [apply IH|].
    cbv zeta. destruct (limit <=? _); [set_solver|].
    specialize (IH ({[ p ]} ∪ seen)
                   (nxt ∪ filter (λ q, q ∉ {[ p ]} ∪ seen) (related_props g p))).
    destruct (closure_round g limit rest _ _) as [found|[seen' nxt']]; set_solver.
Qed.

Lemma closure_round_head g limit p rest seen nxt :
  match closure_round g limit (p :: rest) seen nxt with
  | inl found => p ∈ found
  | inr (seen', _) => p ∈ seen'
  end.
Proof.
  rewrite closure_round_cons. destruct (decide (p ∈ seen)) as [Hin|_].
  - pose proof (closure_round_grows g limit rest seen nxt) as Hg.
    destruct (closure_round g limit rest seen nxt) as [found|[seen' nxt']]; set_solver.
  - cbv zeta. destruct (limit <=? _); [set_solver|].
    pose proof (closure_round_grows g limit rest ({[ p ]} ∪ seen)
                  (nxt ∪ filter (λ q, q ∉ {[ p ]} ∪ seen) (related_props g p))) as Hg.
    destruct (closure_round g limit rest _ _) as [found|[seen' nxt']]; set_solver.
Qed.

Lemma closure_rounds_grows g limit rounds frontier seen :
  seen ⊆ returned (closure_rounds g limit rounds frontier seen).
Proof.
  revert frontier seen. induction rounds as [|rounds IH]; intros frontier seen; [done|].
  rewrite closure_rounds_S.
  pose proof (closure_round_grows g limit (elements frontier) seen ∅) as Hg.
  destruct (closure_round g limit (elements frontier) seen ∅) as [found|[seen' nxt]];
    [done|].
  destruct (decide (nxt = ∅)); [done|].
  etrans; [exact Hg | apply IH].
Qed.

Lemma related_property_closure_root g root depth limit :
  root ∈ related_property_closure g root depth limit.
Proof.
  unfold related_property_closure. rewrite Nat.add_1_r, closure_rounds_S.
  rewrite elements_singleton.
  pose proof (closure_round_head g limit root [] ∅ ∅) as Hh.
  destruct (closure_round g limit [root] ∅ ∅) as [found|[seen' nxt]]; [done|].
  destruct (decide (nxt = ∅)); [done|].
  by apply (closure_rounds_grows g limit depth nxt seen').
Qed.

(** The closure holds its root and stays within [depth + 1] steps of it;
    when it is returned after the loop, within [depth] steps. *)
Lemma related_property_closure_bounds g root depth limit :
  let props := related_property_closure g root depth limit in
  root ∈ props
  ∧ props ⊆ ball g root (depth + 1)
  ∧ (∀ seen, closure_rounds g limit (depth + 1) {[ root ]} ∅ = inr seen →
             props ⊆ ball g root depth).
Proof.
  intros props. split; [apply related_property_closure_root|].
  subst props. unfold related_property_closure.
  pose proof (closure_rounds_inv g root limit (depth + 1) 0 {[ root ]} ∅) as Hr.
  destruct (closure_rounds g limit (depth + 1) {[ root ]} ∅) as [found|seen].
  - destruct Hr as [_ H2]; [cbn [ball]; set_solver | set_solver |].
    split; [exact H2 | intros seen' Heq; discriminate Heq].
  - destruct Hr as (_ & H2 & _); [cbn [ball]; set_solver | set_solver |].
    cbn [returned].
    replace (0 + (depth + 1)) with (S depth) in H2 by lia. cbn [inner_ball] in H2.
    split; [|intros _ _; exact H2].
    etrans; [exact H2|]. apply ball_mono. lia.
Qed.
Lemma omap_as_filter {A B} (P : A → Prop) `{!∀ x, Decision (P x)} (f : A → B)
    (l : list A) :
  omap (λ x, if decide (P x) then Some (f x) else None) l = f <$> filter P l.
Proof.
  induction l as [|x l IH]; [reflexivity|].
  rewrite filter_cons. cbn [omap list_omap].
  destruct (decide (P x)); [rewrite fmap_cons|]; by rewrite <- IH.
Qed.

Lemma chain_triples_NoDup (g : graph) p q :
  NoDup ((λ o, (p, q, o)) <$> objects g p q).
Proof.
  apply NoDup_fmap_2; [by intros o o' [= ->]|].
  unfold objects. rewrite (omap_as_filter (λ t : triple, t.1.1 = p ∧ t.1.2 = q) snd).
  apply NoDup_fmap_2_strong.
  - intros [[s1 p1] o1] [[s2 p2] o2] [[??] _]%list_elem_of_filter [[??] _]%list_elem_of_filter ?.
    simplify_eq/=. done.
  - apply NoDup_filter, NoDup_elements.
Qed.

Lemma removal_loop {A} (h : A → triple) (l : list A) (g : graph) (n : nat) :
  foldl (λ (a : graph * nat) (x : A), (g_remove (h x) a.1, S a.2)) (g, n) l
  = (g ∖ list_to_set (h <$> l), n + length l).
Proof.
  revert g n. induction l as [|x l IH]; intros g n.
  - cbn. f_equal; [set_solver | lia].
  - cbn [foldl fst snd]. rewrite IH. f_equal; [|cbn; lia].
    unfold g_remove. rewrite fmap_cons. set_solver.
Qed.

Lemma remove_causes_of_eq (g : graph) (n : nat) (p : node) :
  let r := remove_causes_of (g, n) p in
  r.1 = g ∖ non_simple_causes_of g {[ p ]}
  ∧ r.2 + size r.1 = n + size g.
Proof.
  intros r. subst r. unfold remove_causes_of. cbn [fst snd].
  set (tt := (p, RDF_type, OWL_TransitiveProperty)).
  set (a1 := if decide (tt ∈ g) then (g_remove tt g, S n) else (g, n)).
  assert (Ha1 : a1.1 = g ∖ (if decide (tt ∈ g) then {[ tt ]} else ∅)
                ∧ a1.2 + size a1.1 = n + size g).
  { subst a1. destruct (decide (tt ∈ g)) as [Hin|Hnin]; cbn [fst snd].
    - split; [done|]. unfold g_remove. rewrite size_difference by set_solver.
      rewrite size_singleton.
      assert (Hsz : size ({[ tt ]} : graph) ≤ size g)
        by (apply subseteq_size; set_solver).
      rewrite size_singleton in Hsz. lia.
    - split; [set_solver | done]. }
  destruct a1 as [g1 n1]. cbn [fst snd] in *. destruct Ha1 as [Hg1 Hn1].
  rewrite removal_loop. cbn [fst snd].
  set (S := list_to_set (_ <$> objects g1 p OWL_propertyChainAxiom) : graph).
  assert (HS : ∀ t, t ∈ S ↔ t ∈ g1 ∧ t.1.1 = p ∧ t.1.2 = OWL_propertyChainAxiom).
  { intros t. subst S. rewrite elem_of_list_to_set, list_elem_of_fmap.
    setoid_rewrite elem_of_objects. split.
    - intros (o & -> & Hin). done.
    - intros (Hin & <- & Hp). destruct t as [[s q] o]. cbn [fst snd] in *. subst q.
      by exists o. }
  assert (Hty : RDF_type ≠ OWL_propertyChainAxiom) by (intros Heq; inversion Heq).
  split.
  - apply set_eq. intros [[s q] o].
    rewrite !elem_of_difference, HS, Hg1, elem_of_difference.
    unfold non_simple_causes_of. rewrite elem_of_filter, elem_of_singleton.
    unfold is_non_simple_cause. cbn [fst snd].
    destruct (decide (tt ∈ g)) as [Hin|Hnin].
    + rewrite elem_of_singleton. subst tt. split.
      * intros [[Hg Hne] Hnc]. split; [exact Hg|].
        intros [[-> [[-> ->] | ->]] _]; [by apply Hne|].
        apply Hnc. split; [|done]. apply elem_of_difference. split; [exact Hg|].
        rewrite elem_of_singleton. exact Hne.
      * intros [Hg Hnc]. split; [split; [exact Hg|]|].
        -- intros Heq. injection Heq as -> -> ->. apply Hnc.
           split; [|exact Hg]. split; [reflexivity|]. by left.
        -- intros [_ [-> ->]]. apply Hnc.
           split; [|exact Hg]. split; [reflexivity|]. by right.
    + split.
      * intros [[Hg _] Hnc]. split; [exact Hg|].
        intros [[-> [[-> ->] | ->]] _]; [by apply Hnin|].
        apply Hnc. split; [|done]. apply elem_of_difference. split; [exact Hg|].
        apply not_elem_of_empty.
      * intros [Hg Hnc]. split; [split; [exact Hg|set_solver]|].
        intros [_ [-> ->]]. apply Hnc.
        split; [|exact Hg]. split; [reflexivity|]. by right.
  - assert (HSsub : S ⊆ g1) by (intros t Ht; by apply HS in Ht as [? _]).
    rewrite size_difference by exact HSsub.
    assert (size S = length (objects g1 p OWL_propertyChainAxiom)) as <-.
    { subst S. rewrite size_list_to_set, length_fmap; [done|]. apply chain_triples_NoDup. }
    pose proof (subseteq_size S g1 HSsub). lia.
Qed.
Lemma causes_of_step (g : graph) (D : gset node) (p : node) :
  (g ∖ non_simple_causes_of g D) ∖ non_simple_causes_of (g ∖ non_simple_causes_of g D) {[ p ]}
  = g ∖ non_simple_causes_of g (D ∪ {[ p ]}).
Proof.
  apply set_eq. intros t. unfold non_simple_causes_of.
  rewrite !elem_of_difference, !elem_of_filter, !elem_of_difference, !elem_of_filter,
    elem_of_union, elem_of_singleton.
  tauto.
Qed.

Lemma remove_causes_fold (g : graph) (l : list node) (D : gset node) (n : nat) :
  let r := foldl remove_causes_of (g ∖ non_simple_causes_of g D, n) l in
  r.1 = g ∖ non_simple_causes_of g (D ∪ list_to_set l)
  ∧ r.2 + size r.1 = n + size (g ∖ non_simple_causes_of g D).
Proof.
  revert D n. induction l as [|p l IH]; intros D n r; subst r.
  - cbn [foldl fst snd list_to_set]. split; [|done]. by rewrite union_empty_r_L.
  - cbn [foldl].
    pose proof (remove_causes_of_eq (g ∖ non_simple_causes_of g D) n p) as [H1 H2].
    destruct (remove_causes_of (g ∖ non_simple_causes_of g D, n) p) as [g1 n1].
    cbn [fst snd] in H1, H2. rewrite causes_of_step in H1. subst g1.
    destruct (IH (D ∪ {[ p ]}) n1) as [I1 I2]. split.
    + rewrite I1. cbn [list_to_set]. f_equal. f_equal. set_solver.
    + lia.
Qed.

Lemma causes_of_empty (g : graph) : non_simple_causes_of g ∅ = ∅.
Proof.
  apply set_eq. intros t. unfold non_simple_causes_of. rewrite elem_of_filter. set_solver.
Qed.

Lemma remove_non_simple_causes_eq (g : graph) (props : gset node) :
  (remove_non_simple_causes g props).1 = g ∖ non_simple_causes_of g props
  ∧ (remove_non_simple_causes g props).2
    = size g - size (g ∖ non_simple_causes_of g props)
  ∧ (remove_non_simple_causes g props).2 = size (non_simple_causes_of g props).
Proof.
  unfold remove_non_simple_causes.
  pose proof (remove_causes_fold g (elements props) ∅ 0) as Hf.
  rewrite causes_of_empty, difference_empty_L, union_empty_l_L,
    list_to_set_elements_L in Hf.
  cbv zeta in Hf. destruct Hf as [H1 H2]. split; [exact H1|].
  rewrite H1 in H2.
  assert (Hsub : non_simple_causes_of g props ⊆ g).
  { intros t [_ Hin]%elem_of_filter. exact Hin. }
  pose proof (size_difference g _ Hsub) as Hsz.
  pose proof (subseteq_size _ _ Hsub). split; lia.
Qed.
(** *** A wide example: the size cutoff reached in the last round *)

Lemma ex_c_inj i j : ex_c i = ex_c j → i = j.
Proof.
  unfold ex_c. intros Heq. injection Heq as Heq.
  apply (inj (String.append _)) in Heq. by apply (inj pretty) in Heq.
Qed.

Lemma ex_c_fresh i : ex_c i ≠ ex_P ∧ ex_c i ≠ ex_a ∧ ex_c i ≠ ex_b.
Proof.
  unfold ex_c, ex_P, ex_a, ex_b.
  repeat split; intros Heq; injection Heq as Heq;
    rewrite ?append_cons, ?append_empty_l in Heq; discriminate Heq.
Qed.

Lemma elem_of_wide n t :
  t ∈ ex_wide_graph n
  ↔ t = (ex_P, OWL_inverseOf, ex_a) ∨ t = (ex_a, RDFS_subPropertyOf, ex_b)
    ∨ t = (ex_c 0, RDF_type, OWL_TransitiveProperty)
    ∨ ∃ i, i < n ∧ t = (ex_b, OWL_inverseOf, ex_c i).
Proof.
  unfold ex_wide_graph.
  rewrite !elem_of_union, !elem_of_singleton, elem_of_list_to_set, list_elem_of_fmap.
  setoid_rewrite elem_of_seq. split.
  - intros [[[?|?]|?]|(i & -> & Hi)]; eauto 6. right. right. right. exists i. split; [lia|done].
  - intros [?|[?|[?|(i & Hi & ->)]]]; eauto. right. exists i. split; [done|lia].
Qed.

Lemma ex_nodes_distinct :
  OWL_inverseOf ≠ RDFS_subPropertyOf ∧ OWL_inverseOf ≠ RDF_type
  ∧ RDFS_subPropertyOf ≠ RDF_type
  ∧ ex_P ≠ ex_a ∧ ex_P ≠ ex_b ∧ ex_a ≠ ex_b.
Proof. repeat split; compute_done. Qed.

(** Case analysis on the triples of the wide graph. *)
Ltac wide_solve :=
  pose proof ex_nodes_distinct as (? & ? & ? & ? & ? & ?);
  repeat match goal with
    | H : _ ∈ ex_wide_graph _ |- _ =>
        let i := fresh "i" in
        apply elem_of_wide in H as [H|[H|[H|(i & ? & H)]]];
        [ | | | pose proof (ex_c_fresh i) as (? & ? & ?) ]
    end;
  try congruence.

Lemma wide_related_P n : related_props (ex_wide_graph n) ex_P = {[ ex_a ]}.
Proof.
  apply set_eq. intros q. rewrite elem_of_related_props, elem_of_singleton. split.
  - intros [_ [H|[H|[H|H]]]]; wide_solve.
  - intros ->. split; [done|]. left. apply elem_of_wide. by left.
Qed.

Lemma wide_related_a n : related_props (ex_wide_graph n) ex_a = {[ ex_P; ex_b ]}.
Proof.
  apply set_eq. intros q.
  rewrite elem_of_related_props, elem_of_union, !elem_of_singleton. split.
  - intros [_ [H|[H|[H|H]]]]; wide_solve.
    + left. congruence.
    + right. congruence.
  - intros [-> | ->]; (split; [done|]).
    + right. left. apply elem_of_wide. by left.
    + right. right. left. apply elem_of_wide. right. by left.
Qed.

Lemma wide_related_b n q :
  q ∈ related_props (ex_wide_graph n) ex_b ↔ q = ex_a ∨ ∃ i, i < n ∧ q = ex_c i.
Proof.
  rewrite elem_of_related_props. split.
  - intros [_ [H|[H|[H|H]]]]; wide_solve.
    + right. exists i. split; [done | congruence].
    + left. congruence.
  - intros [-> | (i & Hi & ->)]; (split; [done|]).
    + right. right. right. apply elem_of_wide. right. by left.
    + left. apply elem_of_wide. right. right. right. by exists i.
Qed.
Lemma wide_closure_cut n :
  497 ≤ n →
  ∃ found, closure_rounds (ex_wide_graph n) 500 3 {[ ex_P ]} ∅ = inl found
           ∧ ∀ i, i < n → ex_c i ∈ found.
Proof.
  intros Hn.
  (* first round: the root *)
  rewrite closure_rounds_S, elements_singleton, closure_round_cons.
  rewrite (decide_False (P := ex_P ∈ (∅ : gset node))) by set_solver.
  cbv zeta. rewrite wide_related_P.
  replace ({[ ex_P ]} ∪ ∅) with ({[ ex_P ]} : gset node) by compute_done.
  replace (∅ ∪ filter (λ q, q ∉ ({[ ex_P ]} : gset node)) ({[ ex_a ]} : gset node))
    with ({[ ex_a ]} : gset node) by compute_done.
  rewrite !size_singleton. change (500 <=? 1 + 1) with false.
  cbn [closure_round]. rewrite decide_False by compute_done.
  (* second round: its inverse *)
  rewrite closure_rounds_S, elements_singleton, closure_round_cons.
  rewrite (decide_False (P := ex_a ∈ ({[ ex_P ]} : gset node))) by compute_done.
  cbv zeta. rewrite wide_related_a.
  replace (∅ ∪ filter (λ q, q ∉ ({[ ex_a ]} ∪ {[ ex_P ]} : gset node))
                      ({[ ex_P; ex_b ]} : gset node))
    with ({[ ex_b ]} : gset node) by compute_done.
  replace (size ({[ ex_a ]} ∪ {[ ex_P ]} : gset node)) with 2 by compute_done.
  rewrite size_singleton. change (500 <=? 2 + 1) with false.
  cbn [closure_round]. rewrite decide_False by compute_done.
  (* third round: the wide property *)
  rewrite closure_rounds_S, elements_singleton, closure_round_cons.
  rewrite (decide_False (P := ex_b ∈ ({[ ex_a ]} ∪ {[ ex_P ]} : gset node)))
    by compute_done.
  cbv zeta.
  set (seen3 := ({[ ex_b ]} ∪ ({[ ex_a ]} ∪ {[ ex_P ]}) : gset node)).
  set (nxt3 := ∅ ∪ filter (λ q, q ∉ seen3) (related_props (ex_wide_graph n) ex_b)).
  assert (Hc : ∀ i, i < n → ex_c i ∈ nxt3).
  { intros i Hi. subst nxt3. apply elem_of_union_r, elem_of_filter. split.
    - destruct (ex_c_fresh i) as (? & ? & ?). subst seen3. set_solver.
    - apply wide_related_b. right. by exists i. }
  assert (Hsz : n ≤ size nxt3).
  { assert (Hsub : (list_to_set (ex_c <$> seq 0 n) : gset node) ⊆ nxt3).
    { intros x (i & -> & Hi%elem_of_seq)%elem_of_list_to_set%list_elem_of_fmap.
      apply Hc. lia. }
    apply subseteq_size in Hsub. rewrite size_list_to_set, length_fmap, length_seq in Hsub.
    - exact Hsub.
    - apply NoDup_fmap_2_strong; [|apply NoDup_seq].
      intros i j _ _. apply ex_c_inj. }
  assert (Hs3 : size seen3 = 3) by (subst seen3; compute_done).
  rewrite (leb_correct 500 (size seen3 + size nxt3)) by lia.
  eexists. split; [reflexivity|]. intros i Hi. apply elem_of_union_r. by apply Hc.
Qed.

Lemma wide_ball_1 n x : x ∈ ball (ex_wide_graph n) ex_P 1 → x = ex_P ∨ x = ex_a.
Proof.
  cbn [ball]. intros [->%elem_of_singleton | (p & ->%elem_of_singleton & Hx)%elem_of_set_bind]%elem_of_union.
  - by left.
  - right. rewrite wide_related_P in Hx. by apply elem_of_singleton in Hx.
Qed.

Lemma wide_ball_2 n x :
  x ∈ ball (ex_wide_graph n) ex_P 2 → x = ex_P ∨ x = ex_a ∨ x = ex_b.
Proof.
  change (ball (ex_wide_graph n) ex_P 2)
    with (ball (ex_wide_graph n) ex_P 1
          ∪ set_bind (related_props (ex_wide_graph n)) (ball (ex_wide_graph n) ex_P 1)).
  intros [Hx | (p & Hp & Hx)%elem_of_set_bind]%elem_of_union.
  - apply wide_ball_1 in Hx as [->| ->]; auto.
  - apply wide_ball_1 in Hp as [->| ->].
    + rewrite wide_related_P in Hx. apply elem_of_singleton in Hx. auto.
    + rewrite wide_related_a in Hx.
      apply elem_of_union in Hx as [->%elem_of_singleton | ->%elem_of_singleton]; auto.
Qed.
(** C4. The resolver reaches beyond the closure of depth 2. [ex:P] has the
    inverse [ex:a], a subproperty of [ex:b], and [ex:b] has 500 inverses
    [ex:c0] ... [ex:c499], the first of them typed transitive. The third
    round of [related_property_closure] reaches the size cutoff and returns
    the pending inverses of [ex:b] together with what it has seen: [ex:c0],
    three steps from [ex:P] and so outside the closure of depth 2, loses
    its transitive-type triple. *)
Lemma non_simple_fix_beyond_depth_2 :
  ex_c 0 ∉ ball (ex_wide_graph 500) ex_P 2
  ∧ (ex_c 0, RDF_type, OWL_TransitiveProperty) ∈ ex_wide_graph 500
  ∧ (ex_c 0, RDF_type, OWL_TransitiveProperty)
      ∉ (deterministic_fix_non_simple (ex_wide_graph 500) ex_issue).1.
Proof.
  assert (Hin : (ex_c 0, RDF_type, OWL_TransitiveProperty) ∈ ex_wide_graph 500).
  { apply elem_of_wide. right. right. left. reflexivity. }
  split; [|split; [exact Hin|]].
  - intros Hb%wide_ball_2. destruct (ex_c_fresh 0) as (H1 & H2 & H3).
    destruct Hb as [Hb|[Hb|Hb]]; [exact (H1 Hb) | exact (H2 Hb) | exact (H3 Hb)].
  - unfold deterministic_fix_non_simple.
    rewrite (proj1 (remove_non_simple_causes_eq _ _)).
    intros [_ Hnot]%elem_of_difference. apply Hnot, elem_of_filter.
    split; [|exact Hin]. split; [|left; split; reflexivity].
    change (ex_c 0 ∈ returned (closure_rounds (ex_wide_graph 500) 500 3 {[ ex_P ]} ∅)).
    destruct (wide_closure_cut 500) as (found & Hfound & Hc); [lia|].
    rewrite Hfound. apply Hc. lia.
Qed.

(** ** The HermiT loop *)

Lemma causes_after_fix (g : graph) (issue : HermitIssue) :
  let r := deterministic_fix_non_simple g issue in
  non_simple_causes r.1 ⊆ non_simple_causes g
  ∧ size (non_simple_causes r.1) + r.2 = size (non_simple_causes g).
Proof.
  intros r. subst r. unfold deterministic_fix_non_simple.
  set (props := related_property_closure g _ 2 500).
  destruct (remove_non_simple_causes_eq g props) as (Hg & _ & Hn).
  rewrite Hg, Hn.
  assert (Heq : non_simple_causes (g ∖ non_simple_causes_of g props)
                = non_simple_causes g ∖ non_simple_causes_of g props).
  { apply set_eq. intros t. unfold non_simple_causes.
    rewrite elem_of_filter, !elem_of_difference, elem_of_filter. tauto. }
  assert (Hsub : non_simple_causes_of g props ⊆ non_simple_causes g).
  { intros t [[_ Hc] Hin]%elem_of_filter. by apply elem_of_filter. }
  rewrite Heq. split; [set_solver|].
  rewrite size_difference by exact Hsub.
  pose proof (subseteq_size _ _ Hsub). lia.
Qed.

Lemma fix_strictly_decreases (g : graph) (issue : HermitIssue) :
  0 < (deterministic_fix_non_simple g issue).2 →
  non_simple_causes (deterministic_fix_non_simple g issue).1 ⊂ non_simple_causes g.
Proof.
  intros Hpos. destruct (causes_after_fix g issue) as [Hsub Hsz].
  split; [exact Hsub|]. intros Hback. apply subseteq_size in Hback. lia.
Qed.

Section OrchestratorProofs.

Variable hermit : graph → option (Z * string * string).

Lemma hermit_loop_S loops g :
  hermit_loop hermit (S loops) g
  = match hermit g with
    | None => Raise (LibraryError "TimeoutExpired")
    | Some (rc, out, err) =>
        match run_hermit_verdict out err with
        | Some true =>
            Ok {| final_graph := g; hermit_runs := 1; exit_by := BreakSatisfiable |}
        | Some false =>
            Ok {| final_graph := g; hermit_runs := 1; exit_by := BreakInconsistent |}
        | None =>
            match classify_non_simple_issue (err +:+ Py.newline +:+ out) with
            | None =>
                Ok {| final_graph := g; hermit_runs := 1; exit_by := BreakNoPattern |}
            | Some issue =>
                if (deterministic_fix_non_simple g issue).2 <=? 0
                then Ok {| final_graph := (deterministic_fix_non_simple g issue).1;
                           hermit_runs := 1; exit_by := BreakNoProgress |}
                else
                  match hermit_loop hermit loops (deterministic_fix_non_simple g issue).1 with
                  | Ok o => Ok {| final_graph := final_graph o;
                                  hermit_runs := S (hermit_runs o);
                                  exit_by := exit_by o |}
                  | Raise e => Raise e
                  end
            end
        end
    end.
Proof.
  cbn [hermit_loop]. unfold run_hermit.
  destruct (hermit g) as [[[rc out] err]|]; [|reflexivity].
  cbn [rbind]. destruct (run_hermit_verdict out err) as [[|]|]; [reflexivity..|].
  destruct (classify_non_simple_issue _) as [issue|]; [|reflexivity].
  destruct (deterministic_fix_non_simple g issue) as [g' n]. cbn [fst snd].
  destruct (n <=? 0); reflexivity.
Qed.

Lemma hermit_loop_bounds loops g o :
  hermit_loop hermit loops g = Ok o →
  hermit_runs o ≤ loops
  ∧ hermit_runs o ≤ S (size (non_simple_causes g))
  ∧ (exit_by o = RangeExhausted →
     hermit_runs o = loops ∧ loops ≤ size (non_simple_causes g))
  ∧ non_simple_causes (final_graph o) ⊆ non_simple_causes g.
Proof.
  revert g o. induction loops as [|loops IH]; intros g o.
  - cbn [hermit_loop]. intros [= <-]. cbn [hermit_runs exit_by final_graph].
    split; [lia|split; [lia|split; [intros _; split; lia | done]]].
  - rewrite hermit_loop_S.
    destruct (hermit g) as [[[rc out] err]|]; [|discriminate].
    destruct (run_hermit_verdict out err) as [[|]|].
    + intros [= <-]. cbn [hermit_runs exit_by final_graph].
           split; [lia|split; [lia|split; [discriminate | done]]].
    + intros [= <-]. cbn [hermit_runs exit_by final_graph].
           split; [lia|split; [lia|split; [discriminate | done]]].
    + destruct (classify_non_simple_issue _) as [issue|].
      * pose proof (causes_after_fix g issue) as [Hsub Hsz]. cbv zeta in Hsub, Hsz.
        destruct ((deterministic_fix_non_simple g issue).2 <=? 0) eqn:Hn.
        -- intros [= <-]. cbn [hermit_runs exit_by final_graph].
           split; [lia|split; [lia|split; [discriminate | done]]].
        -- apply Nat.leb_gt in Hn.
           destruct (hermit_loop hermit loops _) as [o'|e] eqn:Hrec; [|discriminate].
           intros [= <-]. cbn [hermit_runs exit_by final_graph].
           destruct (IH _ _ Hrec) as (I1 & I2 & I3 & I4).
           split; [lia|split; [lia|split; [|set_solver]]].
           intros Hx. destruct (I3 Hx). split; lia.
      * intros [= <-]. cbn [hermit_runs exit_by final_graph].
           split; [lia|split; [lia|split; [discriminate | done]]].
Qed.

Lemma hermit_loop_cap_free l1 l2 g :
  size (non_simple_causes g) < l1 → l1 ≤ l2 →
  hermit_loop hermit l2 g = hermit_loop hermit l1 g.
Proof.
  revert l2 g. induction l1 as [|l1 IH]; intros l2 g Hsz Hle; [lia|].
  destruct l2 as [|l2]; [lia|]. rewrite !hermit_loop_S.
  destruct (hermit g) as [[[rc out] err]|]; [|reflexivity].
  destruct (run_hermit_verdict out err) as [[|]|]; [reflexivity..|].
  destruct (classify_non_simple_issue _) as [issue|]; [|reflexivity].
  pose proof (causes_after_fix g issue) as [_ Hdec]. cbv zeta in Hdec.
  destruct ((deterministic_fix_non_simple g issue).2 <=? 0) eqn:Hn; [reflexivity|].
  apply Nat.leb_gt in Hn. rewrite (IH l2); [reflexivity | lia | lia].
Qed.

End OrchestratorProofs.

(** C5. With any HermiT, the loop runs HermiT at most [max_loops] times
    (30 by default); an iteration whose verdict is satisfiable or
    inconsistent, whose output matches neither pattern, or whose resolver
    removes nothing is the last one; a productive iteration (the resolver
    removed something) leaves strictly fewer non-simple causes; so HermiT
    runs at most once more than there are causes, the range is exhausted
    only when the cap is at most their number, and every cap above their
    number gives the same outcome. *)
Theorem hermit_loop_terminates (hermit : graph → option (Z * string * string))
    (g : graph) :
  HERMIT_MAX_LOOPS = 30
  ∧ (∀ max_loops o,
       hermit_loop hermit max_loops g = Ok o →
       hermit_runs o ≤ max_loops
       ∧ hermit_runs o ≤ S (size (non_simple_causes g))
       ∧ (exit_by o = RangeExhausted →
          hermit_runs o = max_loops ∧ max_loops ≤ size (non_simple_causes g)))
  ∧ (∀ g0 imports max_loops o,
       run_deterministic_pipeline hermit g0 imports max_loops = Ok o →
       hermit_runs o ≤ max_loops)
  ∧ (∀ loops rc out err,
       hermit g = Some (rc, out, err) →
       (run_hermit_verdict out err = Some true →
        hermit_loop hermit (S loops) g
        = Ok {| final_graph := g; hermit_runs := 1; exit_by := BreakSatisfiable |})
       ∧ (run_hermit_verdict out err = Some false →
          hermit_loop hermit (S loops) g
          = Ok {| final_graph := g; hermit_runs := 1; exit_by := BreakInconsistent |})
       ∧ (run_hermit_verdict out err = None →
          classify_non_simple_issue (err +:+ Py.newline +:+ out) = None →
          hermit_loop hermit (S loops) g
          = Ok {| final_graph := g; hermit_runs := 1; exit_by := BreakNoPattern |})
       ∧ (∀ issue,
            run_hermit_verdict out err = None →
            classify_non_simple_issue (err +:+ Py.newline +:+ out) = Some issue →
            (deterministic_fix_non_simple g issue).2 = 0 →
            hermit_loop hermit (S loops) g
            = Ok {| final_graph := (deterministic_fix_non_simple g issue).1;
                    hermit_runs := 1; exit_by := BreakNoProgress |}))
  ∧ (∀ issue,
       0 < (deterministic_fix_non_simple g issue).2 →
       non_simple_causes (deterministic_fix_non_simple g issue).1
         ⊂ non_simple_causes g)
  ∧ (∀ l1 l2,
       size (non_simple_causes g) < l1 → l1 ≤ l2 →
       hermit_loop hermit l2 g = hermit_loop hermit l1 g).
Proof.
  split; [reflexivity|]. split; [|split; [|split; [|split]]].
  - intros max_loops o Hrun.
    destruct (hermit_loop_bounds hermit max_loops g o Hrun) as (H1 & H2 & H3 & _).
    auto.
  - intros g0 imports max_loops o Hrun. unfold run_deterministic_pipeline in Hrun.
    by destruct (hermit_loop_bounds hermit _ _ o Hrun) as (H1 & _).
  - intros loops rc out err Hh. rewrite hermit_loop_S, Hh.
    split; [|split; [|split]].
    + by intros ->.
    + by intros ->.
    + by intros -> ->.
    + intros issue -> -> Hz. by rewrite Hz.
  - apply fix_strictly_decreases.
  - intros l1 l2. apply hermit_loop_cap_free.
Qed.

(** A HermiT that keeps reporting [ex:P]: the first iteration removes its
    transitive-type triple, the second removes nothing and stops the loop. *)
Example hermit_loop_no_progress :
  ∃ o, hermit_loop ex_hermit_non_simple HERMIT_MAX_LOOPS ex_transitive_graph = Ok o
       ∧ hermit_runs o = 2 ∧ exit_by o = BreakNoProgress
       ∧ final_graph o = {[ (ex_P, OWL_inverseOf, ex_a) ]}.
Proof.
  assert (Hc : Is_true
    match hermit_loop ex_hermit_non_simple HERMIT_MAX_LOOPS ex_transitive_graph with
    | Ok o => bool_decide (hermit_runs o = 2 ∧ exit_by o = BreakNoProgress
                           ∧ final_graph o = {[ (ex_P, OWL_inverseOf, ex_a) ]})
    | Raise _ => false
    end) by (vm_compute; exact I).
  destruct (hermit_loop ex_hermit_non_simple HERMIT_MAX_LOOPS ex_transitive_graph)
    as [o|e]; [|destruct Hc].
  exists o. split; [reflexivity|]. apply bool_decide_unpack in Hc. exact Hc.
Qed.

(** ** Seeds and targets *)

Lemma elem_of_http_uris (iris : gset string) x :
  x ∈ http_uris iris ↔ ∃ u, x = URIRef u ∧ u ∈ iris ∧ is_http u.
Proof.
  unfold http_uris. rewrite elem_of_list_to_set, list_elem_of_fmap.
  setoid_rewrite list_elem_of_filter. setoid_rewrite elem_of_elements.
  naive_solver.
Qed.

Lemma http_uris_dropped (iris extra : gset string) :
  (∀ u, u ∈ extra → is_http u = false) →
  http_uris (iris ∪ extra) = http_uris iris.
Proof.
  intros Hextra. apply set_eq. intros x. rewrite !elem_of_http_uris. split.
  - intros (u & -> & [Hu|Hu]%elem_of_union & Hh); [by exists u|].
    rewrite (Hextra u Hu) in Hh. destruct Hh.
  - intros (u & -> & Hu & Hh). exists u. split; [done|]. split; [set_solver|done].
Qed.

Lemma http_uris_none (extra : gset string) :
  (∀ u, u ∈ extra → is_http u = false) → http_uris extra = ∅.
Proof.
  intros Hextra. apply set_eq. intros x. rewrite elem_of_http_uris. split.
  - intros (u & -> & Hu & Hh). rewrite (Hextra u Hu) in Hh. destruct Hh.
  - intros []%not_elem_of_empty.
Qed.

Lemma anchor_no_seed (l : list triple) (acc : graph * gset node) :
  foldl (anchor_step ∅) acc l = acc.
Proof.
  revert acc. induction l as [|[[s p] o] l IH]; intros acc; [done|].
  cbn [foldl]. unfold anchor_step at 2.
  rewrite decide_False by set_solver. apply IH.
Qed.

Lemma expand_no_frontier g rounds out seen :
  expand_bnodes g rounds out ∅ seen = out.
Proof.
  revert out seen. induction rounds as [|rounds IH]; intros out seen; [done|].
  cbn [expand_bnodes]. rewrite elements_empty. cbn [foldl sl_out sl_new_frontier sl_seen].
  apply IH.
Qed.

Lemma slice_graph_no_seed g (iris : gset string) depth schema :
  http_uris iris = ∅ → slice_graph g iris depth schema = ∅.
Proof.
  intros He. unfold slice_graph. rewrite He, anchor_no_seed.
  rewrite expand_no_frontier. destruct schema; [|done].
  unfold add_schema. by rewrite elements_empty.
Qed.

Lemma collect_hits_no_target max_triples ts hits :
  collect_hits ∅ max_triples ts hits = hits.
Proof.
  revert hits. induction ts as [|t ts IH]; intros hits; [done|].
  cbn [collect_hits]. rewrite decide_False by set_solver. apply IH.
Qed.

(** C10. Seeds and targets are the identifiers that start with [http://]
    or [https://], as IRI nodes; identifiers without such a start change
    neither the seeds, nor the slice, nor the evidence; and when no
    identifier has such a start, the seed set is empty, the slice is the
    empty graph and the evidence is the empty text. *)
Theorem non_http_identifiers_dropped (g : graph) (iris extra : gset string)
    (depth : nat) (schema : bool) (fs : files) (path : string) (max_triples : nat) :
  (∀ u, u ∈ extra → is_http u = false) →
  (∀ x, x ∈ http_uris (iris ∪ extra) ↔ ∃ u, x = URIRef u ∧ u ∈ iris ∧ is_http u)
  ∧ slice_graph g (iris ∪ extra) depth schema = slice_graph g iris depth schema
  ∧ build_targeted_evidence fs path (iris ∪ extra) max_triples
    = build_targeted_evidence fs path iris max_triples
  ∧ http_uris extra = ∅
  ∧ slice_graph g extra depth schema = ∅
  ∧ (∀ g0, load_turtle_graph fs path = Ok g0 →
           build_targeted_evidence fs path extra max_triples = Ok EmptyString).
Proof.
  intros Hextra.
  pose proof (http_uris_dropped iris extra Hextra) as Hd.
  pose proof (http_uris_none extra Hextra) as Hn.
  split; [|split; [|split; [|split; [|split]]]].
  - intros x. rewrite Hd. apply elem_of_http_uris.
  - unfold slice_graph. by rewrite Hd.
  - unfold build_targeted_evidence. by rewrite Hd.
  - exact Hn.
  - by apply slice_graph_no_seed.
  - intros g0 Hload. unfold build_targeted_evidence. rewrite Hload, Hn.
    cbn [rbind]. by rewrite collect_hits_no_target.
Qed.

Lemma non_http_identifiers_dropped_witness :
  slice_graph ex_transitive_graph ex_non_http 2 true = ∅.
Proof.
  refine (proj1 (proj2 (proj2 (proj2 (proj2
    (non_http_identifiers_dropped ex_transitive_graph ∅ ex_non_http 2 true ∅
       EmptyString 1200 _)))))).
  intros u Hu. unfold ex_non_http in Hu.
  repeat (apply elem_of_union in Hu as [Hu|Hu]);
    apply elem_of_singleton in Hu; subst u; reflexivity.
Defined.

(** ** Patches *)

Lemma json_is_str_spec x s : json_is_str x s = true ↔ x = JString s.
Proof.
  destruct x; cbn [json_is_str]; try (split; [discriminate | intros [=]]).
  rewrite bool_decide_eq_true. split; [by intros -> | by intros [= ->]].
Qed.

Lemma check_spo_ok prefix t :
  check_spo prefix t = Ok () ↔ "s" ∈ t.*1 ∧ "p" ∈ t.*1 ∧ "o" ∈ t.*1.
Proof.
  unfold check_spo, dict_has.
  repeat case_bool_decide; cbn [negb]; split; try discriminate; try tauto; done.
Qed.

Lemma check_spo_object prefix t :
  match t with
  | JObject m => check_spo prefix m = Ok ()
  | _ => False
  end ↔ has_spo t.
Proof.
  unfold has_spo. destruct t as [| | | | | |m].
  1-6: split; [intros [] | intros (m & Heq & _); discriminate Heq].
  rewrite check_spo_ok. split.
  - intros H. by exists m.
  - by intros (m' & [= <-] & H).
Qed.

Lemma validate_patch_shape (patch : json) :
  validate_patch_one_op patch = Ok () ↔ well_formed_patch patch.
Proof.
  split.
  - destruct patch as [| | | | | |pm]; try discriminate. cbn [validate_patch_one_op].
    destruct (dict_get "operations" pm) as [| | | | |ops|] eqn:Hops; try discriminate.
    destruct ops as [|op [|op2 ops]]; try discriminate.
    destruct op as [| | | | | |om]; try discriminate.
    cbv zeta. intros Hv. exists pm, om. split; [reflexivity|]. split; [exact Hops|].
    destruct (json_is_str (dict_get "op" om) "delete_triple") eqn:Hdel;
      [|destruct (json_is_str (dict_get "op" om) "add_triple") eqn:Hadd;
        [|destruct (json_is_str (dict_get "op" om) "replace_triple") eqn:Hrep]];
      cbn [orb negb] in Hv; try discriminate Hv.
    + apply json_is_str_spec in Hdel. left. split; [by left|].
      apply (check_spo_object "Triple missing key: ").
      destruct (dict_get "triple" om); try discriminate Hv.
      cbn [rbind] in Hv. by destruct (check_spo _ _) as [[]|].
    + apply json_is_str_spec in Hadd. left. split; [by right|].
      apply (check_spo_object "Triple missing key: ").
      destruct (dict_get "triple" om); try discriminate Hv.
      cbn [rbind] in Hv. by destruct (check_spo _ _) as [[]|].
    + apply json_is_str_spec in Hrep. right. split; [done|].
      cbn [rbind] in Hv.
      destruct (dict_get "old" om) as [| | | | | |oldt]; try discriminate Hv;
        destruct (dict_get "new" om) as [| | | | | |newt]; try discriminate Hv.
      destruct (check_spo "old triple missing key: " oldt) as [[]|] eqn:Ho;
        [|discriminate Hv].
      cbn [rbind] in Hv. split.
      * by apply (check_spo_object "old triple missing key: " (JObject oldt)).
      * by apply (check_spo_object "new triple missing key: " (JObject newt)).
  - intros (pm & om & -> & Hops & Hshape). cbn [validate_patch_one_op].
    rewrite Hops. cbv zeta.
    destruct Hshape as [[Hop (t & Ht & Hspo)] | (Hop & (o & Ho & Hospo) & (n & Hn & Hnspo))].
    + rewrite Ht.
      assert (Hc : check_spo "Triple missing key: " t = Ok ()) by by apply check_spo_ok.
      destruct Hop as [-> | ->]; cbn; by rewrite Hc.
    + rewrite Hop, Ho, Hn. cbn.
      assert (Hc1 : check_spo "old triple missing key: " o = Ok ()) by by apply check_spo_ok.
      assert (Hc2 : check_spo "new triple missing key: " n = Ok ()) by by apply check_spo_ok.
      by rewrite Hc1, Hc2.
Qed.

Section PatchProofs.

Variable rdflib_Literal_of : json → result node.

Lemma apply_patch_raise_keeps_files in_ttl out_ttl patch fs e fs' :
  apply_patch_to_ttl rdflib_Literal_of in_ttl out_ttl patch fs = (Raise e, fs') →
  fs' = fs.
Proof.
  unfold apply_patch_to_ttl.
  destruct (validate_patch_one_op patch); [|by intros [= _ <-]].
  destruct (load_turtle_graph fs in_ttl); [|by intros [= _ <-]].
  destruct (apply_op _ _ _); [discriminate | by intros [= _ <-]].
Qed.

(** C2. Validation accepts exactly the patches of the stated shape. A
    patch of any other shape is rejected with the error of the validation,
    before the input snapshot is read, and the files are as they were: no
    snapshot is written. Whenever applying a patch raises, also later, the
    files are as they were; when it succeeds the patch has the stated shape
    and the only change is the output snapshot. *)
Theorem patch_validated_before_mutation (in_ttl out_ttl : string) (patch : json)
    (fs : files) :
  (validate_patch_one_op patch = Ok () ↔ well_formed_patch patch)
  ∧ (¬ well_formed_patch patch →
     ∃ e, validate_patch_one_op patch = Raise e
          ∧ apply_patch_to_ttl rdflib_Literal_of in_ttl out_ttl patch fs
            = (Raise e, fs))
  ∧ (∀ e fs',
       apply_patch_to_ttl rdflib_Literal_of in_ttl out_ttl patch fs = (Raise e, fs') →
       fs' = fs)
  ∧ (∀ fs',
       apply_patch_to_ttl rdflib_Literal_of in_ttl out_ttl patch fs = (Ok (), fs') →
       well_formed_patch patch
       ∧ ∃ g', fs' = <[ out_ttl := TurtleFile g' ]> fs).
Proof.
  split; [apply validate_patch_shape|]. split; [|split].
  - intros Hnot. unfold apply_patch_to_ttl.
    destruct (validate_patch_one_op patch) as [[]|e] eqn:Hv.
    + destruct Hnot. by apply validate_patch_shape.
    + by exists e.
  - intros e fs'. apply apply_patch_raise_keeps_files.
  - intros fs'. unfold apply_patch_to_ttl.
    destruct (validate_patch_one_op patch) as [[]|e] eqn:Hv; [|discriminate].
    destruct (load_turtle_graph fs in_ttl); [|discriminate].
    destruct (apply_op _ _ _) as [g'|]; [|discriminate].
    intros [= <-]. split; [by apply validate_patch_shape|]. by exists g'.
Qed.


End PatchProofs.

(** Strings that are IRIs of other schemes, or relative, or upper case. *)
Example to_node_other_schemes :
  _to_node ex_rdflib_Literal_of (JString "urn:isbn:0451450523")
  = Ok (Literal "urn:isbn:0451450523" None None)
  ∧ _to_node ex_rdflib_Literal_of (JString "file:///tmp/p.owl")
    = Ok (Literal "file:///tmp/p.owl" None None)
  ∧ _to_node ex_rdflib_Literal_of (JString "../p#Q") = Ok (Literal "../p#Q" None None)
  ∧ _to_node ex_rdflib_Literal_of (JString "HTTP://EXAMPLE.ORG/P")
    = Ok (Literal "HTTP://EXAMPLE.ORG/P" None None)
  ∧ _to_node ex_rdflib_Literal_of (JString "_:b0") = Ok (BNode "b0")
  ∧ _to_node ex_rdflib_Literal_of (JString "https://example.org/P")
    = Ok (URIRef "https://example.org/P")
  ∧ _to_node ex_rdflib_Literal_of (JInt 7) = Raise (ValueError "Unsupported node").
Proof. repeat split; reflexivity. Qed.

(** A patch with two operations is rejected and the files stay. *)
Lemma patch_two_ops_rejected :
  ∃ e, apply_patch_to_ttl ex_rdflib_Literal_of "in.ttl" "out.ttl" ex_patch_two_ops ex_files
       = (Raise e, ex_files).
Proof.
  destruct (proj1 (proj2 (patch_validated_before_mutation ex_rdflib_Literal_of
              "in.ttl" "out.ttl" ex_patch_two_ops ex_files))) as (e & _ & He).
  - intros Hwf%validate_patch_shape. vm_compute in Hwf. discriminate Hwf.
  - exists e. exact He.
Defined.

(** ** The reply parser *)

Lemma re_upto_last_none c s : has_char c s = false → re_upto_last c s = None.
Proof.
  induction s as [|a s IH]; [done|]. cbn [has_char re_upto_last].
  intros [Ha Hs]%orb_false_iff. rewrite (IH Hs).
  apply bool_decide_eq_false in Ha. by rewrite decide_False.
Qed.

Lemma re_upto_last_some c mid post :
  has_char c post = false →
  re_upto_last c (mid +:+ String c post) = Some (mid +:+ String c EmptyString).
Proof.
  intros Hpost. induction mid as [|a mid IH].
  - rewrite !append_empty_l. cbn [re_upto_last].
    rewrite (re_upto_last_none c post Hpost). by rewrite decide_True.
  - rewrite !append_cons. cbn [re_upto_last]. by rewrite IH.
Qed.

Lemma re_upto_last_inv c s m :
  re_upto_last c s = Some m →
  ∃ mid post, s = mid +:+ String c post ∧ m = mid +:+ String c EmptyString
              ∧ has_char c post = false.
Proof.
  revert m. induction s as [|a s IH]; intros m; [done|]. cbn [re_upto_last].
  destruct (re_upto_last c s) as [r|] eqn:Hr.
  - intros [= <-]. destruct (IH r eq_refl) as (mid & post & -> & -> & Hp).
    by exists (String a mid), post.
  - destruct (decide (a = c)) as [->|]; [|done]. intros [= <-].
    exists EmptyString, s. repeat split.
    clear IH. induction s as [|b s IHs]; [done|]. cbn [re_upto_last] in Hr.
    destruct (re_upto_last c s); [done|]. destruct (decide (b = c)); [done|].
    cbn [has_char]. rewrite bool_decide_eq_false_2 by done. by apply IHs.
Qed.

(** What the pattern finds: the text from the first opening brace to the
    last closing brace after it. *)
Lemma JSON_OBJ_RE_search_spec text m :
  JSON_OBJ_RE_search text = Some m
  ↔ ∃ pre mid post,
      text = pre +:+ String "{" (mid +:+ String "}" post)
      ∧ m = String "{" (mid +:+ String "}" EmptyString)
      ∧ has_char "{" pre = false ∧ has_char "}" post = false.
Proof.
  split.
  - revert m. induction text as [|a text IH]; intros m; [done|].
    cbn [JSON_OBJ_RE_search]. destruct (decide (a = "{"%char)) as [->|Hne].
    + destruct (re_upto_last "}" text) as [r|] eqn:Hr; [|done].
      intros [= <-]. destruct (re_upto_last_inv _ _ _ Hr) as (mid & post & -> & -> & Hp).
      by exists EmptyString, mid, post.
    + intros Hm. destruct (IH m Hm) as (pre & mid & post & -> & -> & Hpre & Hpost).
      exists (String a pre), mid, post. repeat split; [|done].
      cbn [has_char]. by rewrite bool_decide_eq_false_2.
  - intros (pre & mid & post & -> & -> & Hpre & Hpost).
    induction pre as [|a pre IH].
    + rewrite append_empty_l. cbn [JSON_OBJ_RE_search]. rewrite decide_True by done.
      by rewrite re_upto_last_some.
    + cbn [has_char] in Hpre. apply orb_false_iff in Hpre as [Ha Hpre].
      apply bool_decide_eq_false in Ha.
      rewrite append_cons. cbn [JSON_OBJ_RE_search]. rewrite decide_False by done.
      by apply IH.
Qed.

Section ParserProofs.

Variable json_loads : string → option json.
Variable send_prompt : string → string → string → option string.

(** C8, amended. The whole stripped reply is parsed first, and its value
    returned. When that fails, the text from the first opening brace to
    the last closing brace after it is parsed, and its value returned; when
    that fails too, or when there is no such text, [ValueError] is raised.
    A failed request raises [RuntimeError]. A value is returned only as the
    result of one of the two parses. *)
Theorem reply_parsed_or_raised (prompt step_name : string) :
  let r := openrouter_chat_json json_loads send_prompt prompt step_name in
  (send_prompt prompt persona step_name = None → ∃ msg, r = Raise (RuntimeError msg))
  ∧ (∀ text,
       send_prompt prompt persona step_name = Some text →
       (∀ v, json_loads (Py.strip text) = Some v → r = Ok v)
       ∧ (json_loads (Py.strip text) = None →
          (∀ pre mid post,
              Py.strip text = pre +:+ String "{" (mid +:+ String "}" post) →
              has_char "{" pre = false → has_char "}" post = false →
              match json_loads (String "{" (mid +:+ String "}" EmptyString)) with
              | Some v => r = Ok v
              | None => ∃ msg, r = Raise (ValueError msg)
              end)
          ∧ (JSON_OBJ_RE_search (Py.strip text) = None →
             ∃ msg, r = Raise (ValueError msg)))
       ∧ (∀ v, r = Ok v →
            json_loads (Py.strip text) = Some v
            ∨ ∃ m, JSON_OBJ_RE_search (Py.strip text) = Some m ∧ json_loads m = Some v)).
Proof.
  intros r. subst r. unfold openrouter_chat_json. split.
  - intros ->. by eexists.
  - intros text ->. cbv zeta. split; [|split].
    + by intros v ->.
    + intros ->. split.
      * intros pre mid post Htext Hpre Hpost.
        assert (Hs : JSON_OBJ_RE_search (Py.strip text)
                     = Some (String "{" (mid +:+ String "}" EmptyString))).
        { apply JSON_OBJ_RE_search_spec. by exists pre, mid, post. }
        rewrite Hs. destruct (json_loads _); [done | by eexists].
      * intros ->. by eexists.
    + intros v. destruct (json_loads (Py.strip text)) as [v'|]; [intros [= ->]; by left|].
      destruct (JSON_OBJ_RE_search (Py.strip text)) as [m|]; [|done].
      destruct (json_loads m) as [v'|] eqn:Hm; [|done].
      intros [= ->]. right. by exists m.
Qed.

End ParserProofs.

(** C8, counterexample. The reply holds two objects. Its first
    brace-delimited object is [{}], which parses; the parser tries the text
    from the first opening to the last closing brace, which does not, and
    raises. *)
Lemma reply_with_two_objects_raises :
  first_brace_object ("{}" +:+ Py.newline +:+ Py.newline +:+ "{}") = Some "{}"
  ∧ ex_json_loads "{}" = Some (JObject [])
  ∧ JSON_OBJ_RE_search ("{}" +:+ Py.newline +:+ Py.newline +:+ "{}")
    = Some ("{}" +:+ Py.newline +:+ Py.newline +:+ "{}")
  ∧ openrouter_chat_json ex_json_loads ex_send_prompt "prompt" "patch_001"
    = Raise (ValueError "Model output wasn't valid JSON even after extraction.").
Proof. repeat split; reflexivity. Qed.

(** ** The patch loop *)

Section LoopProofs.

Variable json_loads : string → option json.
Variable send_prompt : string → string → string → option string.
Variable rdflib_Literal_of : json → result node.
Variable robot_reason : files → string → Z * string * string.
Variable robot_explain : files → string → nat → option (string * string).
Variable make_prompt : string → string → gset string → string.
Variables (target_iris : gset string) (out_dir : string).
Variables (max_robot_explanations : nat) (max_iterations : Z).
Variable evidence_max_triples : nat.

Notation loop := (patch_loop json_loads send_prompt rdflib_Literal_of robot_reason
                    robot_explain make_prompt target_iris out_dir
                    max_robot_explanations max_iterations evidence_max_triples).

Lemma numbered_snoc hist r :
  numbered hist → iteration r = S (length hist) → numbered (hist ++ [r]).
Proof.
  intros Hh Hr k r' Hk. apply lookup_app_Some in Hk as [Hk|[Hle Hk]]; [by apply Hh|].
  apply list_lookup_singleton_Some in Hk as [Hk <-]. rewrite Hr. lia.
Qed.

Lemma patch_loop_inv left it current hist fs started :
  it = S (length hist) → started = length hist → numbered hist →
  match loop left it current hist fs started with
  | (Ok res, _, started') =>
      numbered (history res)
      ∧ ((started' = S (length (history res))
          ∧ iterations res = Z.of_nat (length (history res))
          ∧ (status res = "coherent" ∨ status res = "robot_reason_error")
          ∧ length (history res) < length hist + left)
         ∨ (started' = length (history res)
            ∧ length (history res) = length hist + left
            ∧ iterations res = max_iterations))
  | (Raise e, _, started') => length hist < started' ∧ started' ≤ length hist + left
  end.
Proof.
  revert it current hist fs started.
  induction left as [|left IH]; intros it current hist fs started -> -> Hnum.
  - cbn [patch_loop]. destruct (robot_reason_status robot_reason fs current) as [st diag].
    cbn [history iterations]. split; [exact Hnum|]. right. split; [done|]. split; [lia|done].
  - cbn [patch_loop]. destruct (robot_reason_status robot_reason fs current) as [st diag].
    destruct (decide (st = "coherent")).
    { unfold stopped. cbn [history iterations status]. split; [exact Hnum|]. left.
      split; [done|]. split; [lia|]. split; [by left | lia]. }
    destruct (decide (st = "error")).
    { unfold stopped. cbn [history iterations status]. split; [exact Hnum|]. left.
      split; [done|]. split; [lia|]. split; [by right | lia]. }
    destruct (robot_explain fs current max_robot_explanations) as [[mode md]|]; [|lia].
    destruct (build_targeted_evidence fs current target_iris evidence_max_triples)
      as [evidence|]; [|lia].
    destruct (openrouter_chat_json json_loads send_prompt _ _) as [patch|]; [|lia].
    destruct (apply_patch_to_ttl rdflib_Literal_of current _ patch _) as [[[]|] fs2]; [|lia].
    match goal with
    | |- context [loop left ?it' ?cur' (hist ++ [?r]) fs2 ?s'] =>
        specialize (IH it' cur' (hist ++ [r]) fs2 s');
        destruct (loop left it' cur' (hist ++ [r]) fs2 s') as [[[res|e] fs'] started']
    end.
    + rewrite length_app in IH. cbn [length] in IH.
      destruct IH as [Hn Hcase]; [lia | lia | by apply numbered_snoc|].
      split; [exact Hn|]. destruct Hcase as [(?&?&?&?)|(?&?&?)]; [left|right];
        repeat split; try done; lia.
    + rewrite length_app in IH. cbn [length] in IH.
      destruct IH as [H1 H2]; [lia | lia | by apply numbered_snoc|]. lia.
Qed.

(** C3, amended. In a returned result the history has one record for each
    iteration that applied its patch, numbered in order, and its length is
    the result's [iterations]. An iteration whose coherence check says
    coherent or error returns without a record: one more iteration was
    started than the history has records. When the budget is used up the
    history has as many records as iterations were started. A failure in
    an iteration raises: the function returns no history. *)
Theorem patch_loop_history (ontology : string) (fs : files) :
  (0 ≤ max_iterations)%Z →
  match llm_fix_by_target_iris json_loads send_prompt rdflib_Literal_of robot_reason
          robot_explain make_prompt target_iris out_dir max_robot_explanations
          max_iterations evidence_max_triples ontology fs with
  | (Ok res, _, started) =>
      iterations res = Z.of_nat (length (history res))
      ∧ numbered (history res)
      ∧ ((started = S (length (history res))
          ∧ (status res = "coherent" ∨ status res = "robot_reason_error")
          ∧ (Z.of_nat (length (history res)) < max_iterations)%Z)
         ∨ (started = length (history res)
            ∧ Z.of_nat (length (history res)) = max_iterations))
  | (Raise e, _, started) => 0 < started ∧ (Z.of_nat started ≤ max_iterations)%Z
  end.
Proof.
  intros Hmax. unfold llm_fix_by_target_iris.
  pose proof (patch_loop_inv (Z.to_nat max_iterations) 1 ontology [] fs 0
                eq_refl eq_refl) as Hinv.
  destruct (loop (Z.to_nat max_iterations) 1 ontology [] fs 0) as [[[res|e] fs'] started'].
  - destruct Hinv as [Hn Hcase]; [by intros k r Hk|]. cbn [length] in Hcase.
    destruct Hcase as [(?&?&?&?)|(?&?&?)].
    + split; [done|]. split; [done|]. left. split; [done|]. split; [done|]. lia.
    + split; [lia|]. split; [done|]. right. split; [done|]. lia.
  - cbn [length] in Hinv. destruct Hinv as [H1 H2]; [by intros k r Hk|]. lia.
Qed.

End LoopProofs.

Lemma patch_loop_history_witness :
  match ex_run_repair with
  | (Ok res, _, started) =>
      iterations res = Z.of_nat (length (history res))
      ∧ numbered (history res)
      ∧ ((started = S (length (history res))
          ∧ (status res = "coherent" ∨ status res = "robot_reason_error")
          ∧ (Z.of_nat (length (history res)) < 25)%Z)
         ∨ (started = length (history res)
            ∧ Z.of_nat (length (history res)) = 25%Z))
  | (Raise e, _, started) => 0 < started ∧ (Z.of_nat started ≤ 25)%Z
  end.
Proof.
  apply (patch_loop_history ex_llm_loads ex_llm_send ex_rdflib_Literal_of
           ex_robot_reason ex_robot_explain ex_make_prompt ex_targets "out" 25 25%Z
           1200 "in.ttl" ex_files).
  lia.
Defined.

(** C3, counterexample. On a snapshot that is coherent from the start the
    first iteration is started and returns at its coherence check: one
    iteration started, no record. With an explain that fails, the first
    iteration raises: one iteration started, no result and no history. *)
Lemma started_iteration_without_record :
  ex_run_coherent.2 = 1
  ∧ match ex_run_coherent.1.1 with
    | Ok res => history res = [] ∧ status res = "coherent" ∧ iterations res = 0%Z
    | Raise _ => False
    end
  ∧ ex_run_failing.2 = 1
  ∧ ex_run_failing.1.1
    = Raise (RuntimeError "ROBOT could not produce explanation markdown.").
Proof. vm_compute. repeat split; reflexivity. Qed.

Lemma file_is_graph (o : option file) (g : graph) :
  Is_true match o with
          | Some (TurtleFile g1) => bool_decide (g1 = g)
          | _ => false
          end →
  o = Some (TurtleFile g).
Proof.
  destruct o as [[g1|]|]; try (intros []).
  by intros ->%bool_decide_unpack.
Qed.

(** The repaired run: the first iteration deletes the transitive-type
    triple and writes the first snapshot, the second finds it coherent; the
    input snapshot is as it was. *)
Example patch_loop_repairs :
  ex_run_repair.2 = 2
  ∧ match ex_run_repair.1.1 with
    | Ok res =>
        status res = "coherent" ∧ iterations res = 1%Z
        ∧ final_ontology res = "out/iter_001.ttl"
        ∧ (operations <$> history res) = [JArray [ex_delete_op]]
    | Raise _ => False
    end
  ∧ ex_run_repair.1.2 !! "out/iter_001.ttl"
    = Some (TurtleFile {[ (ex_P, OWL_inverseOf, ex_a) ]})
  ∧ ex_run_repair.1.2 !! "in.ttl" = Some (TurtleFile ex_transitive_graph).
Proof.
  split; [by vm_compute|]. split; [vm_compute; repeat split; reflexivity|].
  split; apply file_is_graph; vm_compute; exact I.
Qed.

(* ================================================================== *)
(** * Further properties of the code                                   *)
(* ================================================================== *)

(** ** Import stripping and reification cleanup *)

Lemma triples_p_set (g : graph) (p : node) :
  list_to_set (triples_p g p) = filter (λ t : triple, t.1.2 = p) g.
Proof. unfold triples_p. by rewrite <- filter_as_list. Qed.

Lemma remove_predicate_loop (g : graph) (n : nat) (p : node) :
  foldl (λ (a : graph * nat) (t : triple), (g_remove t a.1, S a.2)) (g, n)
        (triples_p g p)
  = (g ∖ filter (λ t : triple, t.1.2 = p) g,
     n + size (filter (λ t : triple, t.1.2 = p) g)).
Proof.
  rewrite (removal_loop id), list_fmap_id, triples_p_set.
  unfold triples_p. by rewrite size_filter_elements.
Qed.

Lemma reification_pass_eq (g : graph) :
  deterministic_remove_rdf_reification_triples g
  = (g ∖ filter is_reification g, size (filter is_reification g)).
Proof.
  unfold deterministic_remove_rdf_reification_triples. cbn [foldl fst snd].
  rewrite !remove_predicate_loop. cbn [fst snd].
  set (S1 := filter (λ t : triple, t.1.2 = URIRef (RDF "subject")) g).
  set (g1 := g ∖ S1).
  set (S2 := filter (λ t : triple, t.1.2 = URIRef (RDF "predicate")) g1).
  set (g2 := g1 ∖ S2).
  set (S3 := filter (λ t : triple, t.1.2 = URIRef (RDF "object")) g2).
  assert (Hsp : URIRef (RDF "subject") ≠ URIRef (RDF "predicate")) by (intros Heq; inversion Heq).
  assert (Hso : URIRef (RDF "subject") ≠ URIRef (RDF "object")) by (intros Heq; inversion Heq).
  assert (Hpo : URIRef (RDF "predicate") ≠ URIRef (RDF "object")) by (intros Heq; inversion Heq).
  assert (H2 : S2 = filter (λ t : triple, t.1.2 = URIRef (RDF "predicate")) g).
  { subst S2 g1 S1. apply set_eq. intros t.
    rewrite !elem_of_filter, elem_of_difference, elem_of_filter. split; [tauto|].
    intros [Hp Hin]. split; [done|]. split; [done|]. intros [Hs _]. congruence. }
  assert (H3 : S3 = filter (λ t : triple, t.1.2 = URIRef (RDF "object")) g).
  { subst S3 g2 g1 S1. rewrite H2. apply set_eq. intros t.
    rewrite !elem_of_filter, !elem_of_difference, !elem_of_filter. split; [tauto|].
    intros [Hp Hin]. split; [done|]. split; [split; [done|]|]; intros [Hs _]; congruence. }
  assert (Hall : filter is_reification g = S1 ∪ S2 ∪ S3).
  { rewrite H2, H3. subst S1. apply set_eq. intros t.
    rewrite !elem_of_union, !elem_of_filter. unfold is_reification. tauto. }
  f_equal.
  - rewrite Hall. subst g2 g1. set_solver.
  - rewrite Hall, !size_union.
    + lia.
    + rewrite H2. subst S1. intros t [Hs _]%elem_of_filter [Hp _]%elem_of_filter. congruence.
    + rewrite H2, H3. subst S1.
      intros t [[Hs _]%elem_of_filter|[Hs _]%elem_of_filter]%elem_of_union
        [Ho _]%elem_of_filter; congruence.
Qed.

(** X1. The reification cleanup removes exactly the triples whose
    predicate is rdf:subject, rdf:predicate or rdf:object and counts them;
    no such triple is left, every other triple stays, and a second run
    removes nothing and counts 0. *)
Theorem reification_cleanup_exact (g : graph) :
  let g' := (deterministic_remove_rdf_reification_triples g).1 in
  let n := (deterministic_remove_rdf_reification_triples g).2 in
  (∀ t, t ∈ g' ↔ t ∈ g ∧ ¬ is_reification t)
  ∧ n = size g - size g'
  ∧ deterministic_remove_rdf_reification_triples g' = (g', 0).
Proof.
  intros g' n. subst g' n. rewrite reification_pass_eq. cbn [fst snd].
  assert (Hsub : filter is_reification g ⊆ g) by (intros t [_ Hin]%elem_of_filter; done).
  split; [|split].
  - intros t. rewrite elem_of_difference, elem_of_filter. tauto.
  - rewrite size_difference by exact Hsub. pose proof (subseteq_size _ _ Hsub). lia.
  - rewrite reification_pass_eq.
    assert (He : filter is_reification (g ∖ filter is_reification g) = ∅).
    { apply set_eq. intros t.
      rewrite elem_of_filter, elem_of_difference, elem_of_filter. set_solver. }
    rewrite He, size_empty. f_equal. set_solver.
Qed.

Lemma strip_owl_imports_eq (g : graph) :
  strip_owl_imports g
  = (g ∖ filter (λ t : triple, t.1.2 = OWL_imports) g,
     size (filter (λ t : triple, t.1.2 = OWL_imports) g)).
Proof.
  unfold strip_owl_imports.
  rewrite (removal_loop (λ t : triple, (t.1.1, OWL_imports, t.2))).
  cbn [fst snd]. f_equal.
  - f_equal. rewrite <- triples_p_set. f_equal.
    apply list_eq_Forall2, Forall2_fmap_l, Forall_Forall2_diag, Forall_forall.
    intros [[s p] o] [Hp _]%list_elem_of_filter. cbn [fst snd] in *. by subst p.
  - unfold triples_p. by rewrite size_filter_elements.
Qed.

(** X2. Stripping the imports gives a graph with exactly the triples of
    the input whose predicate is not owl:imports, and the number of triples
    it dropped. *)
Theorem strip_owl_imports_exact (g : graph) :
  let g' := (strip_owl_imports g).1 in
  (∀ s p o, (s, p, o) ∈ g' ↔ (s, p, o) ∈ g ∧ p ≠ OWL_imports)
  ∧ (strip_owl_imports g).2 = size g - size g'.
Proof.
  intros g'. subst g'. rewrite strip_owl_imports_eq. cbn [fst snd].
  assert (Hsub : filter (λ t : triple, t.1.2 = OWL_imports) g ⊆ g)
    by (intros t [_ Hin]%elem_of_filter; done).
  split.
  - intros s p o. rewrite elem_of_difference, elem_of_filter. cbn [fst snd]. tauto.
  - rewrite size_difference by exact Hsub. pose proof (subseteq_size _ _ Hsub). lia.
Qed.

(** ** The closure, exactly *)

Lemma ball_stable g root k :
  ball g root (S k) = ball g root k → ∀ m, k ≤ m → ball g root m = ball g root k.
Proof.
  intros Hst m Hle. induction Hle as [|m Hle IH]; [done|].
  cbn [ball]. rewrite IH. exact Hst.
Qed.

Lemma closure_round_covers g limit frontier seen nxt seen' nxt' :
  closure_round g limit frontier seen nxt = inr (seen', nxt') →
  seen' = seen ∪ list_to_set frontier
  ∧ nxt ⊆ nxt'
  ∧ ∀ p, p ∈ frontier → p ∉ seen → related_props g p ⊆ seen' ∪ nxt'.
Proof.
  revert seen nxt. induction frontier as [|p rest IH]; intros seen nxt.
  - cbn [closure_round]. intros [= <- <-]. set_solver.
  - rewrite closure_round_cons. destruct (decide (p ∈ seen)) as [Hin|Hnin].
    + intros Hr. destruct (IH _ _ Hr) as (H1 & H2 & H3). split; [set_solver|].
      split; [done|]. intros q [->|Hq]%elem_of_cons Hns; [done|]. by apply H3.
    + cbv zeta. destruct (limit <=? _); [discriminate|].
      intros Hr. destruct (IH _ _ Hr) as (H1 & H2 & H3). split; [set_solver|].
      split; [set_solver|]. intros q Hq Hns.
      destruct (decide (q = p)) as [->|Hne].
      * intros x Hx. destruct (decide (x ∈ {[ p ]} ∪ seen)) as [Hxs|Hxs].
        -- apply elem_of_union_l. rewrite H1. set_solver.
        -- apply elem_of_union_r, H2, elem_of_union_r, elem_of_filter. done.
      * apply H3; [set_solver|set_solver].
Qed.

Lemma closure_rounds_exact g root limit rounds k frontier seen s :
  closure_rounds g limit rounds frontier seen = inr s →
  seen = inner_ball g root k →
  seen ∪ frontier = ball g root k →
  s = inner_ball g root (k + rounds).
Proof.
  revert k frontier seen. induction rounds as [|rounds IH]; intros k frontier seen.
  - cbn [closure_rounds]. intros [= <-] -> _. by rewrite Nat.add_0_r.
  - rewrite closure_rounds_S. intros Hr Hseen Hball.
    pose proof (closure_round_inv g root limit k (elements frontier) seen ∅) as Hinv.
    destruct (closure_round g limit (elements frontier) seen ∅)
      as [found|[seen' nxt]] eqn:Hround; [discriminate|].
    destruct (closure_round_covers _ _ _ _ _ _ _ Hround) as (Hs' & _ & Hcov).
    rewrite list_to_set_elements_L in Hs'.
    destruct Hinv as (_ & _ & Hnxt & _).
    { intros p Hp%elem_of_elements. rewrite <- Hball. set_solver. }
    { rewrite <- Hball. set_solver. }
    { set_solver. }
    assert (Hsk : seen' = ball g root k) by (by rewrite Hs').
    assert (Hnext : seen' ∪ nxt = ball g root (S k)).
    { apply set_eq. intros x. split.
      - intros [Hx|Hx]%elem_of_union; [|by apply Hnxt].
        rewrite Hsk in Hx. by apply ball_mono_S.
      - cbn [ball]. intros [Hx|(p & Hp & Hx)%elem_of_set_bind]%elem_of_union.
        + apply elem_of_union_l. by rewrite Hsk.
        + destruct (decide (p ∈ seen)) as [Hps|Hps].
          * apply elem_of_union_l. rewrite Hsk.
            rewrite Hseen in Hps. destruct k as [|k]; [set_solver|].
            cbn [inner_ball] in Hps. by apply (ball_step g root k p).
          * apply (Hcov p); [|done|done].
            apply elem_of_elements. rewrite <- Hball in Hp. set_solver. }
    destruct (decide (nxt = ∅)) as [->|Hne].
    + injection Hr as <-. rewrite union_empty_r_L in Hnext.
      replace (k + S rounds) with (S (k + rounds)) by lia. cbn [inner_ball].
      rewrite Hsk. symmetry. apply ball_stable; [|lia]. by rewrite <- Hnext.
    + replace (k + S rounds) with (S k + rounds) by lia.
      apply (IH (S k) nxt seen' Hr); [by rewrite Hsk | exact Hnext].
Qed.

(** X3. For every depth and limit: when the closure routine returns after
    its loop, the closure is exactly the set of properties within [depth]
    steps of the root along inverse-of, subproperty-of and
    superproperty-of; when it returns at the size cutoff, the set holds the
    root and only properties within [depth + 1] steps. *)
Theorem related_property_closure_exact (g : graph) (root : node) (depth limit : nat) :
  match closure_rounds g limit (depth + 1) {[ root ]} ∅ with
  | inr seen =>
      related_property_closure g root depth limit = seen
      ∧ seen = ball g root depth
  | inl found =>
      related_property_closure g root depth limit = found
      ∧ root ∈ found ∧ found ⊆ ball g root (depth + 1)
  end.
Proof.
  pose proof (related_property_closure_bounds g root depth limit) as (Hroot & Hsub & _).
  unfold related_property_closure in *.
  destruct (closure_rounds g limit (depth + 1) {[ root ]} ∅) as [found|seen] eqn:Hr.
  - cbn [returned] in *. done.
  - split; [done|].
    rewrite (closure_rounds_exact g root limit (depth + 1) 0 {[ root ]} ∅ seen Hr).
    + by replace (0 + (depth + 1)) with (S depth) by lia.
    + done.
    + cbn [ball]. set_solver.
Qed.

(** ** The resolver, run again *)

Lemma related_props_without_causes (g C : graph) (p : node) :
  (∀ t, t ∈ C → is_non_simple_cause t) →
  related_props (g ∖ C) p = related_props g p.
Proof.
  intros HC. apply set_eq. intros q. rewrite !elem_of_related_props.
  assert (Hkeep : ∀ s o pr, (pr = OWL_inverseOf ∨ pr = RDFS_subPropertyOf) →
            ((s, pr, o) ∈ g ∖ C ↔ (s, pr, o) ∈ g)).
  { intros s o pr Hpr. rewrite elem_of_difference. split; [tauto|].
    intros Hin. split; [done|]. intros Hc%HC. unfold is_non_simple_cause in Hc.
    cbn [fst snd] in Hc.
    destruct Hpr as [-> | ->], Hc as [[Hc _]|Hc]; inversion Hc. }
  rewrite !Hkeep by auto. done.
Qed.

Lemma closure_round_ext g1 g2 limit frontier seen nxt :
  (∀ p, related_props g1 p = related_props g2 p) →
  closure_round g1 limit frontier seen nxt = closure_round g2 limit frontier seen nxt.
Proof.
  intros Hext. revert seen nxt. induction frontier as [|p rest IH]; intros seen nxt; [done|].
  rewrite !closure_round_cons, Hext. destruct (decide (p ∈ seen)); [apply IH|].
  cbv zeta. destruct (limit <=? _); [done | apply IH].
Qed.

Lemma closure_rounds_ext g1 g2 limit rounds frontier seen :
  (∀ p, related_props g1 p = related_props g2 p) →
  closure_rounds g1 limit rounds frontier seen = closure_rounds g2 limit rounds frontier seen.
Proof.
  intros Hext. revert frontier seen. induction rounds as [|rounds IH]; intros frontier seen;
    [done|].
  rewrite !closure_rounds_S, (closure_round_ext g1 g2) by done.
  destruct (closure_round g2 limit (elements frontier) seen ∅) as [found|[seen' nxt]]; [done|].
  destruct (decide (nxt = ∅)); [done | apply IH].
Qed.

Lemma fix_non_simple_again (g : graph) (issue : HermitIssue) :
  deterministic_fix_non_simple (deterministic_fix_non_simple g issue).1 issue
  = ((deterministic_fix_non_simple g issue).1, 0).
Proof.
  unfold deterministic_fix_non_simple.
  set (root := URIRef (property_iri issue)).
  set (props := related_property_closure g root 2 500).
  destruct (remove_non_simple_causes_eq g props) as (Hg & _ & _).
  set (g' := (remove_non_simple_causes g props).1) in *.
  assert (Hprops : related_property_closure g' root 2 500 = props).
  { subst props. unfold related_property_closure. f_equal.
    apply closure_rounds_ext. intros p. rewrite Hg.
    apply related_props_without_causes. by intros t [[_ Hc] _]%elem_of_filter. }
  rewrite Hprops.
  destruct (remove_non_simple_causes_eq g' props) as (Hg2 & _ & Hn2).
  assert (He : non_simple_causes_of g' props = ∅).
  { apply set_eq. intros t. rewrite Hg. unfold non_simple_causes_of.
    rewrite elem_of_filter, elem_of_difference, elem_of_filter. set_solver. }
  rewrite He in Hg2, Hn2. rewrite size_empty in Hn2.
  destruct (remove_non_simple_causes g' props) as [g2 n2]. cbn [fst snd] in *.
  subst. f_equal. set_solver.
Qed.

(** X4. Running the resolver a second time for the same property removes
    nothing: it returns the graph of the first run and the count 0. So a
    HermiT that repeats its complaint about the same property after the
    first repair ends the loop at the second iteration, for lack of
    progress. *)
Theorem resolver_second_run_removes_nothing
    (hermit : graph → option (Z * string * string)) (g : graph)
    (issue : HermitIssue) (rc : Z) (out err : string) (loops : nat) :
  let g' := (deterministic_fix_non_simple g issue).1 in
  deterministic_fix_non_simple g' issue = (g', 0)
  ∧ (hermit g = Some (rc, out, err) → hermit g' = Some (rc, out, err) →
     run_hermit_verdict out err = None →
     classify_non_simple_issue (err +:+ Py.newline +:+ out) = Some issue →
     0 < (deterministic_fix_non_simple g issue).2 →
     hermit_loop hermit (S (S loops)) g
     = Ok {| final_graph := g'; hermit_runs := 2; exit_by := BreakNoProgress |}).
Proof.
  intros g'. split; [apply fix_non_simple_again|].
  intros Hg Hg' Hv Hc Hpos.
  rewrite hermit_loop_S, Hg, Hv, Hc.
  rewrite (leb_correct_conv 0 _ Hpos). fold g'.
  rewrite hermit_loop_S, Hg', Hv, Hc. subst g'.
  by rewrite fix_non_simple_again.
Qed.

(** ** Slices *)

Lemma add_all_eq (ts : list triple) (out : graph) :
  add_all ts out = list_to_set ts ∪ out.
Proof.
  unfold add_all. revert out. induction ts as [|t ts IH]; intros out.
  - cbn. set_solver.
  - cbn [foldl]. rewrite IH. unfold g_add. set_solver.
Qed.

Lemma anchor_fold (seeds : gset node) (l : list triple) (out : graph) (fr : gset node) :
  let r := foldl (anchor_step seeds) (out, fr) l in
  r.1 = out ∪ list_to_set (filter (λ t : triple, t.1.1 ∈ seeds ∨ t.2 ∈ seeds) l)
  ∧ fr ⊆ r.2
  ∧ ∀ t, t ∈ l → (t.1.1 ∈ seeds ∨ t.2 ∈ seeds) →
         bnode_set t.1.1 ∪ bnode_set t.2 ⊆ r.2.
Proof.
  revert out fr. induction l as [|[[s p] o] l IH]; intros out fr r; subst r.
  - cbn. set_solver.
  - cbn [foldl]. unfold anchor_step at 2 4 6. rewrite filter_cons. cbn [fst snd].
    destruct (decide (s ∈ seeds ∨ o ∈ seeds)) as [Ht|Ht].
    + destruct (IH (g_add (s, p, o) out) (bnode_set o ∪ bnode_set s ∪ fr)) as (H1 & H2 & H3).
      split; [rewrite H1; unfold g_add; set_solver|]. split; [set_solver|].
      intros t [->|Hin]%elem_of_cons Htt; [cbn [fst snd]; set_solver | by apply H3].
    + destruct (IH out fr) as (H1 & H2 & H3). split; [done|]. split; [done|].
      intros t [->|Hin]%elem_of_cons Htt; [by destruct Ht | by apply H3].
Qed.

Lemma expand_fold_out (f : slice_state → triple → gset node) (l : list triple)
    (st : slice_state) :
  let r := foldl (λ (a : slice_state) (t : triple),
                    {| sl_out := g_add t (sl_out a); sl_seen := sl_seen a;
                       sl_new_frontier := f a t |}) st l in
  sl_out r = list_to_set l ∪ sl_out st ∧ sl_seen r = sl_seen st.
Proof.
  revert st. induction l as [|t l IH]; intros st r; subst r.
  - cbn. set_solver.
  - cbn [foldl]. destruct (IH {| sl_out := g_add t (sl_out st); sl_seen := sl_seen st;
                                 sl_new_frontier := f st t |}) as [H1 H2].
    rewrite H1, H2. cbn [sl_out sl_seen]. unfold g_add. set_solver.
Qed.

Lemma expand_node_out (g : graph) (st : slice_state) (nd : node) :
  sl_out (expand_node g st nd)
  = if decide (nd ∈ sl_seen st) then sl_out st
    else list_to_set (triples_o g nd) ∪ list_to_set (triples_s g nd) ∪ sl_out st.
Proof.
  unfold expand_node. destruct (decide (nd ∈ sl_seen st)); [done|].
  match goal with
  | |- sl_out (foldl ?F2 (foldl ?F1 ?st0 ?l1) ?l2) = _ =>
      pose proof (expand_fold_out
        (λ a t, if is_bnode t.1.1 && bool_decide (t.1.1 ∉ {[ nd ]} ∪ sl_seen st)
                then {[ t.1.1 ]} ∪ sl_new_frontier a else sl_new_frontier a)
        l2 (foldl F1 st0 l1)) as [H2 _];
      pose proof (expand_fold_out
        (λ a t, if is_bnode t.2 && bool_decide (t.2 ∉ {[ nd ]} ∪ sl_seen st)
                then {[ t.2 ]} ∪ sl_new_frontier a else sl_new_frontier a)
        l1 st0) as [H1 _]
  end.
  cbv zeta in H1, H2. rewrite H2, H1. cbn [sl_out]. set_solver.
Qed.

Lemma expand_node_seen (g : graph) (st : slice_state) (nd : node) :
  sl_seen (expand_node g st nd) = {[ nd ]} ∪ sl_seen st.
Proof.
  unfold expand_node. destruct (decide (nd ∈ sl_seen st)); [set_solver|].
  match goal with
  | |- sl_seen (foldl ?F2 (foldl ?F1 ?st0 ?l1) ?l2) = _ =>
      pose proof (expand_fold_out
        (λ a t, if is_bnode t.1.1 && bool_decide (t.1.1 ∉ {[ nd ]} ∪ sl_seen st)
                then {[ t.1.1 ]} ∪ sl_new_frontier a else sl_new_frontier a)
        l2 (foldl F1 st0 l1)) as [_ H2];
      pose proof (expand_fold_out
        (λ a t, if is_bnode t.2 && bool_decide (t.2 ∉ {[ nd ]} ∪ sl_seen st)
                then {[ t.2 ]} ∪ sl_new_frontier a else sl_new_frontier a)
        l1 st0) as [_ H1]
  end.
  cbv zeta in H1, H2. by rewrite H2, H1.
Qed.

Lemma triples_s_set (g : graph) (nd : node) :
  list_to_set (triples_s g nd) = filter (λ t : triple, t.1.1 = nd) g.
Proof. unfold triples_s. by rewrite <- filter_as_list. Qed.

Lemma triples_o_set (g : graph) (nd : node) :
  list_to_set (triples_o g nd) = filter (λ t : triple, t.2 = nd) g.
Proof. unfold triples_o. by rewrite <- filter_as_list. Qed.

Lemma expand_round (g : graph) (l : list node) (st : slice_state) :
  let r := foldl (expand_node g) st l in
  sl_out st ⊆ sl_out r
  ∧ sl_out r ⊆ sl_out st ∪ g
  ∧ sl_seen r = sl_seen st ∪ list_to_set l
  ∧ ∀ nd t, nd ∈ l → nd ∉ sl_seen st → t ∈ g → (t.1.1 = nd ∨ t.2 = nd) → t ∈ sl_out r.
Proof.
  revert st. induction l as [|x l IH]; intros st r; subst r.
  - cbn. set_solver.
  - cbn [foldl]. destruct (IH (expand_node g st x)) as (H1 & H2 & H3 & H4).
    pose proof (expand_node_out g st x) as Ho.
    pose proof (expand_node_seen g st x) as Hs.
    rewrite triples_s_set, triples_o_set in Ho.
    assert (Hsub : sl_out st ⊆ sl_out (expand_node g st x)).
    { rewrite Ho. destruct (decide (x ∈ sl_seen st)); set_solver. }
    assert (Hup : sl_out (expand_node g st x) ⊆ sl_out st ∪ g).
    { rewrite Ho. destruct (decide (x ∈ sl_seen st)); [set_solver|].
      intros t [[[_ ?]%elem_of_filter|[_ ?]%elem_of_filter]%elem_of_union|?]%elem_of_union;
        set_solver. }
    split; [set_solver|]. split; [set_solver|]. split; [rewrite H3, Hs; set_solver|].
    intros nd t Hnd Hns Hin Ht. destruct (decide (nd = x)) as [->|Hne].
    + apply H1. rewrite Ho, decide_False by done.
      destruct Ht as [Ht|Ht]; [apply elem_of_union_l, elem_of_union_r
                              | apply elem_of_union_l, elem_of_union_l];
        by apply elem_of_filter.
    + apply (H4 nd); [set_solver | rewrite Hs; set_solver | done | done].
Qed.

Lemma expand_bnodes_bounds (g : graph) (rounds : nat) (out : graph)
    (frontier seen : gset node) :
  out ⊆ expand_bnodes g rounds out frontier seen
  ∧ expand_bnodes g rounds out frontier seen ⊆ out ∪ g.
Proof.
  revert out frontier seen. induction rounds as [|rounds IH]; intros out frontier seen.
  - cbn. set_solver.
  - cbn [expand_bnodes].
    destruct (expand_round g (elements frontier)
                {| sl_out := out; sl_seen := seen; sl_new_frontier := ∅ |})
      as (H1 & H2 & _ & _). cbv zeta in H1, H2. cbn [sl_out] in H1, H2.
    match goal with
    | |- _ ⊆ expand_bnodes g rounds ?o ?f ?s ∧ _ => destruct (IH o f s) as [I1 I2]
    end.
    split; set_solver.
Qed.

Lemma triples_sp_sub (g : graph) (s p : node) :
  (list_to_set (triples_sp g s p) : graph) ⊆ g.
Proof.
  intros t [_ ?%elem_of_elements]%elem_of_list_to_set%list_elem_of_filter. done.
Qed.

Lemma triples_po_sub (g : graph) (p o : node) :
  (list_to_set (triples_po g p o) : graph) ⊆ g.
Proof.
  intros t [_ ?%elem_of_elements]%elem_of_list_to_set%list_elem_of_filter. done.
Qed.

Lemma fold_bounds {A : Type} (g : graph) (f : graph → A → graph) (l : list A) :
  (∀ o a, o ⊆ f o a ∧ f o a ⊆ o ∪ g) →
  ∀ out, out ⊆ foldl f out l ∧ foldl f out l ⊆ out ∪ g.
Proof.
  intros Hf. induction l as [|a l IH]; intros out; [cbn; set_solver|].
  cbn [foldl]. destruct (IH (f out a)) as [I1 I2]. destruct (Hf out a) as [F1 F2].
  revert I1 I2 F1 F2. generalize (foldl f (f out a) l) (f out a). clear.
  set_solver.
Qed.

Lemma add_schema_bounds (g : graph) (seeds : gset node) (out : graph) :
  out ⊆ add_schema g seeds out ∧ add_schema g seeds out ⊆ out ∪ g.
Proof.
  unfold add_schema. apply fold_bounds. intros o u. apply fold_bounds.
  intros o' p. rewrite !add_all_eq.
  pose proof (triples_sp_sub g u p). pose proof (triples_po_sub g p u).
  set_solver.
Qed.

(** ** Evidence *)

Lemma collect_hits_take (targets : gset node) (max_triples : nat)
    (ts hits : list triple) :
  collect_hits targets max_triples ts hits
  = hits ++ take (Nat.max (max_triples - length hits) 1)
                 (filter (λ t : triple,
                            t.1.1 ∈ targets ∨ t.1.2 ∈ targets ∨ t.2 ∈ targets) ts).
Proof.
  revert hits. induction ts as [|t ts IH]; intros hits.
  - cbn. by rewrite take_nil, app_nil_r.
  - cbn [collect_hits]. rewrite filter_cons.
    destruct (decide (t.1.1 ∈ targets ∨ t.1.2 ∈ targets ∨ t.2 ∈ targets)); [|apply IH].
    rewrite length_app. cbn [length]. destruct (Nat.leb_spec max_triples (length hits + 1)).
    + replace (Nat.max (max_triples - length hits) 1) with 1 by lia.
      cbn [take]. by rewrite take_0.
    + rewrite IH, length_app. cbn [length].
      replace (Nat.max (max_triples - length hits) 1)
        with (S (Nat.max (max_triples - (length hits + 1)) 1)) by lia.
      cbn [take]. by rewrite <- app_assoc.
Qed.

(** X5. The evidence of [build_targeted_evidence] is made of the first
    [max(max_triples, 1)] triples, in the graph's iteration order, that have
    a target as subject, predicate or object: a cap of 0 still lets one
    triple through, no triple appears twice, and an unreadable ontology
    raises. *)
Theorem evidence_is_capped_prefix (fs : files) (path : string)
    (iris : gset string) (max_triples : nat) :
  let targets := http_uris iris in
  let touches := λ t : triple, t.1.1 ∈ targets ∨ t.1.2 ∈ targets ∨ t.2 ∈ targets in
  match load_turtle_graph fs path with
  | Raise e => build_targeted_evidence fs path iris max_triples = Raise e
  | Ok g =>
      let hits := take (Nat.max max_triples 1) (filter touches (elements g)) in
      collect_hits targets max_triples (elements g) [] = hits
      ∧ build_targeted_evidence fs path iris max_triples
        = Ok (String.concat Py.newline (evidence_line <$> hits))
      ∧ length hits ≤ Nat.max max_triples 1
      ∧ NoDup hits
      ∧ (∀ t, t ∈ hits → t ∈ g ∧ touches t)
      ∧ (max_triples = 0 → filter touches (elements g) ≠ [] → length hits = 1)
  end.
Proof.
  intros targets touches. unfold build_targeted_evidence.
  destruct (load_turtle_graph fs path) as [g|e]; [|reflexivity].
  cbn [rbind]. cbv zeta. fold targets.
  rewrite collect_hits_take. cbn [length app]. rewrite Nat.sub_0_r.
  split; [reflexivity|]. split; [reflexivity|].
  split; [rewrite length_take; lia|].
  split; [eapply sublist_NoDup; [|apply sublist_take]; apply NoDup_filter, NoDup_elements|].
  split.
  - intros t Ht%subseteq_take.
    apply list_elem_of_filter in Ht as [Ht Hin].
    split; [by apply elem_of_elements | exact Ht].
  - intros -> Hne. cbn. destruct (filter touches (elements g)); [done | reflexivity].
Qed.

(** ** The effect of a patch *)

Section PatchEffect.

Variable rdflib_Literal_of : json → result node.

Lemma apply_op_delta (op : json) (g g' : graph) :
  apply_op rdflib_Literal_of op g = Ok g' →
  ∃ old new : graph, size old ≤ 1 ∧ size new ≤ 1 ∧ g' = new ∪ (g ∖ old).
Proof.
  assert (Hs : ∀ t : triple, size ({[ t ]} : graph) ≤ 1)
    by (intros t; by rewrite size_singleton).
  assert (He : size (∅ : graph) ≤ 1) by (rewrite size_empty; lia).
  unfold apply_op. destruct op as [| | | | | |om]; try discriminate.
  cbv zeta.
  destruct (json_is_str (dict_get "op" om) "delete_triple"
            || json_is_str (dict_get "op" om) "add_triple").
  - destruct (triple_of_json _ _) as [t|]; [|discriminate]. cbn [rbind].
    destruct (json_is_str (dict_get "op" om) "delete_triple"); intros [= <-].
    + exists {[ t ]}, ∅. unfold g_remove. split; [done|]. split; [done|]. set_solver.
    + exists ∅, {[ t ]}. unfold g_add. split; [done|]. split; [done|]. set_solver.
  - destruct (json_is_str (dict_get "op" om) "replace_triple").
    + destruct (triple_of_json _ (dict_get "old" om)) as [old|]; [|discriminate].
      cbn [rbind].
      destruct (triple_of_json _ (dict_get "new" om)) as [new|]; [|discriminate].
      cbn [rbind]. intros [= <-]. exists {[ old ]}, {[ new ]}.
      unfold g_add, g_remove. split; [done|]. split; [done|]. set_solver.
    + intros [= <-]. exists ∅, ∅. split; [done|]. split; [done|]. set_solver.
Qed.

(** X6. A patch that is applied changes the ontology by one operation: the
    snapshot written differs from the one read by at most one triple
    taken out and at most one triple put in, no other file changes, and
    the snapshot read is kept unless it is also the output path. When the
    patch is not applied, no file changes. *)
Theorem patch_edits_one_triple (in_ttl out_ttl : string) (patch : json)
    (fs : files) :
  match apply_patch_to_ttl rdflib_Literal_of in_ttl out_ttl patch fs with
  | (Ok _, fs') =>
      ∃ g g' : graph,
        load_turtle_graph fs in_ttl = Ok g
        ∧ load_turtle_graph fs' out_ttl = Ok g'
        ∧ size (g ∖ g') ≤ 1
        ∧ size (g' ∖ g) ≤ 1
        ∧ (∀ path, path ≠ out_ttl → fs' !! path = fs !! path)
        ∧ (in_ttl ≠ out_ttl → load_turtle_graph fs' in_ttl = Ok g)
  | (Raise _, fs') => fs' = fs
  end.
Proof.
  unfold apply_patch_to_ttl.
  destruct (validate_patch_one_op patch) as [[]|e]; [|reflexivity].
  destruct (load_turtle_graph fs in_ttl) as [g|e] eqn:Hload; [|reflexivity].
  destruct (apply_op _ _ _) as [g'|e] eqn:Hop; [|reflexivity].
  apply apply_op_delta in Hop as (old & new & Hold & Hnew & ->).
  exists g, (new ∪ g ∖ old). unfold write_graph_as_turtle, load_turtle_graph.
  split; [reflexivity|]. split; [by rewrite lookup_insert_eq|].
  split; [etrans; [apply (subseteq_size _ old); set_solver | exact Hold]|].
  split; [etrans; [apply (subseteq_size _ new); set_solver | exact Hnew]|].
  split; [by intros path Hp; rewrite lookup_insert_ne|].
  intros Hne. rewrite lookup_insert_ne by done. exact Hload.
Qed.

End PatchEffect.

(** ** Reading HermiT's message *)

Lemma has_char_app c s t : has_char c (s +:+ t) = has_char c s || has_char c t.
Proof.
  induction s as [|a s IH]; [reflexivity|].
  rewrite append_cons. cbn [has_char]. by rewrite IH, orb_assoc.
Qed.

Lemma length_append s t : String.length (s +:+ t) = String.length s + String.length t.
Proof.
  induction s as [|a s IH]; [reflexivity|].
  rewrite append_cons. cbn [String.length]. by rewrite IH.
Qed.

Lemma re_span_until_app c s t :
  has_char c s = false → re_span_until c (s +:+ String c t) = (s, String c t).
Proof.
  induction s as [|a s IH]; intros Hs.
  - rewrite append_empty_l. cbn [re_span_until]. by rewrite decide_True.
  - cbn [has_char] in Hs. apply orb_false_elim in Hs as [Ha Hs].
    rewrite append_cons. cbn [re_span_until].
    rewrite decide_False by (by apply bool_decide_eq_false in Ha).
    by rewrite IH.
Qed.

Lemma re_literal_ci_app lit s : re_literal_ci lit (lit +:+ s) = Some s.
Proof.
  induction lit as [|a lit IH]; [by destruct s|].
  rewrite append_cons. cbn [re_literal_ci]. by rewrite decide_True.
Qed.

Lemma re_literal_ci_inv lit s r :
  re_literal_ci lit s = Some r →
  ∃ s1, s = s1 +:+ r ∧ Py.lower s1 = Py.lower lit.
Proof.
  revert s. induction lit as [|a lit IH]; intros s.
  - destruct s; intros [= <-]; by exists EmptyString.
  - destruct s as [|b s]; [discriminate|]. cbn [re_literal_ci].
    destruct (decide _) as [Hab|]; [|discriminate].
    intros (s1 & -> & Hs1)%IH. exists (String b s1).
    split; [reflexivity|]. cbn [Py.lower]. by rewrite Hs1, Hab.
Qed.

Lemma lower_char_quote c : Py.lower_char c = "'"%char → c = "'"%char.
Proof. destruct c as [[] [] [] [] [] [] [] []]; (reflexivity || discriminate). Qed.

(** A string equal to [l0 'q'] up to case, for a literal [l0] without
    quote, is a quote-free string of the length of [l0], then the quote. *)
Lemma lower_eq_quoted l0 s1 :
  has_char "'" (Py.lower l0) = false →
  Py.lower s1 = Py.lower (l0 +:+ "'") →
  ∃ s0, s1 = s0 +:+ "'" ∧ has_char "'" s0 = false
        ∧ String.length s0 = String.length l0.
Proof.
  revert s1. induction l0 as [|a l0 IH]; intros s1 Hl0 Hs1.
  - rewrite append_empty_l in Hs1. destruct s1 as [|b [|b' s1]]; try discriminate.
    injection Hs1 as Hb. apply lower_char_quote in Hb as ->. by exists EmptyString.
  - rewrite append_cons in Hs1. destruct s1 as [|b s1]; [discriminate|].
    cbn [Py.lower] in Hs1, Hl0. injection Hs1 as Hb Hs1.
    cbn [has_char] in Hl0. apply orb_false_elim in Hl0 as [Ha Hl0].
    destruct (IH s1 Hl0 Hs1) as (s0 & -> & Hs0 & Hlen).
    exists (String b s0). split; [reflexivity|]. cbn [has_char String.length].
    rewrite Hs0, Hlen, orb_false_r. split; [|reflexivity].
    apply bool_decide_eq_false. intros ->. apply bool_decide_eq_false in Ha.
    apply Ha. rewrite <- Hb. reflexivity.
Qed.

(** The opening words of the pattern match nowhere inside a prefix
    without a quote. *)
Lemma re_non_simple_not_in_prefix tail pre x :
  has_char "'" pre = false →
  re_non_simple_search tail (pre +:+ "Non-simple property '" +:+ x)
  = re_non_simple_search tail ("Non-simple property '" +:+ x).
Proof.
  induction pre as [|a pre IH]; intros Hpre; [reflexivity|].
  cbn [has_char] in Hpre. apply orb_false_elim in Hpre as [Ha Hpre].
  rewrite append_cons.
  change (re_non_simple_search tail (String a ?s))
    with (match re_non_simple_at tail (String a s) with
          | Some c => Some c
          | None => re_non_simple_search tail s
          end).
  assert (Hno : re_literal_ci "Non-simple property '"
                  (String a (pre +:+ "Non-simple property '" +:+ x)) = None).
  { destruct (re_literal_ci _ _) as [r|] eqn:Hm; [exfalso|reflexivity].
    apply re_literal_ci_inv in Hm as (s1 & Hs & Hs1).
    apply (lower_eq_quoted "Non-simple property ") in Hs1
      as (s0 & -> & Hs0 & Hlen); [|reflexivity].
    assert (Hspan : re_span_until "'" (String a (pre +:+ "Non-simple property '" +:+ x))
                    = (s0, String "'" r)).
    { rewrite Hs, append_assoc. by apply re_span_until_app. }
    change (String a (pre +:+ "Non-simple property '" +:+ x))
      with ((String a pre +:+ "Non-simple property ") +:+ String "'" x) in Hspan
      || (replace (String a (pre +:+ "Non-simple property '" +:+ x))
            with ((String a pre +:+ "Non-simple property ") +:+ String "'" x) in Hspan
            by (by rewrite append_assoc)).
    rewrite re_span_until_app in Hspan.
    - injection Hspan as Hs0' _. subst s0. rewrite length_append in Hlen.
      cbn [String.length] in Hlen. lia.
    - rewrite has_char_app. cbn [has_char]. by rewrite Ha, Hpre. }
  unfold re_non_simple_at at 1. rewrite Hno. by apply IH.
Qed.

Lemma re_after_group_ok tail (inverse : bool) rest :
  re_after_group tail
    ("'" +:+ (if inverse then " or its inverse" else EmptyString) +:+ tail +:+ rest)
  = true.
Proof.
  unfold re_after_group. rewrite re_literal_ci_app.
  destruct inverse.
  - rewrite re_literal_ci_app, re_literal_ci_app. reflexivity.
  - rewrite append_empty_l, re_literal_ci_app.
    destruct (re_literal_ci " or its inverse" _); [|reflexivity].
    by rewrite orb_true_r.
Qed.

Lemma re_non_simple_at_bracketed tail i (inverse : bool) rest :
  i ≠ EmptyString → has_char ">" i = false →
  re_non_simple_at tail
    ("Non-simple property '" +:+ "<" +:+ i +:+ ">'"
     +:+ (if inverse then " or its inverse" else EmptyString) +:+ tail +:+ rest)
  = Some ("<" +:+ i +:+ ">").
Proof.
  intros Hi Hgt. unfold re_non_simple_at. rewrite re_literal_ci_app.
  rewrite (append_cons "<" EmptyString), append_empty_l.
  rewrite (append_cons ">" "'"), re_span_until_app by exact Hgt.
  destruct i as [|c body]; [done|].
  change (String "'" EmptyString +:+ ?s) with ("'" +:+ s).
  by rewrite re_after_group_ok.
Qed.

Lemma re_non_simple_search_bracketed tail pre i (inverse : bool) rest :
  has_char "'" pre = false → i ≠ EmptyString → has_char ">" i = false →
  re_non_simple_search tail
    (pre +:+ "Non-simple property '" +:+ "<" +:+ i +:+ ">'"
     +:+ (if inverse then " or its inverse" else EmptyString) +:+ tail +:+ rest)
  = Some ("<" +:+ i +:+ ">").
Proof.
  intros Hpre Hi Hgt. rewrite re_non_simple_not_in_prefix by exact Hpre.
  pose proof (re_non_simple_at_bracketed tail i inverse rest Hi Hgt) as Hat.
  destruct (_ +:+ _) eqn:Hs in Hat |- *.
  - cbn [re_non_simple_search]. by rewrite Hat.
  - cbn [re_non_simple_search]. by rewrite Hat.
Qed.

Lemma rstrip_solid_end s c :
  Py.is_space c = false → Py.rstrip (s +:+ String c EmptyString) = s +:+ String c EmptyString.
Proof.
  intros Hc. induction s as [|a s IH].
  - rewrite append_empty_l. cbn [Py.rstrip]. by rewrite Hc.
  - rewrite append_cons. cbn [Py.rstrip]. rewrite IH.
    destruct s; reflexivity.
Qed.

Lemma take_length_append s t : Py.take (String.length s) (s +:+ t) = s.
Proof.
  induction s as [|a s IH]; [by destruct t|].
  rewrite append_cons. cbn [String.length Py.take]. by rewrite IH.
Qed.

Lemma drop_length_append s t : Py.drop (String.length s) (s +:+ t) = t.
Proof.
  induction s as [|a s IH]; [by destruct t|].
  rewrite append_cons. cbn [String.length Py.drop]. by rewrite IH.
Qed.

Lemma captured_iri_bracketed i : captured_iri ("<" +:+ i +:+ ">") = i.
Proof.
  unfold captured_iri, Py.strip.
  rewrite (append_cons "<" EmptyString), append_empty_l. cbn [Py.lstrip].
  change (Py.is_space "<") with false. cbv iota.
  rewrite <- (append_cons "<" i ">"), rstrip_solid_end by reflexivity.
  rewrite (append_cons "<" i ">").
  assert (Hend : Py.endswith (String "<" (i +:+ ">")) ">" = true).
  { unfold Py.endswith. cbn [String.length]. rewrite length_append. cbn [String.length].
    apply andb_true_intro. split; [apply Nat.leb_le; lia|].
    apply bool_decide_eq_true.
    replace (S (String.length i + 1) - 1) with (String.length (String "<" i)) by (cbn; lia).
    rewrite <- (append_cons "<" i ">"). apply drop_length_append. }
  assert (Hst : Py.startswith (String "<" (i +:+ ">")) "<" = true).
  { apply startswith_spec. by exists (i +:+ ">"). }
  rewrite Hend, Hst. cbn [andb].
  unfold Py.strip_ends, Py.drop_last. cbn [Py.drop]. rewrite length_append.
  cbn [String.length]. replace (String.length i + 1 - 1) with (String.length i) by lia.
  apply take_length_append.
Qed.

(** X7. The classifier recovers the property HermiT names. For a message
    that says, after any text without a quote, [Non-simple property '<i>'],
    with or without [or its inverse], and then the words of the cardinality
    pattern, the issue found is the cardinality one and its property is
    [i] without the angle brackets, whatever follows; with the words of
    the irreflexive pattern it is the irreflexive issue for [i], unless the
    cardinality pattern matches somewhere in the message. *)
Theorem classifier_recovers_property (pre i rest : string) (inverse : bool) :
  has_char "'" pre = false → i ≠ EmptyString → has_char ">" i = false →
  let named := pre +:+ "Non-simple property '" +:+ "<" +:+ i +:+ ">'"
               +:+ (if inverse then " or its inverse" else EmptyString) in
  classify_non_simple_issue
    (named +:+ " appears in the cardinality restriction" +:+ rest)
  = Some {| kind := "NON_SIMPLE_PROPERTY_IN_CARDINALITY"; property_iri := i |}
  ∧ (NON_SIMPLE_IN_CARD_RE
       (named +:+ " appears in irreflexive object property axiom" +:+ rest) = None →
     classify_non_simple_issue
       (named +:+ " appears in irreflexive object property axiom" +:+ rest)
     = Some {| kind := "NON_SIMPLE_PROPERTY_IN_IRREFLEXIVE"; property_iri := i |}).
Proof.
  intros Hpre Hi Hgt named. subst named. rewrite !append_assoc.
  assert (Hne : ∀ x, pre +:+ "Non-simple property '" +:+ x ≠ EmptyString).
  { intros x. destruct pre; discriminate. }
  unfold classify_non_simple_issue. split.
  - rewrite decide_False by apply Hne.
    unfold NON_SIMPLE_IN_CARD_RE.
    rewrite (re_non_simple_search_bracketed _ pre i inverse rest Hpre Hi Hgt).
    by rewrite captured_iri_bracketed.
  - intros Hcard. rewrite decide_False by apply Hne. rewrite Hcard.
    unfold NON_SIMPLE_IN_IRREFLEXIVE_RE.
    rewrite (re_non_simple_search_bracketed _ pre i inverse rest Hpre Hi Hgt).
    by rewrite captured_iri_bracketed.
Qed.

Lemma classifier_recovers_property_witness :
  classify_non_simple_issue
    ("Exception: Non-simple property '<http://example.org/P>' or its inverse appears in the cardinality restriction 'ObjectMaxCardinality(1 <http://example.org/P>)'.")
  = Some ex_issue.
Proof.
  refine (proj1 (classifier_recovers_property "Exception: " "http://example.org/P"
                   " 'ObjectMaxCardinality(1 <http://example.org/P>)'." true _ _ _)).
  - reflexivity.
  - discriminate.
  - reflexivity.
Defined.

(** ** Literal-valued object properties *)

Lemma annotation_not_object_only : OWL_AnnotationProperty ∉ OBJECT_ONLY_TYPES.
Proof. compute_done. Qed.

Lemma object_types_in :
  URIRef (OWL "ObjectProperty") ∈ OBJECT_ONLY_TYPES
  ∧ OWL_TransitiveProperty ∈ OBJECT_ONLY_TYPES.
Proof. split; compute_done. Qed.

Lemma type_not_inverse : RDF_type ≠ OWL_inverseOf ∧ RDF_type ≠ OWL_propertyChainAxiom.
Proof. split; compute_done. Qed.

Opaque OBJECT_ONLY_TYPES.

Lemma annotation_typing_kept p q : ¬ object_only p (annotation_typing q).
Proof.
  pose proof annotation_not_object_only. destruct type_not_inverse.
  unfold object_only, annotation_typing. cbn [fst snd]. tauto.
Qed.

Lemma conditional_removal_loop {A : Type} (h : A → triple) (l : list A) (g : graph)
    (n : nat) :
  (foldl (λ (a : graph * nat) (x : A),
            if decide (h x ∈ a.1) then (g_remove (h x) a.1, S a.2) else a)
         (g, n) l).1
  = g ∖ list_to_set (h <$> l).
Proof.
  revert g n. induction l as [|x l IH]; intros g n.
  - cbn. set_solver.
  - cbn [foldl fst snd]. destruct (decide (h x ∈ g)) as [Hin|Hnin].
    + rewrite IH. unfold g_remove. rewrite fmap_cons. set_solver.
    + rewrite IH. rewrite fmap_cons. set_solver.
Qed.

Lemma objects_as_filter (g : graph) (s p : node) :
  (list_to_set ((λ o, (s, p, o)) <$> objects g s p) : graph)
  = filter (λ t : triple, t.1.1 = s ∧ t.1.2 = p) g.
Proof.
  apply set_eq. intros [[s' p'] o']. rewrite elem_of_list_to_set, list_elem_of_fmap,
    elem_of_filter. cbn [fst snd]. split.
  - intros (o & [= -> -> ->] & Hin%elem_of_objects). done.
  - intros [[-> ->] Hin]. exists o'. by rewrite elem_of_objects.
Qed.

Lemma subjects_as_filter (g : graph) (p o : node) :
  (list_to_set ((λ s, (s, p, o)) <$> subjects g p o) : graph)
  = filter (λ t : triple, t.1.2 = p ∧ t.2 = o) g.
Proof.
  apply set_eq. intros [[s' p'] o']. rewrite elem_of_list_to_set, list_elem_of_fmap,
    elem_of_filter. cbn [fst snd]. split.
  - intros (s & [= -> -> ->] & Hin%elem_of_subjects). done.
  - intros [[-> ->] Hin]. exists s'. by rewrite elem_of_subjects.
Qed.

Lemma convert_to_annotation_graph (g : graph) (n : nat) (p : node) :
  (convert_to_annotation (g, n) p).1
  = {[ annotation_typing p ]} ∪ (g ∖ filter (object_only p) g).
Proof.
  unfold convert_to_annotation.
  set (a1 := foldl _ (g, n) OBJECT_ONLY_TYPES).
  assert (H1 : a1.1 = g ∖ list_to_set ((λ t, (p, RDF_type, t)) <$> OBJECT_ONLY_TYPES))
    by apply conditional_removal_loop.
  set (a2 := if decide ((p, RDF_type, OWL_AnnotationProperty) ∉ a1.1)
             then (g_add (p, RDF_type, OWL_AnnotationProperty) a1.1, S a1.2) else a1).
  assert (H2 : a2.1 = {[ annotation_typing p ]} ∪ a1.1).
  { subst a2. unfold annotation_typing.
    destruct (decide _) as [Hn|Hin]; cbn [fst snd]; [reflexivity|].
    apply dec_stable in Hin. set_solver. }
  destruct a2 as [g2 n2]. cbn [fst snd] in H2 |- *.
  rewrite (removal_loop (λ o, (p, OWL_inverseOf, o))). cbn [fst snd].
  rewrite (removal_loop (λ s, (s, OWL_inverseOf, p))). cbn [fst snd].
  rewrite (removal_loop (λ c, (p, OWL_propertyChainAxiom, c))). cbn [fst snd].
  rewrite !objects_as_filter, subjects_as_filter.
  clearbody a1. subst g2. rewrite H1. clear H1.
  pose proof (annotation_typing_kept p p) as Hk.
  apply set_eq. intros [[s q] o]. set_unfold. unfold object_only, annotation_typing in *.
  cbn [fst snd] in *.
  assert (HX : (∃ x, (s, q, o) = (p, RDF_type, x) ∧ x ∈ OBJECT_ONLY_TYPES)
               ↔ s = p ∧ q = RDF_type ∧ o ∈ OBJECT_ONLY_TYPES) by naive_solver.
  assert (HE : (s, q, o) = (p, RDF_type, OWL_AnnotationProperty)
               ↔ s = p ∧ q = RDF_type ∧ o = OWL_AnnotationProperty) by naive_solver.
  rewrite !HX, !HE. clear HX HE Hk.
  pose proof annotation_not_object_only. destruct type_not_inverse.
  destruct (decide (q = RDF_type)) as [->|];
    destruct (decide (o = OWL_AnnotationProperty)) as [->|]; tauto.
Qed.

Lemma convert_to_annotation_fold (g : graph) (l : list node) (D : gset node)
    (n : nat) :
  (foldl convert_to_annotation
         (set_map annotation_typing D
          ∪ (g ∖ filter (λ t, set_Exists (λ p, object_only p t) D) g), n) l).1
  = set_map annotation_typing (D ∪ list_to_set l)
    ∪ (g ∖ filter (λ t, set_Exists (λ p, object_only p t) (D ∪ list_to_set l)) g).
Proof.
  revert D n. induction l as [|p l IH]; intros D n.
  - cbn [foldl fst list_to_set]. replace (D ∪ ∅) with D by set_solver. reflexivity.
  - cbn [foldl].
    destruct (convert_to_annotation _ p) as [g1 n1] eqn:Hc.
    apply (f_equal fst) in Hc. rewrite convert_to_annotation_graph in Hc.
    cbn [fst] in Hc.
    assert (Hg1 : g1 = set_map annotation_typing (D ∪ {[ p ]})
                       ∪ (g ∖ filter (λ t, set_Exists (λ p, object_only p t)
                                                      (D ∪ {[ p ]})) g)).
    { rewrite <- Hc. clear Hc IH. apply set_eq. intros t.
      pose proof (annotation_typing_kept p) as Hk.
      unfold set_Exists. set_unfold. setoid_rewrite elem_of_union.
      setoid_rewrite elem_of_singleton. split.
      - intros [->|[[(q & -> & Hq)|[Hin Hno]] Hnp]].
        + left. exists p. split; [done | by right].
        + left. exists q. split; [done | by left].
        + right. split; [done|]. intros [(q & [Hq| ->] & Hoo) _].
          * apply Hno. split; [|done]. by exists q.
          * apply Hnp. split; [done|]. right. split; [done|].
            intros [(q & Hq & Hoo') _]. apply Hno. split; [|done]. by exists q.
      - intros [(q & -> & [Hq| ->])|[Hin Hno]].
        + right. split; [left; by exists q|]. intros [Hoo _]. by apply Hk in Hoo.
        + by left.
        + right. split.
          * right. split; [done|]. intros [(q & Hq & Hoo) _]. apply Hno.
            split; [|done]. exists q. split; [by left | done].
          * intros [Hoo _]. apply Hno. split; [|done]. exists p. split; [by right | done]. }
    rewrite Hg1, IH. cbn [list_to_set].
    replace (D ∪ {[ p ]} ∪ list_to_set l) with (D ∪ ({[ p ]} ∪ list_to_set l))
      by set_solver.
    reflexivity.
Qed.

Lemma elem_of_literal_preds (g : graph) (p : node) :
  p ∈ (list_to_set (omap (λ t : triple,
                            if is_uri t.1.2 && is_literal t.2 then Some t.1.2 else None)
                         (elements g)) : gset node)
  ↔ used_with_literal g p.
Proof.
  rewrite elem_of_list_to_set, list_elem_of_omap. unfold used_with_literal. split.
  - intros ([[s q] o] & Hin%elem_of_elements & Hsome). cbn [fst snd] in Hsome.
    destruct (is_uri q) eqn:Hq; [|discriminate].
    destruct (is_literal o) eqn:Ho; [|discriminate].
    injection Hsome as <-. split; [by rewrite Hq|]. exists s, o. by rewrite Ho.
  - intros [Hp (s & o & Hin & Ho)]. exists (s, p, o).
    split; [by apply elem_of_elements|]. cbn [fst snd].
    destruct (is_uri p); [|done]. by destruct (is_literal o).
Qed.

Lemma objectprop_pass_graph (g : graph) (t : triple) :
  t ∈ (deterministic_fix_objectprop_literals_to_annotation g).1
  ↔ (∃ p, (used_with_literal g p ∧ is_object_property_like g p)
          ∧ t = annotation_typing p)
    ∨ (t ∈ g ∧ ¬ ∃ p, (used_with_literal g p ∧ is_object_property_like g p)
                      ∧ object_only p t).
Proof.
  unfold deterministic_fix_objectprop_literals_to_annotation. cbv zeta.
  set (lp := list_to_set _ : gset node).
  assert (Hlp : ∀ p, p ∈ lp ↔ used_with_literal g p) by apply elem_of_literal_preds.
  clearbody lp.
  assert (Hconv : ∀ p, p ∈ filter (λ p, is_object_property_like g p) lp
                       ↔ used_with_literal g p ∧ is_object_property_like g p).
  { intros p. rewrite elem_of_filter, Hlp. tauto. }
  assert (Hnone : filter (λ p, is_object_property_like g p) lp = ∅ →
                  t ∈ g
                  ↔ (∃ p, (used_with_literal g p ∧ is_object_property_like g p)
                          ∧ t = annotation_typing p)
                    ∨ (t ∈ g ∧ ¬ ∃ p, (used_with_literal g p
                                        ∧ is_object_property_like g p)
                                      ∧ object_only p t)).
  { intros He. split.
    - intros Hin. right. split; [done|]. intros (p & Hp%Hconv & _).
      rewrite He in Hp. by apply not_elem_of_empty in Hp.
    - intros [(p & Hp%Hconv & _)|[Hin _]]; [|done].
      rewrite He in Hp. by apply not_elem_of_empty in Hp. }
  destruct (decide (lp = ∅)) as [He|_].
  { cbn [fst]. apply Hnone. rewrite He. apply set_eq. intros p.
    rewrite elem_of_filter. set_solver. }
  destruct (decide (_ = ∅)) as [He|_]; [cbn [fst]; by apply Hnone|].
  pose proof (convert_to_annotation_fold g
                (merge_sort (λ x y, String.le (node_str x) (node_str y))
                   (elements (filter (λ p, is_object_property_like g p) lp))) ∅ 0) as Hf.
  assert (H0 : set_map annotation_typing (∅ : gset node)
               ∪ (g ∖ filter (λ t, set_Exists (λ p, object_only p t) (∅ : gset node)) g)
               = g).
  { apply set_eq. intros x.
    rewrite elem_of_union, elem_of_map, elem_of_difference, elem_of_filter.
    unfold set_Exists. split.
    - intros [(q & _ & Hq)|[Hin _]]; [by apply not_elem_of_empty in Hq | done].
    - intros Hin. right. split; [done|].
      intros [(q & Hq & _) _]. by apply not_elem_of_empty in Hq. }
  rewrite H0 in Hf. rewrite Hf. clear Hf H0.
  assert (Hs : ∀ p, p ∈ (∅ ∪ list_to_set
                    (merge_sort (λ x y, String.le (node_str x) (node_str y))
                       (elements (filter (λ p, is_object_property_like g p) lp)))
                    : gset node)
                    ↔ used_with_literal g p ∧ is_object_property_like g p).
  { intros p. rewrite union_empty_l_L, elem_of_list_to_set, merge_sort_Permutation,
      elem_of_elements. apply Hconv. }
  revert Hs. generalize (∅ ∪ list_to_set
                    (merge_sort (λ x y, String.le (node_str x) (node_str y))
                       (elements (filter (λ p, is_object_property_like g p) lp)))
                    : gset node).
  intros C HC. unfold set_Exists. set_unfold. split.
  - intros [(p & -> & Hp%HC)|[Hin Hno]].
    + left. by exists p.
    + right. split; [done|]. intros (p & Hp%HC & Hoo). apply Hno. split; [|done].
      by exists p.
  - intros [(p & Hp%HC & ->)|[Hin Hno]].
    + left. by exists p.
    + right. split; [done|]. intros [(p & Hp%HC & Hoo) _]. apply Hno. by exists p.
Qed.

Lemma is_object_property_like_spec (g : graph) (p : node) :
  is_object_property_like g p
  ↔ (∃ t, t ∈ g ∧ object_only p t
          ∧ (t = (p, RDF_type, URIRef (OWL "ObjectProperty"))
             ∨ t.1.2 = OWL_inverseOf ∨ t.1.2 = OWL_propertyChainAxiom
             ∨ t = (p, RDF_type, OWL_TransitiveProperty))).
Proof.
  destruct object_types_in as [Hop Htr].
  unfold is_object_property_like.
  rewrite !orb_True, !negb_True, !bool_decide_spec. split.
  - intros [[[[H|H]|H]|H]|H].
    + exists (p, RDF_type, URIRef (OWL "ObjectProperty")). unfold object_only.
      cbn [fst snd]. tauto.
    + destruct (objects g p OWL_inverseOf) as [|o l] eqn:Ho; [done|].
      assert (Hin : o ∈ objects g p OWL_inverseOf) by (rewrite Ho; left).
      apply elem_of_objects in Hin. exists (p, OWL_inverseOf, o). unfold object_only.
      cbn [fst snd]. tauto.
    + destruct (subjects g OWL_inverseOf p) as [|s l] eqn:Hs; [done|].
      assert (Hin : s ∈ subjects g OWL_inverseOf p) by (rewrite Hs; left).
      apply elem_of_subjects in Hin. exists (s, OWL_inverseOf, p). unfold object_only.
      cbn [fst snd]. tauto.
    + destruct (objects g p OWL_propertyChainAxiom) as [|o l] eqn:Ho; [done|].
      assert (Hin : o ∈ objects g p OWL_propertyChainAxiom) by (rewrite Ho; left).
      apply elem_of_objects in Hin. exists (p, OWL_propertyChainAxiom, o).
      unfold object_only. cbn [fst snd]. tauto.
    + exists (p, RDF_type, OWL_TransitiveProperty). unfold object_only.
      cbn [fst snd]. tauto.
  - destruct type_not_inverse as [Hti Htc].
    intros ([[s q] o] & Hin & Hoo & Hk). unfold object_only in Hoo. cbn [fst snd] in *.
    destruct Hk as [[= -> -> ->]|[->|[->|[= -> -> ->]]]].
    + tauto.
    + destruct Hoo as [(_ & Hq & _)|[[-> _]|[[_ ->]|[_ Hq]]]].
      * by destruct Hti.
      * left. left. left. right. intros He.
        apply elem_of_objects in Hin. rewrite He in Hin. by apply elem_of_nil in Hin.
      * left. left. right. intros He.
        apply elem_of_subjects in Hin. rewrite He in Hin. by apply elem_of_nil in Hin.
      * exfalso. revert Hq. compute_done.
    + destruct Hoo as [(_ & Hq & _)|[[_ Hq]|[[Hq _]|[-> _]]]].
      * by destruct Htc.
      * exfalso. revert Hq. compute_done.
      * exfalso. revert Hq. compute_done.
      * left. right. intros He.
        apply elem_of_objects in Hin. rewrite He in Hin. by apply elem_of_nil in Hin.
    + tauto.
Qed.

Lemma objectprop_pass_post (g : graph) (p : node) :
  used_with_literal (deterministic_fix_objectprop_literals_to_annotation g).1 p →
  is_object_property_like (deterministic_fix_objectprop_literals_to_annotation g).1 p
  = false.
Proof.
  pose proof (objectprop_pass_graph g) as Hchar.
  set (g' := (deterministic_fix_objectprop_literals_to_annotation g).1) in *.
  clearbody g'. intros [Hp (s & o & Hin & Ho)].
  assert (Hused : used_with_literal g p).
  { split; [done|]. exists s, o. split; [|done].
    apply Hchar in Hin as [(q & _ & [= _ _ ->])|[Hin _]]; [destruct Ho | done]. }
  destruct (is_object_property_like g' p) eqn:Hlike; [exfalso|reflexivity].
  assert (Hl : is_object_property_like g' p) by (by rewrite Hlike).
  apply is_object_property_like_spec in Hl as (t & Ht & Hoo & Hkind).
  apply Hchar in Ht as [(q & _ & ->)|[Ht Hno]].
  - by apply annotation_typing_kept in Hoo.
  - apply Hno. exists p. split; [|done]. split; [done|].
    apply is_object_property_like_spec. by exists t.
Qed.

Lemma objectprop_pass_noop (g : graph) :
  (∀ p, used_with_literal g p → is_object_property_like g p = false) →
  deterministic_fix_objectprop_literals_to_annotation g = (g, 0).
Proof.
  intros Hpost. unfold deterministic_fix_objectprop_literals_to_annotation. cbv zeta.
  set (lp := list_to_set _ : gset node).
  assert (Hlp : ∀ p, p ∈ lp ↔ used_with_literal g p) by apply elem_of_literal_preds.
  clearbody lp.
  destruct (decide (lp = ∅)); [reflexivity|].
  rewrite decide_True; [reflexivity|].
  apply set_eq. intros p. rewrite elem_of_filter, Hlp. split; [|set_solver].
  intros [Hlike Hp%Hpost]. rewrite Hp in Hlike. destruct Hlike.
Qed.

(** ** Counting the edits of the conversion *)

Lemma size_add_fresh (X : graph) (t : triple) :
  t ∉ X → size ({[ t ]} ∪ X) = S (size X).
Proof. intros Ht. rewrite size_union, size_singleton by set_solver. lia. Qed.

Section EditCount.

Variable g : graph.

(** The number of triples by which [G] differs from [g]. *)
Let distance (G : graph) : nat := size (g ∖ G) + size (G ∖ g).

(** What the conversion keeps true of the graph it edits: it holds
    triples of [g] and annotation typings, and lacks only object-only
    triples of [g]. *)
Let edited (G : graph) : Prop :=
  (∀ t, t ∈ G → t ∈ g ∨ ∃ q, t = annotation_typing q)
  ∧ (∀ t, t ∈ g → t ∉ G → ∃ q, object_only q t).

Lemma edit_remove (G : graph) (t : triple) :
  edited G → t ∈ G → (∃ q, object_only q t) →
  edited (g_remove t G) ∧ distance (g_remove t G) = S (distance G).
Proof.
  intros [H1 H2] Hin Hoo. unfold g_remove.
  assert (Hg : t ∈ g).
  { destruct (H1 t Hin) as [?|[q ->]]; [done|].
    destruct Hoo as [q' Hoo]. by apply annotation_typing_kept in Hoo. }
  split; [split|].
  - intros t' [Ht' _]%elem_of_difference. by apply H1.
  - intros t' Hg' Hn. destruct (decide (t' = t)) as [->|Hne]; [done|].
    apply H2; [done|]. intros Ht'. apply Hn. set_solver.
  - unfold distance.
    assert (E1 : g ∖ (G ∖ {[ t ]}) = {[ t ]} ∪ g ∖ G).
    { apply set_eq. intros t'. rewrite elem_of_union, !elem_of_difference,
        elem_of_singleton. destruct (decide (t' = t)) as [->|]; [tauto|]. tauto. }
    assert (E2 : (G ∖ {[ t ]}) ∖ g = G ∖ g).
    { apply set_eq. intros t'. rewrite !elem_of_difference, elem_of_singleton.
      split; [tauto|]. intros [? ?]. split; [|done]. split; [done|]. by intros ->. }
    rewrite E1, E2, size_add_fresh; [lia|].
    intros [_ ?]%elem_of_difference. done.
Qed.

Lemma edit_add (G : graph) (p : node) :
  edited G → annotation_typing p ∉ G →
  edited (g_add (annotation_typing p) G)
  ∧ distance (g_add (annotation_typing p) G) = S (distance G).
Proof.
  intros [H1 H2] Hnin. unfold g_add.
  assert (Hg : annotation_typing p ∉ g).
  { intros Hg. destruct (H2 _ Hg Hnin) as [q Hoo]. by apply annotation_typing_kept in Hoo. }
  split; [split|].
  - intros t' [->%elem_of_singleton|Ht']%elem_of_union; [right; by exists p | by apply H1].
  - intros t' Hg' Hn. apply H2; [done|]. set_solver.
  - unfold distance.
    assert (E1 : g ∖ ({[ annotation_typing p ]} ∪ G) = g ∖ G).
    { apply set_eq. intros t'. rewrite !elem_of_difference, elem_of_union,
        elem_of_singleton. split; [tauto|]. intros [? ?]. split; [done|].
      intros [->|?]; done. }
    assert (E2 : ({[ annotation_typing p ]} ∪ G) ∖ g
                 = {[ annotation_typing p ]} ∪ G ∖ g).
    { apply set_eq. intros t'. rewrite !elem_of_union, !elem_of_difference,
        elem_of_union, elem_of_singleton. split; [tauto|].
      intros [->|[? ?]]; [split; [by left | done] | tauto]. }
    rewrite E1, E2, size_add_fresh; [lia|].
    intros [? _]%elem_of_difference. done.
Qed.

Lemma edit_removal_loop {A : Type} (h : A → triple) (l : list A) (G : graph) (n : nat) :
  edited G → NoDup (h <$> l) → (∀ x, x ∈ l → h x ∈ G ∧ ∃ q, object_only q (h x)) →
  let r := foldl (λ (a : graph * nat) (x : A), (g_remove (h x) a.1, S a.2)) (G, n) l in
  edited r.1 ∧ r.2 + distance G = n + distance r.1.
Proof.
  revert G n. induction l as [|x l IH]; intros G n HG Hnd Hall r; subst r.
  - cbn [foldl fst snd]. split; [done | lia].
  - cbn [foldl fst snd]. rewrite fmap_cons in Hnd. apply NoDup_cons in Hnd as [Hx Hnd].
    destruct (Hall x) as [Hin Hoo]; [left|].
    destruct (edit_remove G (h x) HG Hin Hoo) as [HG' Hd].
    destruct (IH (g_remove (h x) G) (S n) HG' Hnd) as [I1 I2].
    + intros y Hy. destruct (Hall y) as [Hyin Hyoo]; [by right|]. split; [|done].
      unfold g_remove. apply elem_of_difference. split; [done|].
      intros Heq%elem_of_singleton. apply Hx. rewrite <- Heq.
      apply list_elem_of_fmap. by exists y.
    + cbv zeta in I1, I2. split; [exact I1|]. lia.
Qed.

Lemma edit_conditional_loop {A : Type} (h : A → triple) (l : list A) (G : graph)
    (n : nat) :
  edited G → (∀ x, x ∈ l → ∃ q, object_only q (h x)) →
  let r := foldl (λ (a : graph * nat) (x : A),
                    if decide (h x ∈ a.1) then (g_remove (h x) a.1, S a.2) else a)
                 (G, n) l in
  edited r.1 ∧ r.2 + distance G = n + distance r.1.
Proof.
  revert G n. induction l as [|x l IH]; intros G n HG Hall r; subst r.
  - cbn [foldl fst snd]. split; [done | lia].
  - cbn [foldl fst snd]. destruct (decide (h x ∈ G)) as [Hin|Hnin].
    + destruct (edit_remove G (h x) HG Hin) as [HG' Hd]; [apply Hall; left|].
      destruct (IH (g_remove (h x) G) (S n) HG') as [I1 I2];
        [intros y Hy; apply Hall; by right|].
      cbv zeta in I1, I2. split; [exact I1|]. lia.
    + apply IH; [done|]. intros y Hy. apply Hall. by right.
Qed.

Lemma subject_triples_NoDup (G : graph) p o :
  NoDup ((λ s, (s, p, o)) <$> subjects G p o).
Proof.
  apply NoDup_fmap_2; [by intros s s' [= ->]|].
  unfold subjects. rewrite (omap_as_filter (λ t : triple, t.1.2 = p ∧ t.2 = o) (λ t, t.1.1)).
  apply NoDup_fmap_2_strong.
  - intros [[s1 p1] o1] [[s2 p2] o2] [[??] _]%list_elem_of_filter [[??] _]%list_elem_of_filter ?.
    simplify_eq/=. done.
  - apply NoDup_filter, NoDup_elements.
Qed.

Lemma edit_convert (G : graph) (n : nat) (p : node) :
  edited G →
  let r := convert_to_annotation (G, n) p in
  edited r.1 ∧ r.2 + distance G = n + distance r.1.
Proof.
  intros HG r. subst r. unfold convert_to_annotation.
  destruct (edit_conditional_loop (λ t, (p, RDF_type, t)) OBJECT_ONLY_TYPES G n HG)
    as [H1 D1].
  { intros t Ht. exists p. left. cbn [fst snd]. done. }
  cbv zeta in H1, D1.
  set (a1 := foldl _ (G, n) OBJECT_ONLY_TYPES) in *. clearbody a1.
  set (a2 := if decide ((p, RDF_type, OWL_AnnotationProperty) ∉ a1.1)
             then (g_add (p, RDF_type, OWL_AnnotationProperty) a1.1, S a1.2) else a1).
  assert (H2 : edited a2.1 ∧ a2.2 + distance G = n + distance a2.1).
  { subst a2. destruct (decide _) as [Hn|_]; [|done]. cbn [fst snd].
    destruct (edit_add a1.1 p H1 Hn) as [H2 D2].
    unfold annotation_typing in *. split; [exact H2|]. lia. }
  clearbody a2. destruct a2 as [g2 n2]. cbn [fst snd] in H2 |- *.
  destruct H2 as [H2 D2].
  destruct (edit_removal_loop (λ o, (p, OWL_inverseOf, o)) (objects g2 p OWL_inverseOf)
              g2 n2 H2) as [H3 D3].
  { apply chain_triples_NoDup. }
  { intros o Ho%elem_of_objects. split; [done|]. exists p. right. left. done. }
  cbv zeta in H3, D3.
  set (a3 := foldl _ (g2, n2) (objects g2 p OWL_inverseOf)) in *. clearbody a3.
  destruct a3 as [g3 n3]. cbn [fst snd] in H3, D3 |- *.
  destruct (edit_removal_loop (λ s, (s, OWL_inverseOf, p)) (subjects g3 OWL_inverseOf p)
              g3 n3 H3) as [H4 D4].
  { apply subject_triples_NoDup. }
  { intros s Hs%elem_of_subjects. split; [done|]. exists p. right. right. left. done. }
  cbv zeta in H4, D4.
  set (a4 := foldl _ (g3, n3) (subjects g3 OWL_inverseOf p)) in *. clearbody a4.
  destruct a4 as [g4 n4]. cbn [fst snd] in H4, D4 |- *.
  destruct (edit_removal_loop (λ c, (p, OWL_propertyChainAxiom, c))
              (objects g4 p OWL_propertyChainAxiom) g4 n4 H4) as [H5 D5].
  { apply chain_triples_NoDup. }
  { intros c Hc%elem_of_objects. split; [done|]. exists p. right. right. right. done. }
  cbv zeta in H5, D5. split; [exact H5|]. lia.
Qed.

Lemma edit_convert_all (l : list node) (G : graph) (n : nat) :
  edited G →
  let r := foldl convert_to_annotation (G, n) l in
  edited r.1 ∧ r.2 + distance G = n + distance r.1.
Proof.
  revert G n. induction l as [|p l IH]; intros G n HG r; subst r.
  - cbn [foldl fst snd]. split; [done | lia].
  - cbn [foldl]. destruct (edit_convert G n p HG) as [H1 D1]. cbv zeta in H1, D1.
    destruct (convert_to_annotation (G, n) p) as [G1 n1]. cbn [fst snd] in *.
    destruct (IH G1 n1 H1) as [H2 D2]. cbv zeta in H2, D2. split; [exact H2|]. lia.
Qed.

Lemma objectprop_pass_count :
  (deterministic_fix_objectprop_literals_to_annotation g).2
  = size (g ∖ (deterministic_fix_objectprop_literals_to_annotation g).1)
    + size ((deterministic_fix_objectprop_literals_to_annotation g).1 ∖ g).
Proof.
  assert (H0 : size (g ∖ g) + size (g ∖ g) = 0).
  { replace (g ∖ g) with (∅ : graph) by set_solver. by rewrite size_empty. }
  unfold deterministic_fix_objectprop_literals_to_annotation. cbv zeta.
  destruct (decide (_ = ∅)); [cbn [fst snd]; by rewrite H0|].
  destruct (decide (_ = ∅)); [cbn [fst snd]; by rewrite H0|].
  match goal with
  | |- context [foldl convert_to_annotation (g, 0) ?l] =>
      destruct (edit_convert_all l g 0) as [_ D]
  end.
  { split; [by left | done]. }
  cbv zeta in D. unfold distance in D. rewrite H0 in D. lia.
Qed.

End EditCount.

(** X8. The conversion of literal-valued object properties. A predicate is
    converted when it is an IRI used with a literal object and is typed
    owl:ObjectProperty or owl:TransitiveProperty, or has an inverse-of
    axiom or a property chain. The pass adds the annotation-property typing
    of each converted predicate and drops its object-only triples, and
    nothing else; the count it returns is the number of triples by which
    the graph changed; afterwards no predicate used with a literal is
    object-property-like, so a second run changes nothing and counts 0. *)
Theorem objectprop_literals_converted (g : graph) :
  let g' := (deterministic_fix_objectprop_literals_to_annotation g).1 in
  let converted := λ p, used_with_literal g p ∧ is_object_property_like g p in
  (∀ t, t ∈ g' ↔ (∃ p, converted p ∧ t = annotation_typing p)
                 ∨ (t ∈ g ∧ ¬ ∃ p, converted p ∧ object_only p t))
  ∧ (deterministic_fix_objectprop_literals_to_annotation g).2
    = size (g ∖ g') + size (g' ∖ g)
  ∧ (∀ p, used_with_literal g' p → is_object_property_like g' p = false)
  ∧ deterministic_fix_objectprop_literals_to_annotation g' = (g', 0).
Proof.
  intros g' converted. split; [apply objectprop_pass_graph|].
  split; [apply objectprop_pass_count|].
  split; [apply objectprop_pass_post|].
  apply objectprop_pass_noop, objectprop_pass_post.
Qed.

(** ** The normalizer as a whole *)

Lemma date_pass_keeps_sp (g : graph) (t : triple) :
  t ∈ (deterministic_fix_xsd_date_to_datetime g).1 → ∃ t0, t0 ∈ g ∧ t0.1 = t.1.
Proof.
  rewrite date_pass_eq. cbn [fst].
  assert (Hmid : ∀ t, t ∈ (g ∖ filter (λ t : triple, is_xsd_date_uri t) g
                           ∪ set_map date_uri_image
                               (filter (λ t : triple, is_xsd_date_uri t) g) : graph) →
                      ∃ t0, t0 ∈ g ∧ t0.1 = t.1).
  { intros t' [[Hin _]%elem_of_difference|(t0 & -> & [_ Hin]%elem_of_filter)%elem_of_map]%elem_of_union.
    - by exists t'.
    - exists t0. by destruct t0 as [[s p] o]. }
  intros [[Hin _]%elem_of_difference|(t0 & -> & [_ Hin]%elem_of_filter)%elem_of_map]%elem_of_union.
  - by apply Hmid.
  - exists t0. by destruct t0 as [[s p] o].
Qed.

Lemma date_free_spec (t : triple) :
  is_xsd_date_uri t = false ∧ is_xsd_date_literal t = false
  ↔ t.2 ≠ URIRef XSD_date ∧ ∀ lex lang, t.2 ≠ Literal lex (Some XSD_date) lang.
Proof.
  unfold is_xsd_date_uri, is_xsd_date_literal. rewrite bool_decide_eq_false.
  destruct t as [[s p] [i|b|lex [dt|] lang]]; cbn [snd];
    try (split; [intros [Hu _]; split; [exact Hu | by intros ??] | by intros [Hu _]]).
  rewrite bool_decide_eq_false. split.
  - intros [Hu Hd]. split; [exact Hu|]. intros lex' lang' [= _ -> _]. by apply Hd.
  - intros [Hu Hd]. split; [exact Hu|]. intros ->. by eapply Hd.
Qed.

Lemma is_object_property_like_mono (g g' : graph) (p : node) :
  g' ⊆ g → is_object_property_like g p = false → is_object_property_like g' p = false.
Proof.
  intros Hsub Hg. destruct (is_object_property_like g' p) eqn:Hg'; [|reflexivity].
  assert (Hl : is_object_property_like g' p) by (by rewrite Hg').
  apply is_object_property_like_spec in Hl as (t & Ht & Hoo & Hk).
  assert (Hl : is_object_property_like g p).
  { apply is_object_property_like_spec. exists t. split; [by apply Hsub | done]. }
  rewrite Hg in Hl. destruct Hl.
Qed.

Lemma normalized_subgraph (g g' : graph) : g' ⊆ g → normalized g → normalized g'.
Proof.
  intros Hsub [Hpt Hopl]. split.
  - intros t Ht. by apply Hpt, Hsub.
  - intros p [Hp (s & o & Hin & Ho)]. apply (is_object_property_like_mono g); [done|].
    apply Hopl. split; [done|]. exists s, o. split; [by apply Hsub | done].
Qed.

Lemma to_string_image_plain (t : triple) :
  is_xsd_date_uri (to_string_image t) = false
  ∧ is_xsd_date_literal (to_string_image t) = false
  ∧ (to_string_image t).1 = t.1.
Proof.
  destruct t as [[s p] o]. unfold is_xsd_date_uri, is_xsd_date_literal, to_string_image.
  cbn [fst snd]. split; [by apply bool_decide_eq_false|].
  split; [|reflexivity]. apply bool_decide_eq_false. compute_done.
Qed.

(** The passes in the order of the pipeline, from the graph after the
    imports were handled. *)
Lemma passes_normalize (g1 : graph) :
  let g2 := (deterministic_fix_xsd_date_to_datetime g1).1 in
  let g3 := (deterministic_fix_objectprop_literals_to_annotation g2).1 in
  let g4 := (deterministic_remove_rdf_reification_triples g3).1 in
  let g5 := (deterministic_fix_unsupported_datatypes_to_string g4).1 in
  normalized g5
  ∧ ((∀ t, t ∈ g1 → t.1.2 ≠ OWL_imports) → ∀ t, t ∈ g5 → t.1.2 ≠ OWL_imports).
Proof.
  intros g2 g3 g4 g5.
  (* the date pass *)
  assert (H2 : ∀ t, t ∈ g2 →
                    (is_xsd_date_uri t = false ∧ is_xsd_date_literal t = false)
                    ∧ ∃ t0, t0 ∈ g1 ∧ t0.1 = t.1).
  { intros [[s p] o] Ht. split; [|by apply date_pass_keeps_sp].
    apply date_free_spec. by apply (date_pass_leaves_no_date g1 s p o). }
  clearbody g2.
  (* the conversion to annotation properties *)
  assert (H3 : ∀ t, t ∈ g3 → t ∈ g2 ∨ ∃ p, t = annotation_typing p).
  { intros t [(p & _ & ->)|[Ht _]]%objectprop_pass_graph; [right; by exists p | by left]. }
  assert (H3opl : ∀ p, used_with_literal g3 p → is_object_property_like g3 p = false)
    by apply objectprop_pass_post.
  clearbody g3.
  (* the reification cleanup *)
  assert (H4 : ∀ t, t ∈ g4 ↔ t ∈ g3 ∧ ¬ is_reification t).
  { intros t. subst g4. rewrite reification_pass_eq. cbn [fst].
    rewrite elem_of_difference, elem_of_filter. tauto. }
  clearbody g4.
  (* the coercion to strings *)
  assert (H5 : ∀ t, t ∈ g5 →
                    has_unsupported_datatype t = false
                    ∧ ((t ∈ g4)
                       ∨ ∃ t0, t0 ∈ g4 ∧ is_literal t0.2 ∧ t = to_string_image t0)).
  { intros t. subst g5. rewrite unsupported_pass_eq. cbn [fst].
    intros [[Hin Hno]%elem_of_difference|(t0 & -> & [Hu Hin]%elem_of_filter)%elem_of_map]%elem_of_union.
    - split; [|by left]. destruct (has_unsupported_datatype t) eqn:Hu; [|reflexivity].
      destruct Hno. apply elem_of_filter. split; [by rewrite Hu | done].
    - split; [apply to_string_image_supported|]. right. exists t0.
      split; [done|]. split; [|done].
      apply unsupported_inv in Hu as (s & p & lex & dt & lang & -> & _). done. }
  clearbody g5.
  assert (Hann : ∀ p, (is_xsd_date_uri (annotation_typing p) = false
                       ∧ is_xsd_date_literal (annotation_typing p) = false)
                      ∧ (annotation_typing p).1.2 ≠ OWL_imports).
  { intros p. unfold annotation_typing, is_xsd_date_uri, is_xsd_date_literal.
    cbn [fst snd]. split; [split; [|reflexivity]|]; [apply bool_decide_eq_false|];
      compute_done. }
  assert (H4' : ∀ t, t ∈ g4 →
                     ¬ is_reification t
                     ∧ (is_xsd_date_uri t = false ∧ is_xsd_date_literal t = false)).
  { intros t [[Ht|[p ->]]%H3 Hr]%H4; (split; [exact Hr|]).
    - by apply H2. - apply Hann. }
  split; [split|].
  - intros t [Hu [Ht|(t0 & Ht0 & _ & ->)]]%H5.
    + destruct (H4' t Ht) as [Hr [Hdu Hdl]].
      exact (conj Hr (conj Hu (conj Hdu Hdl))).
    + destruct (H4' t0 Ht0) as [Hr _].
      destruct (to_string_image_plain t0) as (Hdu & Hdl & Hsp).
      split; [|exact (conj Hu (conj Hdu Hdl))].
      unfold is_reification in *. rewrite Hsp. exact Hr.
  - intros p [Hp (s & o & [_ Hin]%H5 & Ho)].
    assert (Hused : used_with_literal g4 p).
    { split; [done|]. destruct Hin as [Hin|(t0 & Ht0 & Hlit & Heq)].
      - by exists s, o.
      - destruct t0 as [[s0 p0] o0]. injection Heq as -> -> _. by exists s0, o0. }
    assert (H4opl : is_object_property_like g4 p = false).
    { apply (is_object_property_like_mono g3); [intros t Ht; by apply H4|].
      apply H3opl. destruct Hused as [_ (s' & o' & Hin'%H4 & Ho')].
      split; [done|]. exists s', o'. tauto. }
    destruct (is_object_property_like g5 p) eqn:Hlike; [exfalso|reflexivity].
    assert (Hl : is_object_property_like g5 p) by (by rewrite Hlike).
    apply is_object_property_like_spec in Hl as (t & [_ Ht]%H5 & Hoo & Hk).
    assert (Hl : is_object_property_like g4 p); [|by rewrite H4opl in Hl].
    apply is_object_property_like_spec.
    destruct Ht as [Ht|(t0 & Ht0 & Hlit & ->)]; [by exists t|].
    exists t0. split; [done|]. destruct t0 as [[s0 p0] o0].
    unfold object_only, to_string_image in *. cbn [fst snd] in *.
    destruct type_not_inverse as [Hti Htc].
    destruct Hk as [[= _ _ _]|[->|[->|[= _ _ _]]]].
    + destruct Hoo as [(_ & Hq & _)|[[-> _]|[[_ <-]|[_ Hq]]]].
      * by destruct Hti.
      * split; [tauto|]. tauto.
      * destruct Hp.
      * exfalso. revert Hq. compute_done.
    + destruct Hoo as [(_ & Hq & _)|[[_ Hq]|[[Hq _]|[-> _]]]].
      * by destruct Htc.
      * exfalso. revert Hq. compute_done.
      * exfalso. revert Hq. compute_done.
      * split; [tauto|]. tauto.
  - intros Himp t [_ [Ht|(t0 & Ht0 & _ & ->)]]%H5.
    + apply H4 in Ht as [[Ht|[p ->]]%H3 _]; [|apply Hann].
      apply H2 in Ht as [_ (t0 & Ht0 & Heq)]. rewrite <- Heq. by apply Himp.
    + destruct (to_string_image_plain t0) as (_ & _ & ->).
      apply H4 in Ht0 as [[Ht|[p ->]]%H3 _]; [|apply Hann].
      apply H2 in Ht as [_ (t1 & Ht1 & Heq)]. rewrite <- Heq. by apply Himp.
Qed.

Lemma normalized_fixpoint (g : graph) :
  normalized g →
  deterministic_fix_xsd_date_to_datetime g = (g, 0)
  ∧ deterministic_fix_objectprop_literals_to_annotation g = (g, 0)
  ∧ deterministic_remove_rdf_reification_triples g = (g, 0)
  ∧ deterministic_fix_unsupported_datatypes_to_string g = (g, 0).
Proof.
  intros [Hpt Hopl]. split; [|split; [|split]].
  - apply date_pass_fixpoint. intros s p o Hin.
    destruct (Hpt _ Hin) as (_ & _ & Hdu & Hdl).
    exact (proj1 (date_free_spec (s, p, o)) (conj Hdu Hdl)).
  - by apply objectprop_pass_noop.
  - rewrite reification_pass_eq.
    assert (He : filter is_reification g = ∅).
    { apply set_eq. intros t. rewrite elem_of_filter. split; [|set_solver].
      intros [Hr Hin]. by destruct (Hpt _ Hin) as [Hn _]. }
    rewrite He, size_empty. f_equal. set_solver.
  - rewrite unsupported_pass_eq.
    rewrite no_unsupported_filter by (intros t Hin; apply (Hpt _ Hin)).
    rewrite size_empty. f_equal. set_solver.
Qed.

Lemma no_imports_fixpoint (g : graph) :
  (∀ t, t ∈ g → t.1.2 ≠ OWL_imports) → strip_owl_imports g = (g, 0).
Proof.
  intros Hno. rewrite strip_owl_imports_eq.
  assert (He : filter (λ t : triple, t.1.2 = OWL_imports) g = ∅).
  { apply set_eq. intros t. rewrite elem_of_filter. split; [|set_solver].
    intros [Hr Hin]. by destruct (Hno _ Hin). }
  rewrite He, size_empty. f_equal. set_solver.
Qed.

Section PipelineProofs.

Variable hermit : graph → option (Z * string * string).

Lemma hermit_loop_subgraph loops g :
  match hermit_loop hermit loops g with
  | Ok o => final_graph o ⊆ g
  | Raise _ => True
  end.
Proof.
  revert g. induction loops as [|loops IH]; intros g;
    [cbn [hermit_loop final_graph]; reflexivity|].
  rewrite hermit_loop_S.
  destruct (hermit g) as [[[rc out] err]|]; [|exact I].
  destruct (run_hermit_verdict out err) as [[|]|];
    [cbn [final_graph]; reflexivity..|].
  destruct (classify_non_simple_issue _) as [issue|];
    [|cbn [final_graph]; reflexivity].
  assert (Hsub : (deterministic_fix_non_simple g issue).1 ⊆ g).
  { unfold deterministic_fix_non_simple.
    rewrite (proj1 (remove_non_simple_causes_eq g _)). set_solver. }
  destruct (_ <=? 0); [exact Hsub|].
  specialize (IH (deterministic_fix_non_simple g issue).1).
  destruct (hermit_loop hermit loops _) as [o|e]; [|exact I].
  cbn [final_graph]. set_solver.
Qed.

Lemma hermit_loop_answered loops g :
  (∀ g', hermit g' ≠ None) → ∃ o, hermit_loop hermit loops g = Ok o.
Proof.
  intros Hans. revert g. induction loops as [|loops IH]; intros g;
    [cbn [hermit_loop]; by eexists|].
  rewrite hermit_loop_S. specialize (Hans g).
  destruct (hermit g) as [[[rc out] err]|]; [|done].
  destruct (run_hermit_verdict out err) as [[|]|]; [by eexists..|].
  destruct (classify_non_simple_issue _) as [issue|]; [|by eexists].
  destruct (_ <=? 0); [by eexists|].
  destruct (IH (deterministic_fix_non_simple g issue).1) as [o ->]. by eexists.
Qed.

(** X9. The graph the deterministic pipeline ends with, the one it then
    serializes to the output file, is in normal form whatever HermiT
    answered: it has no reification triple, no literal of a datatype
    outside the allow-list, no xsd:date term, no predicate used with a
    literal that still looks like an object property, and no owl:imports
    triple when imports are disabled; each normalizer pass run on it again
    changes nothing and counts 0. *)
Theorem pipeline_output_is_normalized (g0 : graph) (disable_imports : bool)
    (max_loops : nat) (o : loop_outcome) :
  run_deterministic_pipeline hermit g0 disable_imports max_loops = Ok o →
  let g := final_graph o in
  normalized g
  ∧ (disable_imports = true →
     (∀ t, t ∈ g → t.1.2 ≠ OWL_imports) ∧ strip_owl_imports g = (g, 0))
  ∧ deterministic_fix_xsd_date_to_datetime g = (g, 0)
  ∧ deterministic_fix_objectprop_literals_to_annotation g = (g, 0)
  ∧ deterministic_remove_rdf_reification_triples g = (g, 0)
  ∧ deterministic_fix_unsupported_datatypes_to_string g = (g, 0).
Proof.
  unfold run_deterministic_pipeline. cbv zeta.
  set (g1 := if disable_imports then (strip_owl_imports g0).1 else g0).
  destruct (passes_normalize g1) as [Hnorm Himp]. cbv zeta in Hnorm, Himp.
  assert (H1 : disable_imports = true → ∀ t, t ∈ g1 → t.1.2 ≠ OWL_imports).
  { intros -> t. subst g1. rewrite strip_owl_imports_eq. cbn [fst].
    rewrite elem_of_difference, elem_of_filter. tauto. }
  clearbody g1.
  set (g5 := (deterministic_fix_unsupported_datatypes_to_string _).1) in *.
  clearbody g5.
  pose proof (hermit_loop_subgraph max_loops g5) as Hloop.
  intros Hrun. rewrite Hrun in Hloop.
  assert (Hn : normalized (final_graph o)) by (by eapply normalized_subgraph).
  split; [exact Hn|]. split; [|by apply normalized_fixpoint].
  intros Hd.
  assert (Hno : ∀ t, t ∈ final_graph o → t.1.2 ≠ OWL_imports).
  { intros t Ht. apply Himp; [by apply H1 | by apply Hloop]. }
  split; [exact Hno | by apply no_imports_fixpoint].
Qed.

End PipelineProofs.

Lemma pipeline_output_is_normalized_witness :
  ∃ o, run_deterministic_pipeline ex_hermit_non_simple ex_transitive_graph true
         HERMIT_MAX_LOOPS = Ok o
       ∧ normalized (final_graph o).
Proof.
  unfold run_deterministic_pipeline. cbv zeta.
  match goal with
  | |- ∃ o, hermit_loop _ ?n ?g = Ok o ∧ _ =>
      destruct (hermit_loop_answered ex_hermit_non_simple n g) as [o Ho];
        [discriminate|]
  end.
  exists o. split; [exact Ho|].
  exact (proj1 (pipeline_output_is_normalized ex_hermit_non_simple
                  ex_transitive_graph true HERMIT_MAX_LOOPS o Ho)).
Defined.

(** ** The files of the patch loop *)

Section LoopFiles.

Variable json_loads : string → option json.
Variable send_prompt : string → string → string → option string.
Variable rdflib_Literal_of : json → result node.
Variable robot_reason : files → string → Z * string * string.
Variable robot_explain : files → string → nat → option (string * string).
Variable make_prompt : string → string → gset string → string.
Variables (target_iris : gset string) (out_dir : string).
Variables (max_robot_explanations : nat) (max_iterations : Z).
Variable evidence_max_triples : nat.

Notation loop := (patch_loop json_loads send_prompt rdflib_Literal_of robot_reason
                    robot_explain make_prompt target_iris out_dir
                    max_robot_explanations max_iterations evidence_max_triples).

Notation patch_file n := (out_dir +:+ "/patch_" +:+ fmt_03d n +:+ ".json").
Notation iter_file n := (out_dir +:+ "/iter_" +:+ fmt_03d n +:+ ".ttl").

Lemma apply_patch_ok_files in_ttl out_ttl patch fs u fs' :
  apply_patch_to_ttl rdflib_Literal_of in_ttl out_ttl patch fs = (Ok u, fs') →
  ∃ g', fs' = <[ out_ttl := TurtleFile g' ]> fs.
Proof.
  unfold apply_patch_to_ttl.
  destruct (validate_patch_one_op patch); [|discriminate].
  destruct (load_turtle_graph fs in_ttl); [|discriminate].
  destruct (apply_op _ _ _) as [g'|]; [|discriminate].
  intros [= _ <-]. by exists g'.
Qed.

Lemma patch_loop_files_inv left it current hist fs started :
  it = S (length hist) → started = length hist →
  match loop left it current hist fs started with
  | (r, fs', started') =>
      started ≤ started'
      ∧ (∀ path, fs' !! path = fs !! path
                 ∨ ∃ n, it ≤ n ≤ started' ∧ (path = patch_file n ∨ path = iter_file n))
      ∧ match r with
        | Ok res =>
            (final_ontology res = current ∧ history res = hist ∧ fs' = fs)
            ∨ (length hist < length (history res)
               ∧ final_ontology res = iter_file (length (history res))
               ∧ (∃ rec, last (history res) = Some rec
                         ∧ ontology_path rec = final_ontology res)
               ∧ ∃ g, load_turtle_graph fs' (final_ontology res) = Ok g)
        | Raise _ => True
        end
  end.
Proof.
  revert it current hist fs started.
  induction left as [|left IH]; intros it current hist fs started -> ->.
  - cbn [patch_loop]. destruct (robot_reason_status robot_reason fs current) as [st diag].
    split; [lia|]. split; [by left|]. left. by cbn.
  - cbn [patch_loop]. destruct (robot_reason_status robot_reason fs current) as [st diag].
    destruct (decide (st = "coherent")).
    { split; [lia|]. split; [by left|]. left. by cbn. }
    destruct (decide (st = "error")).
    { split; [lia|]. split; [by left|]. left. by cbn. }
    destruct (robot_explain fs current max_robot_explanations) as [[mode md]|];
      [|split; [lia|]; split; [by left | done]].
    destruct (build_targeted_evidence fs current target_iris evidence_max_triples)
      as [evidence|]; [|split; [lia|]; split; [by left | done]].
    destruct (openrouter_chat_json json_loads send_prompt _ _) as [patch|];
      [|split; [lia|]; split; [by left | done]].
    set (k := S (length hist)).
    destruct (apply_patch_to_ttl rdflib_Literal_of current (iter_file k) patch
                (<[ patch_file k := JsonFile patch ]> fs)) as [[u|e] fs2] eqn:Happ.
    + apply apply_patch_ok_files in Happ as [g' ->].
      match goal with
      | |- context [loop left ?it' ?cur' (hist ++ [?r]) ?fs2 ?s'] =>
          specialize (IH it' cur' (hist ++ [r]) fs2 s');
          destruct (loop left it' cur' (hist ++ [r]) fs2 s') as [[r' fs'] started'];
          set (record := r) in *
      end.
      rewrite length_app in IH. cbn [length] in IH.
      destruct IH as (Hst & Hframe & Hres); [subst k; lia | lia |].
      split; [lia|]. split.
      * intros path. destruct (Hframe path) as [Heq|(m & Hm & Hp)].
        -- rewrite Heq.
           destruct (decide (path = iter_file k)) as [->|Hne1];
             [right; exists k; split; [subst k; lia | by right]|].
           rewrite lookup_insert_ne by done.
           destruct (decide (path = patch_file k)) as [->|Hne2];
             [right; exists k; split; [subst k; lia | by left]|].
           rewrite lookup_insert_ne by done. by left.
        -- right. exists m. split; [subst k; lia | done].
      * destruct r' as [res|]; [|done]. right.
        destruct Hres as [(Hfin & Hhist & ->)|(Hlen & Hfin & Hlast & Hload)].
        -- rewrite Hhist, Hfin, length_app, last_snoc. cbn [length].
           split; [lia|]. split; [by rewrite Nat.add_1_r|].
           split; [by exists record|]. exists g'.
           unfold load_turtle_graph. by rewrite lookup_insert_eq.
        -- split; [lia|]. done.
    + apply apply_patch_raise_keeps_files in Happ as ->.
      split; [lia|]. split; [|done]. intros path.
      destruct (decide (path = patch_file k)) as [->|Hne];
        [right; exists k; split; [subst k; lia | by left]|].
      rewrite lookup_insert_ne by done. by left.
Qed.

End LoopFiles.

(** ** Lexical forms that end with a line feed *)

(** X11. The pattern of the date pass ends with [$], which also matches
    before a line feed that ends the string. For a date-only lexical form
    followed by a line feed the rewritten form is the date with [T00:00:00]
    and the line feed is gone; with a suffix [Z] or [z] before the line feed
    the suffix is gone as well, so the zone is lost; with a numeric offset
    the offset and the line feed are both kept. *)
Theorem date_trailing_line_feed (d : string) :
  date_shape d →
  date_new_lex (d +:+ Py.newline) = d +:+ "T00:00:00"
  ∧ date_new_lex (d +:+ "Z" +:+ Py.newline) = d +:+ "T00:00:00"
  ∧ date_new_lex (d +:+ "z" +:+ Py.newline) = d +:+ "T00:00:00"
  ∧ ∀ tz, offset_shape tz →
          date_new_lex (d +:+ tz +:+ Py.newline)
          = d +:+ "T00:00:00" +:+ tz +:+ Py.newline.
Proof.
  intros Hs. unfold Py.newline.
  do 10 (destruct d as [|? d]; [destruct Hs|]). destruct d; [|destruct Hs].
  unfold date_shape in Hs. split_shape Hs. subst.
  split; [|split; [|split]].
  - lex_case.
  - lex_case.
  - lex_case.
  - intros tz Htz.
    do 6 (destruct tz as [|? tz]; [destruct Htz|]). destruct tz; [|destruct Htz].
    unfold offset_shape in Htz. split_shape Htz.
    match goal with H : _ ∨ _ |- _ => destruct H end; subst; lex_case.
Qed.

Lemma date_trailing_line_feed_witness :
  date_new_lex ("2024-02-29" +:+ "Z" +:+ Py.newline) = "2024-02-29T00:00:00".
Proof.
  refine (proj1 (proj2 (date_trailing_line_feed "2024-02-29" _))).
  exact I.
Defined.

(** ** Streams and letter case *)

Lemma lower_append s t : Py.lower (s +:+ t) = Py.lower s +:+ Py.lower t.
Proof.
  induction s as [|a s IH]; [reflexivity|].
  rewrite append_cons. cbn [Py.lower]. by rewrite IH, append_cons.
Qed.

Lemma lower_char_idemp c : Py.lower_char (Py.lower_char c) = Py.lower_char c.
Proof. by destruct c as [[] [] [] [] [] [] [] []]. Qed.

Lemma lower_idemp s : Py.lower (Py.lower s) = Py.lower s.
Proof.
  induction s as [|a s IH]; [reflexivity|].
  cbn [Py.lower]. by rewrite lower_char_idemp, IH.
Qed.

Lemma startswith_before_sep c u v m :
  has_char c m = false →
  Py.startswith (u +:+ String c v) m = true → Py.startswith u m = true.
Proof.
  revert u. induction m as [|x m IH]; intros u Hm; [by destruct u|].
  cbn [has_char] in Hm. apply orb_false_elim in Hm as [Hx Hm].
  apply bool_decide_eq_false in Hx.
  destruct u as [|y u].
  - rewrite append_empty_l. cbn [Py.startswith].
    destruct (decide (x = c)); [done | discriminate].
  - rewrite append_cons. cbn [Py.startswith].
    destruct (decide (x = y)); [by apply IH | discriminate].
Qed.

(** A text without the separator occurs in two texts joined by the
    separator exactly when it occurs in one of them. *)
Lemma occurs_joined c m u v :
  has_char c m = false →
  occurs m (u +:+ String c v) ↔ occurs m u ∨ occurs m v.
Proof.
  intros Hm. split.
  - rewrite <- !contains_spec. induction u as [|y u IH].
    + rewrite append_empty_l. cbn [Py.contains]. intros [Hs|Hc]%orb_prop.
      * left. apply orb_true_intro. left.
        apply (startswith_before_sep c EmptyString v m Hm Hs).
      * by right.
    + rewrite append_cons. cbn [Py.contains]. intros [Hs|Hc]%orb_prop.
      * left. apply orb_true_intro. left.
        apply (startswith_before_sep c (String y u) v m Hm). by rewrite append_cons.
      * destruct (IH Hc) as [Hu|Hv]; [left|by right].
        apply orb_true_intro. by right.
  - intros [(pre & post & ->)|(pre & post & ->)].
    + exists pre, (post +:+ String c v). by rewrite !append_assoc.
    + exists (u +:+ String c pre), post. by rewrite !append_assoc, append_cons.
Qed.

Lemma contains_joined (m out err : string) :
  has_char (ascii_of_nat 10) m = false →
  Py.contains (Py.lower (out +:+ Py.newline +:+ err)) m
  = Py.contains (Py.lower out) m || Py.contains (Py.lower err) m.
Proof.
  intros Hm. apply Bool.eq_true_iff_eq.
  rewrite orb_true_iff, !contains_spec, !lower_append.
  change (Py.lower Py.newline +:+ ?s) with (String (ascii_of_nat 10) s).
  by apply occurs_joined.
Qed.

Lemma any_in_joined (sigs : list string) (out err : string) :
  Forall (λ sig, first_solid sig ∧ last_solid sig
                 ∧ has_char (ascii_of_nat 10) sig = false) sigs →
  Py.any_in sigs (Py.lower (Py.strip (out +:+ Py.newline +:+ err)))
  = Py.any_in sigs (Py.lower out) || Py.any_in sigs (Py.lower err).
Proof.
  intros Hs. apply Bool.eq_true_iff_eq.
  rewrite any_in_stripped by (eapply Forall_impl; [exact Hs | by intros ? (?&?&?)]).
  rewrite orb_true_iff, !any_in_spec, !lower_append.
  change (Py.lower Py.newline +:+ ?s) with (String (ascii_of_nat 10) s).
  split.
  - intros (sig & Hin & Hocc).
    destruct (proj1 (Forall_forall _ _) Hs sig Hin) as (_ & _ & Hnl).
    apply occurs_joined in Hocc as [Ho|He]; [left|right|exact Hnl]; by exists sig.
  - intros [(sig & Hin & Hocc)|(sig & Hin & Hocc)];
      destruct (proj1 (Forall_forall _ _) Hs sig Hin) as (_ & _ & Hnl);
      exists sig; (split; [exact Hin|]); apply occurs_joined; auto.
Qed.

Lemma incoherent_signals_one_line :
  Forall (λ sig, first_solid sig ∧ last_solid sig
                 ∧ has_char (ascii_of_nat 10) sig = false) incoherent_signals.
Proof. repeat constructor. Qed.

(** X12. Both readers of a reasoner's output look for their signals in
    each stream on its own and without regard to letter case: HermiT's
    verdict and ROBOT's status are the same when the two streams are
    exchanged and when the streams are given in lower case. The verdict is
    decided by which of the five HermiT phrases occur in either stream. *)
Theorem readers_ignore_stream_and_case (rc : Z) (out err : string) :
  let says := λ m, Py.contains (Py.lower out) m || Py.contains (Py.lower err) m in
  run_hermit_verdict out err
  = (if says "inconsistentontologyexception" || says "inconsistent ontology"
     then Some false
     else if says "is satisfiable" then Some true
     else if says "unsatisfiable" || says "is not satisfiable" then Some false
     else None)
  ∧ run_hermit_verdict out err = run_hermit_verdict err out
  ∧ run_hermit_verdict out err = run_hermit_verdict (Py.lower out) (Py.lower err)
  ∧ (robot_reason_classify rc out err).1 = (robot_reason_classify rc err out).1
  ∧ (robot_reason_classify rc out err).1
    = (robot_reason_classify rc (Py.lower out) (Py.lower err)).1.
Proof.
  intros says.
  assert (Hv : ∀ o e, run_hermit_verdict o e
                      = (if (Py.contains (Py.lower o) "inconsistentontologyexception"
                             || Py.contains (Py.lower e) "inconsistentontologyexception")
                            || (Py.contains (Py.lower o) "inconsistent ontology"
                                || Py.contains (Py.lower e) "inconsistent ontology")
                         then Some false
                         else if Py.contains (Py.lower o) "is satisfiable"
                                 || Py.contains (Py.lower e) "is satisfiable"
                         then Some true
                         else if (Py.contains (Py.lower o) "unsatisfiable"
                                  || Py.contains (Py.lower e) "unsatisfiable")
                                 || (Py.contains (Py.lower o) "is not satisfiable"
                                     || Py.contains (Py.lower e) "is not satisfiable")
                         then Some false else None)).
  { intros o e. unfold run_hermit_verdict. cbv zeta.
    by rewrite !contains_joined by reflexivity. }
  assert (Hr : ∀ o e, (robot_reason_classify rc o e).1
                      = if decide (rc = 0%Z) then "coherent"
                        else if Py.any_in incoherent_signals (Py.lower o)
                                || Py.any_in incoherent_signals (Py.lower e)
                        then "incoherent" else "error").
  { intros o e. unfold robot_reason_classify. cbv zeta.
    destruct (decide (rc = 0%Z)); [reflexivity|].
    rewrite (any_in_joined _ _ _ incoherent_signals_one_line).
    destruct (_ || _); [reflexivity|].
    by destruct (Py.any_in error_signals _). }
  split; [apply Hv|]. split; [|split; [|split]].
  - rewrite (Hv out err), (Hv err out).
    by rewrite !(orb_comm (Py.contains (Py.lower out) _)).
  - by rewrite (Hv out err), (Hv (Py.lower out)), !lower_idemp.
  - rewrite (Hr out err), (Hr err out).
    by rewrite (orb_comm (Py.any_in _ (Py.lower out))).
  - by rewrite (Hr out err), (Hr (Py.lower out)), !lower_idemp.
Qed.

(** ** The schema option of a slice *)

Lemma fold_bounds_in {A : Type} (G : graph) (f : graph → A → graph) (l : list A) :
  (∀ o a, a ∈ l → o ⊆ f o a ∧ f o a ⊆ o ∪ G) →
  ∀ out, out ⊆ foldl f out l ∧ foldl f out l ⊆ out ∪ G.
Proof.
  induction l as [|a l IH]; intros Hf out; [cbn; set_solver|].
  cbn [foldl].
  assert (Hf' : ∀ o b, b ∈ l → o ⊆ f o b ∧ f o b ⊆ o ∪ G)
    by (intros o b Hb; apply Hf; by right).
  destruct (IH Hf' (f out a)) as [I1 I2].
  assert (Ha : a ∈ a :: l) by left.
  destruct (Hf out a Ha) as [F1 F2]. clear Hf Hf' IH Ha.
  revert I1 I2 F1 F2. generalize (foldl f (f out a) l) (f out a).
  clear. set_solver.
Qed.

Lemma add_schema_about_seeds (g : graph) (seeds : gset node) (out : graph) :
  add_schema g seeds out
  ⊆ out ∪ filter (λ t : triple, t.1.1 ∈ seeds ∨ t.2 ∈ seeds) g.
Proof.
  unfold add_schema. apply fold_bounds_in. intros o u Hu%elem_of_elements.
  apply fold_bounds. intros o' p. rewrite !add_all_eq. split; [set_solver|].
  assert (Hsp : (list_to_set (triples_sp g u p) : graph)
                ⊆ filter (λ t : triple, t.1.1 ∈ seeds ∨ t.2 ∈ seeds) g).
  { intros t [[Hs _] Hin%elem_of_elements]%elem_of_list_to_set%list_elem_of_filter.
    apply elem_of_filter. split; [left; by rewrite Hs | done]. }
  assert (Hpo : (list_to_set (triples_po g p u) : graph)
                ⊆ filter (λ t : triple, t.1.1 ∈ seeds ∨ t.2 ∈ seeds) g).
  { intros t [[_ Ho] Hin%elem_of_elements]%elem_of_list_to_set%list_elem_of_filter.
    apply elem_of_filter. split; [right; by rewrite Ho | done]. }
  set_solver.
Qed.

Lemma expand_bnodes_S (g : graph) (rounds : nat) (out : graph)
    (frontier seen : gset node) :
  expand_bnodes g (S rounds) out frontier seen
  = expand_bnodes g rounds
      (sl_out (foldl (expand_node g)
                 {| sl_out := out; sl_seen := seen; sl_new_frontier := ∅ |}
                 (elements frontier)))
      (sl_new_frontier (foldl (expand_node g)
                 {| sl_out := out; sl_seen := seen; sl_new_frontier := ∅ |}
                 (elements frontier)))
      (sl_seen (foldl (expand_node g)
                 {| sl_out := out; sl_seen := seen; sl_new_frontier := ∅ |}
                 (elements frontier))).
Proof. reflexivity. Qed.

Lemma expand_bnodes_more_rounds (g : graph) (rounds : nat) (out : graph)
    (frontier seen : gset node) :
  expand_bnodes g rounds out frontier seen
  ⊆ expand_bnodes g (S rounds) out frontier seen.
Proof.
  revert out frontier seen. induction rounds as [|rounds IH]; intros out frontier seen.
  - apply (expand_bnodes_bounds g 1 out frontier seen).
  - rewrite (expand_bnodes_S g (S rounds)), (expand_bnodes_S g rounds). apply IH.
Qed.

Lemma slice_graph_schema (g : graph) (iris : gset string) (d : nat) :
  slice_graph g iris d true = slice_graph g iris d false.
Proof.
  unfold slice_graph. cbv zeta.
  destruct (anchor_fold (http_uris iris) (elements g) ∅ (http_uris iris))
      as (H1 & _ & _). cbv zeta in H1.
    destruct (foldl (anchor_step (http_uris iris)) (∅, http_uris iris) (elements g))
      as [out0 frontier]. cbn [fst] in H1.
    destruct (expand_bnodes_bounds g d out0 frontier ∅) as [E1 _].
    destruct (add_schema_bounds g (http_uris iris) (expand_bnodes g d out0 frontier ∅))
      as [A1 _].
    pose proof (add_schema_about_seeds g (http_uris iris)
                  (expand_bnodes g d out0 frontier ∅)) as A2.
    assert (Hin : filter (λ t : triple, t.1.1 ∈ http_uris iris ∨ t.2 ∈ http_uris iris) g
                  ⊆ out0).
    { rewrite H1. intros t [Ht Hin]%elem_of_filter. apply elem_of_union_r.
      apply elem_of_list_to_set, list_elem_of_filter. split; [done|].
      by apply elem_of_elements. }
    revert E1 A1 A2 Hin.
    generalize (add_schema g (http_uris iris) (expand_bnodes g d out0 frontier ∅))
               (expand_bnodes g d out0 frontier ∅)
               (filter (λ t : triple, t.1.1 ∈ http_uris iris ∨ t.2 ∈ http_uris iris) g).
    clear. set_solver.
Qed.

(** X13. The schema option of [slice_graph] adds nothing: the triples it
    asks for, those of the schema predicates with a seed as subject or
    object, are in the slice already, so the slice is the same with the
    option and without it. A slice grows with the blank-node depth. *)
Theorem slice_schema_option_redundant (g : graph) (iris : gset string)
    (depth : nat) :
  slice_graph g iris depth true = slice_graph g iris depth false
  ∧ ∀ schema, slice_graph g iris depth schema ⊆ slice_graph g iris (S depth) schema.
Proof.
  split; [apply slice_graph_schema|].
  assert (Hgrow : slice_graph g iris depth false ⊆ slice_graph g iris (S depth) false).
  { unfold slice_graph. cbv zeta.
    destruct (foldl (anchor_step (http_uris iris)) (∅, http_uris iris) (elements g))
      as [out0 frontier].
    apply expand_bnodes_more_rounds. }
  intros [|]; [rewrite !slice_graph_schema|]; exact Hgrow.
Qed.

(** ** A slice in closed form *)

Lemma elem_of_bnode_set (b x : node) : b ∈ bnode_set x ↔ is_bnode b ∧ b = x.
Proof.
  unfold bnode_set. destruct (is_bnode x) eqn:Hx.
  - rewrite elem_of_singleton. split; [intros ->; by rewrite Hx | by intros [_ ->]].
  - split; [by intros ?%not_elem_of_empty | intros [Hb ->]]. by rewrite Hx in Hb.
Qed.

Lemma elem_of_touching (g : graph) (X : gset node) (t : triple) :
  t ∈ touching g X ↔ t ∈ g ∧ (t.1.1 ∈ X ∨ t.2 ∈ X).
Proof. unfold touching. rewrite elem_of_filter. tauto. Qed.

Lemma elem_of_blank_neighbours (g : graph) (X : gset node) (b : node) :
  b ∈ blank_neighbours g X
  ↔ is_bnode b ∧ ∃ t, t ∈ g ∧ (t.1.1 ∈ X ∨ t.2 ∈ X) ∧ (b = t.1.1 ∨ b = t.2).
Proof.
  unfold blank_neighbours. rewrite elem_of_set_bind. split.
  - intros (t & [Hin Ht]%elem_of_touching
              & [[Hb ->]%elem_of_bnode_set|[Hb ->]%elem_of_bnode_set]%elem_of_union);
      (split; [done|]); exists t; tauto.
  - intros (Hb & t & Hin & Ht & Hbt). exists t.
    split; [by apply elem_of_touching|].
    rewrite elem_of_union, !elem_of_bnode_set. tauto.
Qed.

Lemma blank_ball_S (g : graph) (seeds : gset node) (n : nat) :
  blank_ball g seeds (S n)
  = blank_ball g seeds n ∪ blank_neighbours g (blank_ball g seeds n).
Proof. reflexivity. Qed.

Lemma blank_ball_mono (g : graph) (seeds : gset node) (n : nat) :
  blank_ball g seeds n ⊆ blank_ball g seeds (S n).
Proof. rewrite blank_ball_S. apply union_subseteq_l. Qed.

Lemma anchor_fold_frontier (seeds : gset node) (l : list triple) (out : graph)
    (fr : gset node) (b : node) :
  b ∈ (foldl (anchor_step seeds) (out, fr) l).2
  ↔ b ∈ fr ∨ (is_bnode b ∧ ∃ t, t ∈ l ∧ (t.1.1 ∈ seeds ∨ t.2 ∈ seeds)
                                ∧ (b = t.1.1 ∨ b = t.2)).
Proof.
  revert out fr. induction l as [|[[s p] o] l IH]; intros out fr.
  - cbn [foldl snd]. split; [by left|]. intros [?|(_ & t & []%elem_of_nil & _)]. done.
  - cbn [foldl]. unfold anchor_step at 2. cbn [fst snd].
    destruct (decide (s ∈ seeds ∨ o ∈ seeds)) as [Ht|Ht]; rewrite IH.
    + rewrite !elem_of_union, !elem_of_bnode_set. split.
      * intros [[[[Hb ->]|[Hb ->]]|Hfr]|(Hb & t & Hin & Htt & Hbt)].
        -- right. split; [done|]. exists (s, p, o). split; [left|]. by split; [|right].
        -- right. split; [done|]. exists (s, p, o). split; [left|]. by split; [|left].
        -- by left.
        -- right. split; [done|]. exists t. split; [by right | done].
      * intros [Hfr|(Hb & t & [->|Hin]%elem_of_cons & Htt & Hbt)].
        -- left. by right.
        -- cbn [fst snd] in Hbt. left. left. destruct Hbt as [->| ->]; [by right | by left].
        -- right. split; [done|]. by exists t.
    + split.
      * intros [Hfr|(Hb & t & Hin & Htt & Hbt)]; [by left|].
        right. split; [done|]. exists t. split; [by right | done].
      * intros [Hfr|(Hb & t & [->|Hin]%elem_of_cons & Htt & Hbt)]; [by left| |].
        -- by destruct Ht.
        -- right. split; [done|]. by exists t.
Qed.

Lemma expand_fold_frontier (h : triple → node) (seen : gset node) (l : list triple)
    (st : slice_state) (b : node) :
  b ∈ sl_new_frontier
        (foldl (λ (a : slice_state) (t : triple),
                  {| sl_out := g_add t (sl_out a); sl_seen := sl_seen a;
                     sl_new_frontier :=
                       if is_bnode (h t) && bool_decide (h t ∉ seen)
                       then {[ h t ]} ∪ sl_new_frontier a else sl_new_frontier a |})
               st l)
  ↔ b ∈ sl_new_frontier st ∨ (is_bnode b ∧ b ∉ seen ∧ ∃ t, t ∈ l ∧ h t = b).
Proof.
  revert st. induction l as [|t l IH]; intros st.
  - cbn [foldl]. split; [by left|]. intros [?|(_ & _ & t & []%elem_of_nil & _)]. done.
  - cbn [foldl]. rewrite IH. cbn [sl_new_frontier].
    destruct (is_bnode (h t)) eqn:Hb; cbn [andb].
    + case_bool_decide as Hs.
      * rewrite elem_of_union, elem_of_singleton. split.
        -- intros [[->|Hn]|(Hbb & Hbs & t' & Hin & Ht')].
           ++ right. rewrite Hb. split; [done|]. split; [done|]. exists t. by split; [left|].
           ++ by left.
           ++ right. split; [done|]. split; [done|]. exists t'. by split; [right|].
        -- intros [Hn|(Hbb & Hbs & t' & [->|Hin]%elem_of_cons & Ht')].
           ++ left. by right.
           ++ left. by left.
           ++ right. split; [done|]. split; [done|]. by exists t'.
      * split.
        -- intros [Hn|(Hbb & Hbs & t' & Hin & Ht')]; [by left|].
           right. split; [done|]. split; [done|]. exists t'. by split; [right|].
        -- intros [Hn|(Hbb & Hbs & t' & [->|Hin]%elem_of_cons & Ht')]; [by left| |].
           ++ subst b. exfalso. tauto.
           ++ right. split; [done|]. split; [done|]. by exists t'.
    + split.
      * intros [Hn|(Hbb & Hbs & t' & Hin & Ht')]; [by left|].
        right. split; [done|]. split; [done|]. exists t'. by split; [right|].
      * intros [Hn|(Hbb & Hbs & t' & [->|Hin]%elem_of_cons & Ht')]; [by left| |].
        -- subst b. by rewrite Hb in Hbb.
        -- right. split; [done|]. split; [done|]. by exists t'.
Qed.

Lemma expand_node_frontier (g : graph) (st : slice_state) (nd b : node) :
  b ∈ sl_new_frontier (expand_node g st nd)
  ↔ b ∈ sl_new_frontier st
    ∨ (nd ∉ sl_seen st ∧ is_bnode b ∧ b ∉ ({[ nd ]} ∪ sl_seen st : gset node)
       ∧ ∃ t, t ∈ g ∧ ((t.1.1 = nd ∧ t.2 = b) ∨ (t.2 = nd ∧ t.1.1 = b))).
Proof.
  unfold expand_node. destruct (decide (nd ∈ sl_seen st)) as [Hin|Hnin].
  - split; [by left|]. intros [?|[? _]]; done.
  - cbv zeta.
    rewrite (expand_fold_frontier (λ t, t.1.1) ({[ nd ]} ∪ sl_seen st)).
    rewrite (expand_fold_frontier snd ({[ nd ]} ∪ sl_seen st)).
    cbn [sl_new_frontier]. unfold triples_s, triples_o.
    setoid_rewrite list_elem_of_filter. setoid_rewrite elem_of_elements. split.
    + intros [[Hn|(Hb & Hs & t & [Ht Hg] & Hbt)]|(Hb & Hs & t & [Ht Hg] & Hbt)].
      * by left.
      * right. split; [done|]. split; [done|]. split; [done|]. exists t. tauto.
      * right. split; [done|]. split; [done|]. split; [done|]. exists t. tauto.
    + intros [Hn|(_ & Hb & Hs & t & Hg & [[Ht Hbt]|[Ht Hbt]])].
      * left. by left.
      * left. right. split; [done|]. split; [done|]. by exists t.
      * right. split; [done|]. split; [done|]. by exists t.
Qed.

Lemma expand_round_exact (g : graph) (l : list node) (st : slice_state) :
  let r := foldl (expand_node g) st l in
  let beside := λ (b : node) (seen : gset node),
    ∃ nd t, nd ∈ l ∧ nd ∉ seen ∧ t ∈ g
            ∧ ((t.1.1 = nd ∧ t.2 = b) ∨ (t.2 = nd ∧ t.1.1 = b)) in
  sl_seen r = sl_seen st ∪ list_to_set l
  ∧ (∀ t, t ∈ sl_out r
          ↔ t ∈ sl_out st
            ∨ (t ∈ g ∧ ∃ nd, nd ∈ l ∧ nd ∉ sl_seen st ∧ (t.1.1 = nd ∨ t.2 = nd)))
  ∧ (∀ b, b ∈ sl_new_frontier r →
          b ∈ sl_new_frontier st ∨ (is_bnode b ∧ beside b (sl_seen st)))
  ∧ (∀ b, b ∈ sl_new_frontier st
          ∨ (is_bnode b ∧ b ∉ sl_seen r ∧ beside b (sl_seen st)) →
          b ∈ sl_new_frontier r).
Proof.
  revert st. induction l as [|x l IH]; intros st r beside; subst r beside.
  - cbn [foldl list_to_set]. split; [by rewrite union_empty_r_L|].
    split; [|split].
    + intros t. split; [by left|]. by intros [?|(_ & nd & []%elem_of_nil & _)].
    + intros b Hb. by left.
    + by intros b [?|(_ & _ & nd & t & []%elem_of_nil & _)].
  - cbn [foldl]. destruct (IH (expand_node g st x)) as (I1 & I2 & I3 & I4).
    cbv zeta in I1, I2, I3, I4.
    pose proof (expand_node_seen g st x) as Hs.
    pose proof (expand_node_out g st x) as Ho.
    rewrite triples_s_set, triples_o_set in Ho.
    assert (Hseen : ∀ nd, nd ∉ sl_seen (expand_node g st x) ↔ nd ≠ x ∧ nd ∉ sl_seen st).
    { intros nd. rewrite Hs, elem_of_union, elem_of_singleton. tauto. }
    assert (Hout : ∀ t, t ∈ sl_out (expand_node g st x)
                        ↔ t ∈ sl_out st
                          ∨ (x ∉ sl_seen st ∧ t ∈ g ∧ (t.1.1 = x ∨ t.2 = x))).
    { intros t. rewrite Ho. destruct (decide (x ∈ sl_seen st)) as [Hx|Hx]; [tauto|].
      rewrite !elem_of_union, !elem_of_filter. tauto. }
    clear Ho.
    split; [|split; [|split]].
    + rewrite I1, Hs. cbn [list_to_set]. set_solver.
    + intros t. rewrite I2, Hout. split.
      * intros [[Hin|(Hx & Hg & Ht)]|(Hg & nd & Hnd & [Hne Hns]%Hseen & Ht)].
        -- by left.
        -- right. split; [done|]. exists x. split; [left|]. done.
        -- right. split; [done|]. exists nd. split; [by right | done].
      * intros [Hin|(Hg & nd & [->|Hnd]%elem_of_cons & Hns & Ht)].
        -- left. by left.
        -- left. right. done.
        -- destruct (decide (nd = x)) as [->|Hne]; [left; right; done|].
           right. split; [done|]. exists nd. split; [done|]. split; [by apply Hseen | done].
    + intros b [Hb|(Hb & nd & t & Hnd & [Hne Hns]%Hseen & Hg & Ht)]%I3.
      * apply expand_node_frontier in Hb as [Hb|(Hx & Hbn & _ & t & Hg & Ht)]; [by left|].
        right. split; [done|]. exists x, t. split; [left|]. done.
      * right. split; [done|]. exists nd, t. split; [by right | done].
    + intros b [Hb|(Hbn & Hbs & nd & t & [->|Hnd]%elem_of_cons & Hns & Hg & Ht)].
      * apply I4. left. apply expand_node_frontier. by left.
      * apply I4. left. apply expand_node_frontier. right.
        split; [done|]. split; [done|]. split; [|by exists t].
        intros Hin. apply Hbs. rewrite I1. rewrite <- Hs in Hin. by apply elem_of_union_l.
      * destruct (decide (nd = x)) as [->|Hne].
        -- apply I4. left. apply expand_node_frontier. right.
           split; [done|]. split; [done|]. split; [|by exists t].
           intros Hin. apply Hbs. rewrite I1. rewrite <- Hs in Hin. by apply elem_of_union_l.
        -- apply I4. right. split; [done|]. split; [done|]. exists nd, t.
           split; [done|]. split; [by apply Hseen | done].
Qed.

Lemma expand_bnodes_exact (g : graph) (seeds : gset node) (rounds k : nat)
    (out : graph) (frontier seen : gset node) :
  out = touching g (blank_ball g seeds k) →
  seen ⊆ blank_ball g seeds k →
  seen ∪ frontier = blank_ball g seeds (S k) →
  blank_neighbours g seen ⊆ seen ∪ frontier →
  expand_bnodes g rounds out frontier seen
  = touching g (blank_ball g seeds (k + rounds)).
Proof.
  revert k out frontier seen.
  induction rounds as [|rounds IH]; intros k out frontier seen Hout Hseen Hnext Hnb.
  - cbn [expand_bnodes]. by rewrite Nat.add_0_r.
  - rewrite expand_bnodes_S.
    destruct (expand_round_exact g (elements frontier)
                {| sl_out := out; sl_seen := seen; sl_new_frontier := ∅ |})
      as (R1 & R2 & R3 & R4).
    cbv zeta in R1, R2, R3, R4. cbn [sl_out sl_seen sl_new_frontier] in R1, R2, R3, R4.
    set (st := foldl (expand_node g) _ (elements frontier)) in *. clearbody st.
    rewrite list_to_set_elements_L in R1.
    assert (Hst : sl_seen st = blank_ball g seeds (S k)) by (by rewrite R1).
    replace (k + S rounds) with (S k + rounds) by lia.
    assert (Hmono := blank_ball_mono g seeds k).
    apply IH.
    + apply set_eq. intros t. rewrite R2, Hout, !elem_of_touching, <- Hnext.
      setoid_rewrite elem_of_elements. rewrite !elem_of_union. split.
      * intros [[Hg [Ht|Ht]]|(Hg & nd & Hnd & _ & [Ht|Ht])]; (split; [done|]).
        -- left. apply elem_of_union. rewrite Hnext. by apply Hmono.
        -- right. apply elem_of_union. rewrite Hnext. by apply Hmono.
        -- left. right. by rewrite Ht.
        -- right. right. by rewrite Ht.
      * intros [Hg [[Ht|Ht]|[Ht|Ht]]].
        -- left. split; [done|]. left. by apply Hseen.
        -- destruct (decide (t.1.1 ∈ seen)) as [Hin|Hnin].
           ++ left. split; [done|]. left. by apply Hseen.
           ++ right. split; [done|]. exists t.1.1. tauto.
        -- left. split; [done|]. right. by apply Hseen.
        -- destruct (decide (t.2 ∈ seen)) as [Hin|Hnin].
           ++ left. split; [done|]. right. by apply Hseen.
           ++ right. split; [done|]. exists t.2. tauto.
    + by rewrite Hst.
    + rewrite Hst, (blank_ball_S g seeds (S k)). apply set_eq. intros b.
      rewrite !elem_of_union, elem_of_blank_neighbours.
      split.
      * intros [Hb|Hb]; [by left|]. right.
        apply R3 in Hb as [[]%not_elem_of_empty|(Hbn & nd & t & Hnd%elem_of_elements & _ & Hg & Ht)].
        split; [done|]. exists t. split; [done|].
        assert (Hin : nd ∈ blank_ball g seeds (S k))
          by (rewrite <- Hnext; by apply elem_of_union_r).
        destruct Ht as [[Ht Hb]|[Ht Hb]]; rewrite Ht, Hb; tauto.
      * intros [Hb|(Hbn & t & Hg & Ht & Hbt)]; [by left|].
        destruct (decide (b ∈ blank_ball g seeds (S k))) as [Hin|Hnin]; [by left|].
        right. apply R4. right. split; [done|]. split; [by rewrite Hst|].
        assert (Hcase : ∀ x, x ∈ blank_ball g seeds (S k) →
                  (t.1.1 = x ∧ t.2 = b) ∨ (t.2 = x ∧ t.1.1 = b) →
                  ∃ nd t0, nd ∈ elements frontier ∧ nd ∉ seen ∧ t0 ∈ g
                           ∧ ((t0.1.1 = nd ∧ t0.2 = b) ∨ (t0.2 = nd ∧ t0.1.1 = b))).
        { intros x Hx Hxt. exists x, t.
          assert (Hxs : x ∉ seen).
          { intros Hxs. apply Hnin. rewrite <- Hnext. apply Hnb.
            apply elem_of_blank_neighbours. split; [done|]. exists t.
            split; [done|]. destruct Hxt as [[<- <-]|[<- <-]]; tauto. }
          split; [|done]. apply elem_of_elements.
          rewrite <- Hnext in Hx. apply elem_of_union in Hx as [Hx|Hx]; [done | done]. }
        destruct Ht as [Ht|Ht]; destruct Hbt as [-> | ->]; try (by destruct Hnin).
        -- apply (Hcase t.1.1 Ht). by left.
        -- apply (Hcase t.2 Ht). by right.
    + rewrite Hst. intros b Hb.
      destruct (decide (b ∈ blank_ball g seeds (S k))) as [Hin|Hnin];
        [by apply elem_of_union_l|].
      apply elem_of_union_r, R4. right.
      apply elem_of_blank_neighbours in Hb as (Hbn & t & Hg & Ht & Hbt).
      split; [done|]. split; [by rewrite Hst|].
      assert (Hcase : ∀ x, x ∈ blank_ball g seeds (S k) →
                (t.1.1 = x ∧ t.2 = b) ∨ (t.2 = x ∧ t.1.1 = b) →
                ∃ nd t0, nd ∈ elements frontier ∧ nd ∉ seen ∧ t0 ∈ g
                         ∧ ((t0.1.1 = nd ∧ t0.2 = b) ∨ (t0.2 = nd ∧ t0.1.1 = b))).
      { intros x Hx Hxt. exists x, t.
        assert (Hxs : x ∉ seen).
        { intros Hxs. apply Hnin. rewrite <- Hnext. apply Hnb.
          apply elem_of_blank_neighbours. split; [done|]. exists t.
          split; [done|]. destruct Hxt as [[<- <-]|[<- <-]]; tauto. }
        split; [|done]. apply elem_of_elements.
        rewrite <- Hnext in Hx. apply elem_of_union in Hx as [Hx|Hx]; [done | done]. }
      destruct Ht as [Ht|Ht]; destruct Hbt as [-> | ->]; try (by destruct Hnin).
      * apply (Hcase t.1.1 Ht). by left.
      * apply (Hcase t.2 Ht). by right.
Qed.

(** X14. A slice in closed form. The nodes of a slice are the seeds, the
    HTTP identifiers among those given, and for every unit of depth the
    blank nodes on a triple that has a node found so far as subject or
    object; the slice has exactly the triples of the graph with such a
    node as subject or object, with the schema option or without it. *)
Theorem slice_graph_exact (g : graph) (iris : gset string) (depth : nat)
    (schema : bool) :
  slice_graph g iris depth schema
  = touching g (blank_ball g (http_uris iris) depth).
Proof.
  assert (H : slice_graph g iris depth false
              = touching g (blank_ball g (http_uris iris) depth)).
  { unfold slice_graph. cbv zeta.
    destruct (anchor_fold (http_uris iris) (elements g) ∅ (http_uris iris))
      as (H1 & _ & _). cbv zeta in H1.
    pose proof (anchor_fold_frontier (http_uris iris) (elements g) ∅ (http_uris iris))
      as H2.
    destruct (foldl (anchor_step (http_uris iris)) (∅, http_uris iris) (elements g))
      as [out0 frontier]. cbn [fst snd] in H1, H2.
    apply (expand_bnodes_exact g (http_uris iris) depth 0).
    - rewrite H1. cbn [blank_ball]. unfold touching.
      rewrite union_empty_l_L. by rewrite <- filter_as_list.
    - apply empty_subseteq.
    - rewrite union_empty_l_L. cbn [blank_ball]. apply set_eq. intros b.
      rewrite H2, elem_of_union, elem_of_blank_neighbours.
      by setoid_rewrite elem_of_elements.
    - intros b (_ & t & _ & [[]%not_elem_of_empty|[]%not_elem_of_empty] & _)%elem_of_blank_neighbours. }
  destruct schema; [by rewrite slice_graph_schema|exact H].
Qed.

(** ** Requests to the model *)

Lemma split_first_empty needle :
  needle ≠ EmptyString → api_utils.split_first needle EmptyString = None.
Proof. intros Hn. destruct needle; [done | reflexivity]. Qed.

Lemma extract_of_empty start_marker end_marker :
  start_marker ≠ EmptyString →
  api_utils.extract_between_markers EmptyString start_marker end_marker = [].
Proof.
  intros Hs. unfold api_utils.extract_between_markers.
  cbn [String.length api_utils.marked_blocks]. by rewrite split_first_empty.
Qed.

Lemma concat_nonempty sep (l : list string) :
  l ≠ [] → Forall (λ m, m ≠ EmptyString) l → String.concat sep l ≠ EmptyString.
Proof.
  destruct l as [|x [|y l]]; [done| |]; intros _ Hall;
    apply Forall_cons in Hall as [Hx _]; cbn [String.concat]; [done|].
  destruct x; [done | discriminate].
Qed.

Lemma extract_nonempty_blocks text s e :
  Forall (λ m, m ≠ EmptyString) (api_utils.extract_between_markers text s e).
Proof.
  unfold api_utils.extract_between_markers. apply Forall_forall.
  by intros m [Hm _]%list_elem_of_filter.
Qed.

Section RequestProofs.

Variable post : string → string → nat → Z * option string.

Lemma send_attempts_inv prompt persona step_name max_retries wait_time left attempt sl :
  attempt + left = S max_retries → 1 ≤ attempt →
  attempt = 1 ∨ attempt ≤ max_retries →
  sl = wait_time * (attempt - 1) →
  (∀ i, 1 ≤ i < attempt → (post (api_utils.system_content persona) prompt i).1 = 429%Z) →
  let r := api_utils.send_attempts post prompt persona step_name max_retries wait_time
             left attempt sl in
  let status := λ i, (post (api_utils.system_content persona) prompt i).1 in
  api_utils.requests r ≤ max_retries
  ∧ api_utils.slept r = wait_time * (api_utils.requests r - 1)
  ∧ (∀ i, 1 ≤ i < api_utils.requests r → status i = 429%Z)
  ∧ (0 < max_retries → 1 ≤ api_utils.requests r)
  ∧ match api_utils.returned r with
    | Ok (Some text) =>
        ∃ reply, post (api_utils.system_content persona) prompt (api_utils.requests r)
                 = (200%Z, Some reply)
                 ∧ (text = EmptyString ↔ reply = EmptyString)
                 ∧ api_utils.saved r
                   = Some ("outputs/" +:+ step_name +:+ ".txt",
                           Py.strip text +:+ Py.newline)
    | Ok None =>
        api_utils.saved r = None
        ∧ (0 < max_retries → status (api_utils.requests r) ≠ 200%Z)
        ∧ (api_utils.requests r < max_retries →
           status (api_utils.requests r) ≠ 429%Z)
    | Raise _ => status (api_utils.requests r) = 200%Z ∧ api_utils.saved r = None
    end.
Proof.
  revert attempt sl.
  induction left as [|left IH]; intros attempt sl Hsum Hpos Hfirst -> Hbefore.
  - cbn [api_utils.send_attempts api_utils.requests api_utils.slept
         api_utils.returned api_utils.saved].
    assert (attempt = 1) as -> by lia. assert (max_retries = 0) as -> by lia.
    cbn [Nat.sub]. split; [lia|]. split; [done|]. split; [intros i Hi; lia|].
    split; [lia|]. split; [done|]. split; lia.
  - cbn [api_utils.send_attempts].
    destruct (post (api_utils.system_content persona) prompt attempt)
      as [status_code content] eqn:Hpost.
    destruct (decide (status_code = 200%Z)) as [->|Hn200].
    { destruct content as [reply|];
        cbn [api_utils.requests api_utils.slept api_utils.returned api_utils.saved].
      - split; [lia|]. split; [done|]. split; [exact Hbefore|]. split; [lia|].
        exists reply. split; [exact Hpost|]. split; [|reflexivity].
        pose proof (extract_nonempty_blocks reply "###start_output###" "###end_output###")
          as Hall.
        destruct (api_utils.extract_between_markers reply _ _) as [|b bs] eqn:Hex.
        + cbn [String.concat]. done.
        + split.
          * intros Hj. by apply concat_nonempty in Hj.
          * intros ->. rewrite extract_of_empty in Hex by done. discriminate Hex.
      - split; [lia|]. split; [done|]. split; [exact Hbefore|]. split; [lia|].
        split; [by rewrite Hpost | done]. }
    destruct (decide (status_code = 429%Z)) as [->|Hn429].
    + destruct (Nat.ltb_spec attempt max_retries) as [Hlt|Hge].
      * apply IH; [lia | lia | lia | nia |].
        intros i Hi. destruct (decide (i = attempt)) as [->|Hne];
          [by rewrite Hpost | apply Hbefore; lia].
      * cbn [api_utils.requests api_utils.slept api_utils.returned api_utils.saved].
        split; [lia|]. split; [done|]. split; [exact Hbefore|]. split; [lia|].
        split; [done|]. rewrite Hpost. split; [done | lia].
    + cbn [api_utils.requests api_utils.slept api_utils.returned api_utils.saved].
      split; [lia|]. split; [done|]. split; [exact Hbefore|]. split; [lia|].
      split; [done|]. rewrite Hpost. split; done.
Qed.

Lemma send_prompt_retries_inv (prompt persona step_name : string)
    (max_retries wait_time : nat) :
  let r := api_utils.send_prompt post prompt persona step_name max_retries wait_time in
  let status := λ i, (post (api_utils.system_content persona) prompt i).1 in
  api_utils.requests r ≤ max_retries
  ∧ api_utils.slept r = wait_time * (api_utils.requests r - 1)
  ∧ (∀ i, 1 ≤ i < api_utils.requests r → status i = 429%Z)
  ∧ (0 < max_retries → 1 ≤ api_utils.requests r)
  ∧ match api_utils.returned r with
    | Ok (Some text) =>
        ∃ reply, post (api_utils.system_content persona) prompt (api_utils.requests r)
                 = (200%Z, Some reply)
                 ∧ (text = EmptyString ↔ reply = EmptyString)
                 ∧ api_utils.saved r
                   = Some ("outputs/" +:+ step_name +:+ ".txt",
                           Py.strip text +:+ Py.newline)
    | Ok None =>
        api_utils.saved r = None
        ∧ (0 < max_retries → status (api_utils.requests r) ≠ 200%Z)
        ∧ (api_utils.requests r < max_retries →
           status (api_utils.requests r) ≠ 429%Z)
    | Raise _ => status (api_utils.requests r) = 200%Z ∧ api_utils.saved r = None
    end.
Proof.
  unfold api_utils.send_prompt.
  apply send_attempts_inv; [lia | lia | by left | cbn; lia | intros i Hi; lia].
Qed.

(** X15. The retry discipline of [send_prompt]. It posts at most
    [max_retries] requests and sleeps [wait_time] seconds between two of
    them; every request but the last was answered 429. It returns a text
    only for a reply of status 200, the text is empty only when the reply
    is, and this text, stripped, is what it saves in [outputs]; it returns
    [None] without saving when the last status is neither 200 nor 429, or
    when the last allowed request was answered 429; with [max_retries = 0]
    it posts nothing, sleeps and saves nothing, and returns [None]. *)
Theorem send_prompt_retries (prompt persona step_name : string)
    (max_retries wait_time : nat) :
  let r := api_utils.send_prompt post prompt persona step_name max_retries wait_time in
  let status := λ i, (post (api_utils.system_content persona) prompt i).1 in
  api_utils.requests r ≤ max_retries
  ∧ api_utils.slept r = wait_time * (api_utils.requests r - 1)
  ∧ (∀ i, 1 ≤ i < api_utils.requests r → status i = 429%Z)
  ∧ (0 < max_retries → 1 ≤ api_utils.requests r)
  ∧ match api_utils.returned r with
    | Ok (Some text) =>
        ∃ reply, post (api_utils.system_content persona) prompt (api_utils.requests r)
                 = (200%Z, Some reply)
                 ∧ (text = EmptyString ↔ reply = EmptyString)
                 ∧ api_utils.saved r
                   = Some ("outputs/" +:+ step_name +:+ ".txt",
                           Py.strip text +:+ Py.newline)
    | Ok None =>
        api_utils.saved r = None
        ∧ (0 < max_retries → status (api_utils.requests r) ≠ 200%Z)
        ∧ (api_utils.requests r < max_retries →
           status (api_utils.requests r) ≠ 429%Z)
    | Raise _ => status (api_utils.requests r) = 200%Z ∧ api_utils.saved r = None
    end
  ∧ (max_retries = 0 →
     r = {| api_utils.returned := Ok None; api_utils.requests := 0;
            api_utils.slept := 0; api_utils.saved := None |}).
Proof.
  pose proof (send_prompt_retries_inv prompt persona step_name max_retries wait_time)
    as Hinv.
  cbv zeta in *. destruct Hinv as (H1 & H2 & H3 & H4 & H5).
  repeat (split; [assumption|]). by intros ->.
Qed.

End RequestProofs.

(** ** Marked blocks *)

Lemma startswith_drop s p :
  Py.startswith s p = true → s = p +:+ Py.drop (String.length p) s.
Proof.
  revert s. induction p as [|a p IH]; intros s; [by destruct s|].
  destruct s as [|b s]; cbn [Py.startswith]; [discriminate|].
  destruct (decide (a = b)) as [->|]; [|discriminate].
  intros Hs. cbn [String.length Py.drop]. rewrite append_cons. f_equal. by apply IH.
Qed.

Lemma split_first_spec needle s pre post :
  api_utils.split_first needle s = Some (pre, post) →
  s = pre +:+ needle +:+ post
  ∧ (needle ≠ EmptyString → Py.contains pre needle = false).
Proof.
  revert pre post. induction s as [|c s IH]; intros pre post.
  - cbn [api_utils.split_first]. destruct (Py.startswith EmptyString needle) eqn:Hs;
      [|discriminate].
    intros [= <- <-]. split; [by apply startswith_drop|].
    intros Hn. destruct needle; [done | reflexivity].
  - cbn [api_utils.split_first]. destruct (Py.startswith (String c s) needle) eqn:Hs.
    + intros [= <- <-]. split; [by apply startswith_drop|].
      intros Hn. destruct needle; [done | reflexivity].
    + destruct (api_utils.split_first needle s) as [[pre' post']|]; [|discriminate].
      intros [= <- <-]. destruct (IH pre' post' eq_refl) as [Heq Hno].
      split; [by rewrite append_cons, <- Heq|].
      intros Hn. cbn [Py.contains]. rewrite (Hno Hn), orb_false_r.
      destruct (Py.startswith (String c pre') needle) eqn:Hp; [|reflexivity].
      apply startswith_spec in Hp as [x Hx].
      assert (Hs' : Py.startswith (String c s) needle = true).
      { apply startswith_spec. exists (x +:+ needle +:+ post').
        by rewrite Heq, <- append_cons, Hx, append_assoc. }
      by rewrite Hs in Hs'.
Qed.

Lemma split_first_none needle s :
  api_utils.split_first needle s = None ↔ Py.contains s needle = false.
Proof.
  induction s as [|c s IH]; cbn [api_utils.split_first Py.contains].
  - rewrite orb_false_r. by destruct (Py.startswith EmptyString needle).
  - destruct (Py.startswith (String c s) needle); cbn [orb]; [done|].
    rewrite <- IH. by destruct (api_utils.split_first needle s) as [[??]|].
Qed.

Lemma split_first_here needle pre post :
  (∀ pre1 pre2, pre = pre1 +:+ pre2 → pre2 ≠ EmptyString →
                Py.startswith (pre2 +:+ needle +:+ post) needle = false) →
  api_utils.split_first needle (pre +:+ needle +:+ post) = Some (pre, post).
Proof.
  induction pre as [|c pre IH]; intros Hno.
  - rewrite append_empty_l. destruct (needle +:+ post) eqn:Hs.
    + cbn [api_utils.split_first].
      assert (Hst : Py.startswith EmptyString needle = true).
      { apply startswith_spec. exists post. by rewrite Hs. }
      rewrite Hst. by rewrite <- Hs, drop_length_append.
    + cbn [api_utils.split_first].
      assert (Hst : Py.startswith (String a s) needle = true).
      { apply startswith_spec. exists post. by rewrite Hs. }
      rewrite Hst. by rewrite <- Hs, drop_length_append.
  - rewrite append_cons. cbn [api_utils.split_first]. rewrite <- append_cons.
    rewrite (Hno EmptyString (String c pre)) by done.
    rewrite IH; [reflexivity|].
    intros pre1 pre2 -> Hne. by apply (Hno (String c pre1) pre2).
Qed.

Lemma contains_suffix s1 s2 needle :
  Py.contains (s1 +:+ s2) needle = false → Py.contains s2 needle = false.
Proof.
  induction s1 as [|c s1 IH]; [done|]. rewrite append_cons. cbn [Py.contains].
  intros [_ H]%orb_false_elim. by apply IH.
Qed.

(** The end marker begins nowhere inside a text in which [###] does not
    occur. *)
Lemma end_marker_after body rest pre1 pre2 :
  Py.contains body "###" = false → body = pre1 +:+ pre2 → pre2 ≠ EmptyString →
  Py.startswith (pre2 +:+ "###end_output###" +:+ rest) "###end_output###" = false.
Proof.
  intros Hno -> Hne. apply contains_suffix in Hno.
  destruct pre2 as [|c1 [|c2 [|c3 p]]]; [done|..];
    rewrite ?append_cons, ?append_empty_l; cbn [Py.startswith].
  - destruct (decide ("#"%char = c1)); reflexivity.
  - destruct (decide ("#"%char = c1)); [|reflexivity].
    destruct (decide ("#"%char = c2)); reflexivity.
  - destruct (decide ("#"%char = c1)) as [<-|]; [|reflexivity].
    destruct (decide ("#"%char = c2)) as [<-|]; [|reflexivity].
    destruct (decide ("#"%char = c3)) as [<-|]; [|reflexivity].
    exfalso.
    assert (Ht : Py.contains (String "#" (String "#" (String "#" p))) "###" = true).
    { apply contains_spec. by exists EmptyString, p. }
    by rewrite Hno in Ht.
Qed.

Lemma split_first_length needle s pre post :
  api_utils.split_first needle s = Some (pre, post) →
  String.length s = String.length pre + String.length needle + String.length post.
Proof.
  intros [-> _]%split_first_spec. rewrite !length_append. lia.
Qed.

Lemma marked_blocks_fuel (s e : string) (fuel fuel' : nat) (text : string) :
  s ≠ EmptyString ∨ e ≠ EmptyString →
  String.length text < fuel → String.length text < fuel' →
  api_utils.marked_blocks fuel text s e = api_utils.marked_blocks fuel' text s e.
Proof.
  intros Hm. revert fuel' text.
  induction fuel as [|fuel IH]; intros fuel' text Hf Hf'; [lia|].
  destruct fuel' as [|fuel']; [lia|]. cbn [api_utils.marked_blocks].
  destruct (api_utils.split_first s text) as [[pre after]|] eqn:Hs; [|reflexivity].
  destruct (api_utils.split_first e after) as [[body rest]|] eqn:He; [|reflexivity].
  apply split_first_length in Hs. apply split_first_length in He.
  assert (0 < String.length s + String.length e).
  { destruct Hm as [Hm|Hm]; [destruct s | destruct e]; try done; cbn; lia. }
  f_equal. apply IH; lia.
Qed.

Lemma strip_idemp s : Py.strip (Py.strip s) = Py.strip s.
Proof.
  unfold Py.strip.
  assert (Hl : ∀ u, Py.lstrip (Py.rstrip (Py.lstrip u)) = Py.rstrip (Py.lstrip u)).
  { intros u. induction u as [|a u IH]; [reflexivity|].
    cbn [Py.lstrip]. destruct (Py.is_space a) eqn:Ha; [exact IH|].
    cbn [Py.rstrip]. destruct (Py.rstrip u); [rewrite Ha|]; cbn [Py.lstrip];
      by rewrite Ha. }
  assert (Hr : ∀ u, Py.rstrip (Py.rstrip u) = Py.rstrip u).
  { intros u. induction u as [|a u IH]; [reflexivity|].
    cbn [Py.rstrip]. destruct (Py.rstrip u) as [|b r] eqn:Hu.
    - destruct (Py.is_space a) eqn:Ha; [reflexivity|]. cbn [Py.rstrip]. by rewrite Ha.
    - cbn [Py.rstrip] in IH |- *. by rewrite IH. }
  by rewrite Hl, Hr.
Qed.

Lemma lstrip_suffix u : ∃ ws, u = ws +:+ Py.lstrip u.
Proof.
  induction u as [|a u [ws IH]]; [by exists EmptyString|].
  cbn [Py.lstrip]. destruct (Py.is_space a); [|by exists EmptyString].
  exists (String a ws). by rewrite append_cons, <- IH.
Qed.

Lemma occurs_in_strip needle u : occurs needle (Py.strip u) → occurs needle u.
Proof.
  unfold Py.strip. intros (pre & post & Hr).
  destruct (rstrip_split (Py.lstrip u)) as [ws Hu].
  destruct (lstrip_suffix u) as [ws' Hl].
  exists (ws' +:+ pre), (post +:+ ws).
  rewrite Hl at 1. rewrite Hu, Hr. by rewrite !append_assoc.
Qed.

Lemma extract_first_block (body rest : string) :
  Py.contains body "###" = false →
  api_utils.extract_between_markers
    ("###start_output###" +:+ body +:+ "###end_output###" +:+ rest)
    "###start_output###" "###end_output###"
  = (if decide (Py.strip body = EmptyString) then [] else [Py.strip body])
    ++ api_utils.extract_between_markers rest
         "###start_output###" "###end_output###".
Proof.
  revert body rest.
  intros body rest Hbody. unfold api_utils.extract_between_markers.
  set (whole := "###start_output###" +:+ body +:+ "###end_output###" +:+ rest).
  change (api_utils.marked_blocks (S (String.length whole)) whole
            "###start_output###" "###end_output###")
    with (match api_utils.split_first "###start_output###" whole with
          | None => []
          | Some (_, after) =>
              match api_utils.split_first "###end_output###" after with
              | None => []
              | Some (body, rest) =>
                  body :: api_utils.marked_blocks (String.length whole) rest
                            "###start_output###" "###end_output###"
              end
          end).
  assert (Hs : api_utils.split_first "###start_output###" whole
               = Some (EmptyString, body +:+ "###end_output###" +:+ rest)).
  { subst whole. apply (split_first_here "###start_output###" EmptyString).
    intros [|??] pre2 Heq Hne; [|discriminate Heq].
    rewrite append_empty_l in Heq. by subst pre2. }
  rewrite Hs.
  rewrite (split_first_here "###end_output###" body rest)
    by (intros pre1 pre2; by apply end_marker_after).
  rewrite fmap_cons, filter_cons.
  rewrite (marked_blocks_fuel _ _ (String.length whole) (S (String.length rest)) rest);
    [| by left | | lia].
  + destruct (decide (Py.strip body ≠ EmptyString)) as [Hne|He].
    * by rewrite decide_False.
    * apply dec_stable in He. by rewrite decide_True.
  + subst whole. rewrite !length_append. cbn [String.length]. lia.
Qed.

(** X16. The blocks [extract_between_markers] returns are stripped and not
    empty, and the end marker occurs in none of them; a text without the
    start marker or without the end marker has no block. For the markers
    of [send_prompt]: a text that begins with the start marker, then a body
    in which [###] does not occur, then the end marker, gives the body,
    stripped, as its first block (no block when the body is blank), and
    then the blocks of the rest. *)
Theorem marked_blocks_extracted (text start_marker end_marker : string) :
  (∀ b, b ∈ api_utils.extract_between_markers text start_marker end_marker →
        b ≠ EmptyString ∧ Py.strip b = b
        ∧ (end_marker ≠ EmptyString → ¬ occurs end_marker b))
  ∧ (Py.contains text start_marker = false ∨ Py.contains text end_marker = false →
     api_utils.extract_between_markers text start_marker end_marker = [])
  ∧ (∀ body rest,
       Py.contains body "###" = false →
       api_utils.extract_between_markers
         ("###start_output###" +:+ body +:+ "###end_output###" +:+ rest)
         "###start_output###" "###end_output###"
       = (if decide (Py.strip body = EmptyString) then [] else [Py.strip body])
         ++ api_utils.extract_between_markers rest
              "###start_output###" "###end_output###").
Proof.
  split; [|split].
  - unfold api_utils.extract_between_markers.
    intros b [Hb (m & -> & Hm)%list_elem_of_fmap]%list_elem_of_filter.
    split; [done|]. split; [apply strip_idemp|]. intros He Hocc%occurs_in_strip.
    revert Hm. generalize (S (String.length text)). intros fuel. revert text.
    induction fuel as [|fuel IH]; intros text; [by intros ?%elem_of_nil|].
    cbn [api_utils.marked_blocks].
    destruct (api_utils.split_first start_marker text) as [[pre after]|];
      [|by intros ?%elem_of_nil].
    destruct (api_utils.split_first end_marker after) as [[body rest]|] eqn:Hsp;
      [|by intros ?%elem_of_nil].
    intros [->|Hin]%elem_of_cons; [|by apply (IH rest)].
    apply split_first_spec in Hsp as [_ Hno].
    apply contains_spec in Hocc. by rewrite (Hno He) in Hocc.
  - intros Hno. unfold api_utils.extract_between_markers.
    cbn [api_utils.marked_blocks].
    destruct (api_utils.split_first start_marker text) as [[pre after]|] eqn:Hs;
      [|reflexivity].
    destruct (api_utils.split_first end_marker after) as [[body rest]|] eqn:He;
      [|reflexivity].
    exfalso. apply split_first_spec in Hs as [-> _]. apply split_first_spec in He as [-> _].
    destruct Hno as [Hno|Hno].
    + assert (Ht : Py.contains (pre +:+ start_marker +:+ body +:+ end_marker +:+ rest)
                     start_marker = true).
      { apply contains_spec. by exists pre, (body +:+ end_marker +:+ rest). }
      by rewrite Hno in Ht.
    + assert (Ht : Py.contains (pre +:+ start_marker +:+ body +:+ end_marker +:+ rest)
                     end_marker = true).
      { apply contains_spec. exists (pre +:+ start_marker +:+ body), rest.
        by rewrite !append_assoc. }
      by rewrite Hno in Ht.
  - apply extract_first_block.
Qed.

(** ** Log previews *)

Lemma length_take n s : String.length (Py.take n s) = Nat.min n (String.length s).
Proof.
  revert s. induction n as [|n IH]; intros [|c s]; cbn [Py.take String.length];
    [reflexivity..|]. by rewrite IH.
Qed.

Lemma lstrip_solid s : first_solid s → Py.lstrip s = s.
Proof.
  destruct s as [|c s]; [done|]. cbn [first_solid Py.lstrip].
  by destruct (Py.is_space c).
Qed.

Lemma rstrip_first_solid s : first_solid s → first_solid (Py.rstrip s).
Proof.
  destruct s as [|c s]; [done|]. cbn [first_solid Py.rstrip]. intros Hc.
  destruct (Py.rstrip s); [|exact Hc].
  destruct (Py.is_space c) eqn:E; [destruct Hc | cbn [first_solid]; by rewrite E].
Qed.

Lemma lstrip_first_solid s : Py.lstrip s = EmptyString ∨ first_solid (Py.lstrip s).
Proof.
  induction s as [|c s IH]; [by left|]. cbn [Py.lstrip].
  destruct (Py.is_space c) eqn:Hc; [exact IH|]. right. cbn [first_solid]. by rewrite Hc.
Qed.

Lemma strip_first_solid s : Py.strip s = EmptyString ∨ first_solid (Py.strip s).
Proof.
  unfold Py.strip. destruct (lstrip_first_solid s) as [->|Hs]; [by left|].
  right. by apply rstrip_first_solid.
Qed.

Lemma take_first_solid n s : first_solid s → first_solid (Py.take (S n) s).
Proof. by destruct s. Qed.

(** X17. A log preview is the stripped text when that has at most [n]
    characters, and otherwise its first [n] characters with the
    truncation mark: it never has more than [n + 20] characters, it agrees
    with the stripped text on the first [n] characters, and taking the
    preview of a preview changes nothing. *)
Theorem short_is_bounded (s : option string) (n : nat) :
  String.length (short s n) ≤ n + 20
  ∧ (String.length (Py.strip (default EmptyString s)) ≤ n →
     short s n = Py.strip (default EmptyString s))
  ∧ Py.take n (short s n) = Py.take n (Py.strip (default EmptyString s))
  ∧ short (Some (short s n)) n = short s n.
Proof.
  unfold short. change (default EmptyString (Some ?x)) with x. cbv zeta.
  set (s1 := Py.strip (default EmptyString s)).
  assert (Hidem : Py.strip s1 = s1) by apply strip_idemp.
  destruct (Nat.leb_spec (String.length s1) n) as [Hle|Hgt].
  - split; [lia|]. split; [done|]. split; [done|].
    rewrite Hidem. by rewrite (proj2 (Nat.leb_le _ _) Hle).
  - assert (Hlen : String.length (Py.take n s1) = n) by (rewrite length_take; apply Nat.min_l; lia).
    assert (Hmark : String.length (Py.newline +:+ "... [truncated] ...") = 20)
      by reflexivity.
    split; [rewrite length_append, Hlen, Hmark; lia|]. split; [lia|].
    split; [by rewrite <- Hlen at 1; rewrite take_length_append|].
    assert (Hstrip : String.length (Py.strip (Py.take n s1 +:+ Py.newline
                                               +:+ "... [truncated] ...")) > n
                     ∧ Py.take n (Py.strip (Py.take n s1 +:+ Py.newline
                                              +:+ "... [truncated] ..."))
                       = Py.take n s1).
    { destruct n as [|n].
      - replace (Py.take 0 s1) with EmptyString by (by destruct s1).
        split; [vm_compute; lia | reflexivity].
      - assert (Hsolid : first_solid (Py.take (S n) s1)).
        { apply take_first_solid. destruct (strip_first_solid (default EmptyString s))
            as [He|Hs]; [|done]. fold s1 in He. rewrite He in Hgt. cbn in Hgt. lia. }
        assert (Hsame : Py.strip (Py.take (S n) s1 +:+ Py.newline +:+ "... [truncated] ...")
                        = Py.take (S n) s1 +:+ Py.newline +:+ "... [truncated] ...").
        { unfold Py.strip. rewrite lstrip_solid.
          - change (Py.newline +:+ "... [truncated] ...")
              with ((Py.newline +:+ "... [truncated] ..") +:+ ".").
            rewrite <- append_assoc. by apply rstrip_solid_end.
          - destruct (Py.take (S n) s1); [done|]. by rewrite append_cons. }
        rewrite Hsame. split; [rewrite length_append, Hlen, Hmark; lia|].
        rewrite <- Hlen at 1. apply take_length_append. }
    destruct Hstrip as [Hl Ht].
    destruct (Nat.leb_spec (String.length (Py.strip (Py.take n s1 +:+ Py.newline
                                                      +:+ "... [truncated] ..."))) n);
      [lia|].
    by rewrite Ht.
Qed.

(** ** The blocks of an explanation *)

Lemma strip_nonempty_solid s : Py.strip s = s → s ≠ EmptyString → Py.strip s ≠ EmptyString.
Proof. by intros ->. Qed.

Lemma flush_inv (st : parse_state) :
  let good := λ b : JustificationBlock,
    title b ≠ EmptyString ∧ Py.strip (title b) = title b
    ∧ axiom_lines b ≠ []
    ∧ block_iris b = list_to_set (axiom_lines b ≫= IRI_LINK_RE_findall) in
  (∀ t, current_title st = Some t → Py.strip t = t) →
  Forall good (blocks st) →
  Forall good (blocks (flush st))
  ∧ length (blocks (flush st))
    ≤ length (blocks st) + (if current_title st then 1 else 0)
  ∧ concat (axiom_lines <$> blocks (flush st))
      `sublist_of` (concat (axiom_lines <$> blocks st) ++ current_axioms st)
  ∧ (current_title st = None → blocks (flush st) = blocks st).
Proof.
  intros good Htitle Hgood.
  assert (Hnone : current_title st = None → blocks (flush st) = blocks st).
  { intros Hn. unfold flush. cbn [blocks]. by rewrite Hn. }
  split; [|split; [|split; [|exact Hnone]]]; revert Hnone; intros _.
  all: unfold flush; cbn [blocks];
    destruct (current_title st) as [[|c t]|] eqn:Ht; cbn [truthy andb];
    try done; try lia; try (by apply sublist_inserts_r).
  all: case_bool_decide as Hax; cbn [negb];
    try done; try lia; try (by apply sublist_inserts_r).
  - apply Forall_app. split; [done|]. apply Forall_singleton.
    unfold good. cbn [title axiom_lines block_iris].
    change (default EmptyString (Some (String c t))) with (String c t).
    rewrite !(Htitle _ eq_refl).
    split; [discriminate|]. split; [reflexivity|]. split; [exact Hax | reflexivity].
  - rewrite length_app. cbn. lia.
  - rewrite fmap_app, concat_app. cbn [fmap list_fmap concat axiom_lines].
    by rewrite app_nil_r.
Qed.

(** The invariant of the loop of [parse_justification_blocks]. *)
Lemma parse_lines_inv (lines : list string) (st : parse_state) :
  let good := λ b : JustificationBlock,
    title b ≠ EmptyString ∧ Py.strip (title b) = title b
    ∧ axiom_lines b ≠ []
    ∧ block_iris b = list_to_set (axiom_lines b ≫= IRI_LINK_RE_findall) in
  let axiom_text := λ ln,
    if negb (is_heading ln) && is_axiom_line ln
    then Some (Py.strip (Py.drop 2 (Py.strip ln))) else None in
  let pending := λ st : parse_state, if current_title st then 1 else 0 in
  let r := foldl parse_line st lines in
  (∀ t, current_title st = Some t → Py.strip t = t) →
  Forall good (blocks st) →
  (∀ t, current_title r = Some t → Py.strip t = t)
  ∧ Forall good (blocks r)
  ∧ length (blocks r) + pending r
    ≤ length (blocks st) + pending st + length (filter is_heading lines)
  ∧ (concat (axiom_lines <$> blocks r) ++ current_axioms r)
      `sublist_of` ((concat (axiom_lines <$> blocks st) ++ current_axioms st)
                    ++ omap axiom_text lines)
  ∧ ((∀ ln, ln ∈ lines → is_heading ln = false) →
     current_title r = current_title st ∧ blocks r = blocks st).
Proof.
  intros good axiom_text pending. subst pending. cbv beta. revert st.
  induction lines as [|ln lines IH]; intros st r Htitle Hgood; subst r.
  - cbn [foldl filter omap list_omap length]. rewrite app_nil_r.
    split; [done|]. split; [done|]. split; [lia|]. split; [done|]. done.
  - cbn [foldl].
    destruct (flush_inv st Htitle Hgood) as (Hf1 & Hf2 & Hf3 & _).
    change (parse_line st ln)
      with (if is_heading ln then
              {| current_title := Some (Py.strip (strip_chars "# " ln));
                 current_axioms := [];
                 blocks := blocks (flush st) |}
            else if is_axiom_line ln then
              {| current_title := current_title st;
                 current_axioms :=
                   current_axioms st ++ [Py.strip (Py.drop 2 (Py.strip ln))];
                 blocks := blocks st |}
            else st).
    destruct (is_heading ln) eqn:Hh.
    + match goal with
      | |- context [foldl parse_line ?st' lines] =>
          destruct (IH st') as (I1 & I2 & I3 & I4 & I5)
      end.
      { cbn [current_title]. intros t [= <-]. apply strip_idemp. }
      { exact Hf1. }
      cbn [current_title current_axioms blocks] in I3, I4.
      split; [exact I1|]. split; [exact I2|]. split; [|split].
      * rewrite filter_cons_True by (by rewrite Hh). cbn [length]. lia.
      * cbn [omap list_omap]. subst axiom_text. cbv beta. rewrite Hh. cbn [negb andb].
        etrans; [exact I4|]. rewrite app_nil_r. by apply sublist_app.
      * intros Hno. rewrite (Hno ln) in Hh by left. discriminate Hh.
    + destruct (is_axiom_line ln) eqn:Ha.
      * match goal with
        | |- context [foldl parse_line ?st' lines] =>
            destruct (IH st') as (I1 & I2 & I3 & I4 & I5)
        end.
        { exact Htitle. }
        { exact Hgood. }
        cbn [current_title current_axioms blocks] in I3, I4, I5.
        split; [exact I1|]. split; [exact I2|]. split; [|split].
        -- rewrite filter_cons_False by (rewrite Hh; intros []). exact I3.
        -- cbn [omap list_omap]. subst axiom_text. cbv beta. rewrite Hh, Ha.
           cbn [negb andb]. etrans; [exact I4|]. by rewrite <- !app_assoc.
        -- intros Hno. apply I5. intros l Hl. apply Hno. by right.
      * destruct (IH st Htitle Hgood) as (I1 & I2 & I3 & I4 & I5).
        split; [exact I1|]. split; [exact I2|]. split; [|split].
        -- rewrite filter_cons_False by (rewrite Hh; intros []). exact I3.
        -- cbn [omap list_omap]. subst axiom_text. cbv beta. rewrite Hh, Ha.
           cbn [negb andb]. exact I4.
        -- intros Hno. apply I5. intros l Hl. apply Hno. by right.
Qed.

(** X18. The blocks read from an explanation. Every block has a title
    that is not empty and is stripped, at least one axiom line, and as
    identifiers the link targets of its axiom lines. There are at most as
    many blocks as heading lines before the axiom-impact section; their
    axiom lines, in order, are among the texts of the document's axiom
    lines (those before the first heading, and those under a heading
    whose title is empty, are dropped); a document without a heading
    line has no block. *)
Theorem justification_blocks_well_formed (md : string) :
  let lines := splitlines (split_before (Py.newline +:+ "# Axiom Impact") md) in
  let axiom_text := λ ln,
    if negb (is_heading ln) && is_axiom_line ln
    then Some (Py.strip (Py.drop 2 (Py.strip ln))) else None in
  let bs := parse_justification_blocks md in
  (∀ b, b ∈ bs →
        title b ≠ EmptyString ∧ Py.strip (title b) = title b
        ∧ axiom_lines b ≠ []
        ∧ block_iris b = list_to_set (axiom_lines b ≫= IRI_LINK_RE_findall))
  ∧ length bs ≤ length (filter is_heading lines)
  ∧ concat (axiom_lines <$> bs) `sublist_of` omap axiom_text lines
  ∧ ((∀ ln, ln ∈ lines → is_heading ln = false) → bs = []).
Proof.
  intros lines axiom_text bs. subst bs. unfold parse_justification_blocks. cbv zeta.
  fold lines.
  destruct (parse_lines_inv lines
              {| current_title := None; current_axioms := []; blocks := [] |})
    as (I1 & I2 & I3 & I4 & I5); [done | done |].
  cbv zeta in I1, I2, I3, I4, I5. cbn [current_title current_axioms blocks] in I3, I4, I5.
  fold axiom_text in I4.
  set (r := foldl parse_line _ lines) in *. clearbody r.
  destruct (flush_inv r I1 I2) as (F1 & F2 & F3 & F4).
  split; [|split; [|split]].
  - intros b Hb. exact (proj1 (Forall_forall _ _) F1 b Hb).
  - cbn [length] in I3. destruct (current_title r); lia.
  - etrans; [exact F3|]. exact I4.
  - intros Hno. destruct (I5 Hno) as [Ht Hb]. rewrite F4 by exact Ht. exact Hb.
Qed.

(** ** Links in an axiom line *)

Lemma re_span_until_spec c s :
  s = (re_span_until c s).1 +:+ (re_span_until c s).2
  ∧ has_char c (re_span_until c s).1 = false
  ∧ ((re_span_until c s).2 = EmptyString
     ∨ ∃ r, (re_span_until c s).2 = String c r).
Proof.
  induction s as [|a s (IH1 & IH2 & IH3)]; [by repeat split; try left|].
  cbn [re_span_until]. destruct (decide (a = c)) as [->|Hne]; cbn [fst snd].
  - split; [done|]. split; [done|]. right. by exists s.
  - destruct (re_span_until c s) as [run rest]. cbn [fst snd] in *.
    split; [by rewrite append_cons, <- IH1|]. split; [|exact IH3].
    cbn [has_char]. rewrite IH2, orb_false_r. by apply bool_decide_eq_false.
Qed.

Lemma IRI_LINK_RE_at_spec s iri rest :
  IRI_LINK_RE_at s = Some (iri, rest) →
  iri ≠ EmptyString ∧ has_char ")" iri = false
  ∧ ∃ label, s = "[" +:+ label +:+ "](" +:+ iri +:+ ")" +:+ rest.
Proof.
  unfold IRI_LINK_RE_at. destruct s as [|a r]; [discriminate|].
  destruct (decide (a = "["%char)) as [->|Hne];
    [|by destruct a as [[] [] [] [] [] [] [] []]].
  destruct (re_span_until_spec "]" r) as (H1 & _ & H3).
  destruct (re_span_until "]" r) as [label r1]. cbn [fst snd] in *.
  destruct r1 as [|c1 [|c2 r2]]; try discriminate.
  destruct H3 as [H3|[r' [= -> _]]]; [discriminate H3|].
  destruct (decide (c2 = "("%char)) as [->|Hne];
    [|by destruct c2 as [[] [] [] [] [] [] [] []]].
  destruct (re_span_until_spec ")" r2) as (G1 & G2 & G3).
  destruct (re_span_until ")" r2) as [[|c b] [|c3 r4]]; try discriminate.
  cbn [fst snd] in *. destruct G3 as [G3|[r'' [= -> _]]]; [discriminate G3|].
  intros [= <- <-]. split; [discriminate|]. split; [exact G2|].
  exists label. rewrite H1, G1. by rewrite !append_cons, !append_empty_l.
Qed.

Lemma IRI_LINK_RE_findall_fuel (fuel fuel' : nat) (s : string) :
  String.length s < fuel → String.length s < fuel' →
  IRI_LINK_RE_findall_from fuel s = IRI_LINK_RE_findall_from fuel' s.
Proof.
  revert fuel' s. induction fuel as [|fuel IH]; intros fuel' s Hf Hf'; [lia|].
  destruct fuel' as [|fuel']; [lia|]. cbn [IRI_LINK_RE_findall_from].
  destruct (IRI_LINK_RE_at s) as [[iri rest]|] eqn:Hat.
  - apply IRI_LINK_RE_at_spec in Hat as (_ & _ & label & ->).
    f_equal. apply IH.
    + rewrite !length_append in Hf. cbn [String.length] in Hf. lia.
    + rewrite !length_append in Hf'. cbn [String.length] in Hf'. lia.
  - destruct s as [|c s]; [reflexivity|]. cbn [String.length] in Hf, Hf'.
    apply IH; lia.
Qed.

Lemma IRI_LINK_RE_findall_skip (pre s : string) :
  has_char "[" pre = false →
  IRI_LINK_RE_findall (pre +:+ s) = IRI_LINK_RE_findall s.
Proof.
  induction pre as [|c pre IH]; intros Hpre; [reflexivity|].
  cbn [has_char] in Hpre. apply orb_false_elim in Hpre as [Hc Hpre].
  apply bool_decide_eq_false in Hc.
  rewrite <- IH by exact Hpre. rewrite append_cons.
  unfold IRI_LINK_RE_findall at 1. cbn [String.length IRI_LINK_RE_findall_from].
  assert (Hat : IRI_LINK_RE_at (String c (pre +:+ s)) = None).
  { unfold IRI_LINK_RE_at. destruct c as [[] [] [] [] [] [] [] []]; try reflexivity.
    by destruct Hc. }
  by rewrite Hat.
Qed.

(** X19. The link targets read from an axiom line. Every target found is
    not empty, holds no closing parenthesis, and stands in the line
    between [](] and [)]. For a line that has, after a text without an
    opening bracket, a link [[label](target)] whose label has no closing
    bracket and whose target is not empty and has no closing parenthesis,
    the first target found is that one, and the others are those of the
    rest of the line. *)
Theorem link_targets_found (s : string) :
  (∀ iri, iri ∈ IRI_LINK_RE_findall s →
          iri ≠ EmptyString ∧ has_char ")" iri = false
          ∧ occurs ("](" +:+ iri +:+ ")") s)
  ∧ (∀ pre label iri post,
       s = pre +:+ "[" +:+ label +:+ "](" +:+ iri +:+ ")" +:+ post →
       has_char "[" pre = false → has_char "]" label = false →
       iri ≠ EmptyString → has_char ")" iri = false →
       IRI_LINK_RE_findall s = iri :: IRI_LINK_RE_findall post).
Proof.
  split.
  - unfold IRI_LINK_RE_findall. generalize (S (String.length s)). intros fuel.
    revert s. induction fuel as [|fuel IH]; intros s iri; [by intros ?%elem_of_nil|].
    cbn [IRI_LINK_RE_findall_from].
    destruct (IRI_LINK_RE_at s) as [[x rest]|] eqn:Hat.
    + apply IRI_LINK_RE_at_spec in Hat as (Hx & Hp & label & ->).
      intros [->|Hin]%elem_of_cons.
      * split; [done|]. split; [done|]. exists ("[" +:+ label), rest.
        by rewrite !append_assoc.
      * destruct (IH rest iri Hin) as (H1 & H2 & (a & b & ->)).
        split; [done|]. split; [done|].
        exists ("[" +:+ label +:+ "](" +:+ x +:+ ")" +:+ a), b.
        by rewrite !append_assoc.
    + destruct s as [|c s]; [by intros ?%elem_of_nil|]. intros Hin.
      destruct (IH s iri Hin) as (H1 & H2 & H3).
      split; [done|]. split; [done|]. by apply occurs_cons.
  - intros pre label iri post -> Hpre Hlabel Hiri Hparen.
    rewrite IRI_LINK_RE_findall_skip by exact Hpre.
    unfold IRI_LINK_RE_findall at 1.
    set (whole := "[" +:+ label +:+ "](" +:+ iri +:+ ")" +:+ post).
    cbn [IRI_LINK_RE_findall_from].
    assert (Hat : IRI_LINK_RE_at whole = Some (iri, post)).
    { subst whole. unfold IRI_LINK_RE_at.
      rewrite (append_cons "[" EmptyString), append_empty_l.
      rewrite (append_cons "]" "("), re_span_until_app by exact Hlabel.
      rewrite (append_cons "(" EmptyString), append_empty_l.
      rewrite (append_cons ")" EmptyString), append_empty_l.
      rewrite re_span_until_app by exact Hparen.
      destruct iri; [done | reflexivity]. }
    rewrite Hat. f_equal. apply IRI_LINK_RE_findall_fuel; [|lia].
    subst whole. rewrite !length_append. cbn [String.length]. lia.
Qed.

Lemma link_targets_found_witness :
  IRI_LINK_RE_findall
    "SubClassOf [A](http://example.org/A) [B](http://example.org/B)"
  = "http://example.org/A" :: IRI_LINK_RE_findall " [B](http://example.org/B)".
Proof.
  apply (proj2 (link_targets_found _) "SubClassOf " "A" "http://example.org/A"
           " [B](http://example.org/B)"); [reflexivity.. | discriminate | reflexivity].
Defined.

(** ** A patch request, end to end *)

(** X20. A patch request over the network. When the three allowed requests
    are all answered 429, the call raises the runtime error of a failed
    request after three requests and two waits of 20 seconds, and nothing
    is saved. When the first answer is a reply with one marked block whose
    body has no [###], is not blank and, stripped, is JSON, the call
    returns that JSON value after one request, and the stripped body is
    what is saved. *)
Theorem chat_json_over_requests
    (post : string → string → nat → Z * option string)
    (json_loads : string → option json) (prompt step_name : string) :
  let system := api_utils.system_content persona in
  let call := openrouter_chat_json_over post json_loads prompt step_name in
  ((∀ i, 1 ≤ i ≤ 3 → (post system prompt i).1 = 429%Z) →
   call.1 = Raise (RuntimeError "api_utils.send_prompt returned None (request failed).")
   ∧ api_utils.requests call.2 = 3 ∧ api_utils.slept call.2 = 40
   ∧ api_utils.saved call.2 = None)
  ∧ (∀ body v,
       post system prompt 1
       = (200%Z, Some ("###start_output###" +:+ body +:+ "###end_output###")) →
       Py.contains body "###" = false → Py.strip body ≠ EmptyString →
       json_loads (Py.strip body) = Some v →
       call.1 = Ok v ∧ api_utils.requests call.2 = 1 ∧ api_utils.slept call.2 = 0
       ∧ api_utils.saved call.2
         = Some ("outputs/" +:+ step_name +:+ ".txt", Py.strip body +:+ Py.newline)).
Proof.
  intros system call. subst call. unfold openrouter_chat_json_over. cbv zeta.
  cbn [fst snd]. split.
  - intros H429.
    pose proof (send_prompt_retries_inv post prompt persona step_name 3 20) as Hinv.
    cbv zeta in Hinv. fold system in Hinv.
    destruct Hinv as (Hle & Hsl & Hbefore & Hpos & Hret).
    set (r := api_utils.send_prompt post prompt persona step_name 3 20) in *.
    clearbody r. specialize (Hpos ltac:(lia)).
    destruct (api_utils.returned r) as [[text|]|e].
    + destruct Hret as (reply & Hp & _).
      apply (f_equal fst) in Hp. cbn [fst] in Hp.
      rewrite H429 in Hp by lia. discriminate Hp.
    + destruct Hret as (Hsaved & _ & Hlast).
      assert (api_utils.requests r = 3) as Hreq.
      { destruct (decide (api_utils.requests r < 3)) as [Hlt|]; [|lia].
        destruct (Hlast Hlt). apply H429. lia. }
      split; [reflexivity|]. rewrite Hsl, Hreq. done.
    + destruct Hret as [H200 _]. rewrite H429 in H200 by lia. discriminate H200.
  - intros body v Hpost Hbody Hne Hjson. unfold api_utils.send_prompt.
    cbn [api_utils.send_attempts]. fold system. rewrite Hpost.
    rewrite decide_True by done.
    pose proof (extract_first_block body EmptyString Hbody) as Hex.
    rewrite extract_of_empty, app_nil_r, append_empty_r in Hex by done.
    rewrite decide_False in Hex by exact Hne. rewrite Hex.
    cbn [String.concat api_utils.returned api_utils.requests api_utils.slept
         api_utils.saved].
    rewrite strip_idemp. split; [|done].
    unfold openrouter_chat_json. by rewrite strip_idemp, Hjson.
Qed.

Lemma chat_json_over_requests_witness :
  let post := λ (_ _ : string) (_ : nat),
    (200%Z, Some "###start_output###{}###end_output###") in
  let json_loads := λ s : string,
    if decide (s = "{}") then Some (JObject []) else None in
  (openrouter_chat_json_over post json_loads "prompt" "patch_001").1
  = Ok (JObject []).
Proof.
  intros post json_loads.
  pose proof (chat_json_over_requests post json_loads "prompt" "patch_001") as H.
  cbv zeta in H. destruct H as [_ H].
  apply (H "{}" (JObject [])); [reflexivity | reflexivity | | reflexivity].
  vm_compute. discriminate.
Defined.

(** ** The files of the patch loop, with the replies saved *)

Section LoopOverProofs.

Variable json_loads : string → option json.
Variable post : string → string → string → nat → Z * option string.
Variable rdflib_Literal_of : json → result node.
Variable robot_reason : files → string → Z * string * string.
Variable robot_explain : files → string → nat → option (string * string).
Variable make_prompt : string → string → gset string → string.
Variables (target_iris : gset string) (out_dir : string).
Variables (max_robot_explanations : nat) (max_iterations : Z).
Variable evidence_max_triples : nat.

Notation loop_over := (patch_loop_over json_loads post rdflib_Literal_of robot_reason
                         robot_explain make_prompt target_iris out_dir
                         max_robot_explanations max_iterations evidence_max_triples).
Notation loop_pure := (patch_loop json_loads (returned_text post) rdflib_Literal_of
                         robot_reason robot_explain make_prompt target_iris out_dir
                         max_robot_explanations max_iterations evidence_max_triples).

Notation patch_file n := (out_dir +:+ "/patch_" +:+ fmt_03d n +:+ ".json").
Notation iter_file n := (out_dir +:+ "/iter_" +:+ fmt_03d n +:+ ".ttl").
Notation reply_file n := ("outputs/patch_" +:+ fmt_03d n +:+ ".txt").

Lemma chat_over_pure prompt step_name :
  same_outcome
    (openrouter_chat_json_over (post step_name) json_loads prompt step_name).1
    (openrouter_chat_json json_loads (returned_text post) prompt step_name).
Proof.
  unfold openrouter_chat_json_over, same_outcome. cbv zeta. cbn [fst].
  unfold openrouter_chat_json, returned_text.
  destruct (api_utils.returned _) as [text|e]; [by left|].
  right. eexists _, _. split; reflexivity.
Qed.

Lemma chat_over_saved prompt step_name :
  let call := openrouter_chat_json_over (post step_name) json_loads prompt step_name in
  match api_utils.saved call.2 with
  | Some (filepath, _) => filepath = "outputs/" +:+ step_name +:+ ".txt"
  | None => ∀ patch, call.1 ≠ Ok patch
  end.
Proof.
  unfold openrouter_chat_json_over. cbv zeta. cbn [fst snd].
  pose proof (send_prompt_retries_inv (post step_name) prompt persona step_name 3 20)
    as Hinv.
  cbv zeta in Hinv. destruct Hinv as (_ & _ & _ & _ & Hret).
  destruct (api_utils.returned _) as [[text|]|e].
  - destruct Hret as (reply & _ & _ & ->). reflexivity.
  - destruct Hret as (-> & _). intros patch. by unfold openrouter_chat_json.
  - destruct Hret as (_ & ->). done.
Qed.

Lemma patch_loop_over_projection left it current hist fs outputs started :
  match loop_over left it current hist fs outputs started,
        loop_pure left it current hist fs started with
  | (r, fs', _, n), (r0, fs0, n0) => same_outcome r r0 ∧ fs' = fs0 ∧ n = n0
  end.
Proof.
  revert it current hist fs outputs started.
  induction left as [|left IH]; intros it current hist fs outputs started.
  - cbn [patch_loop_over patch_loop].
    destruct (robot_reason_status robot_reason fs current) as [st diag].
    split; [by left | done].
  - cbn [patch_loop_over patch_loop].
    destruct (robot_reason_status robot_reason fs current) as [st diag].
    destruct (decide (st = "coherent")); [split; [by left | done]|].
    destruct (decide (st = "error")); [split; [by left | done]|].
    destruct (robot_explain fs current max_robot_explanations) as [[mode md]|];
      [|split; [by left | done]].
    destruct (build_targeted_evidence fs current target_iris evidence_max_triples)
      as [evidence|]; [|split; [by left | done]].
    cbv zeta.
    pose proof (chat_over_pure (make_prompt md evidence target_iris)
                  ("patch_" +:+ fmt_03d it)) as Hchat.
    destruct (openrouter_chat_json_over _ _ _ _) as [reply s]. cbn [fst] in Hchat.
    destruct Hchat as [->|(e & e0 & -> & ->)];
      [|split; [right; by eexists _, _ | done]].
    destruct (openrouter_chat_json _ _ _ _) as [patch|]; [|split; [by left | done]].
    destruct (apply_patch_to_ttl _ _ _ _ _) as [[u|e] fs2];
      [|split; [by left | done]].
    apply IH.
Qed.

Lemma patch_loop_over_outputs left it current hist fs outputs started :
  it = S (length hist) → started = length hist →
  match loop_over left it current hist fs outputs started with
  | (r, _, outputs', started') =>
      started ≤ started'
      ∧ (∀ path, outputs' !! path = outputs !! path
                 ∨ ∃ n, it ≤ n ≤ started' ∧ path = reply_file n)
      ∧ (∀ path, is_Some (outputs !! path) → is_Some (outputs' !! path))
      ∧ match r with
        | Ok res =>
            length hist ≤ length (history res)
            ∧ (history res = hist → outputs' = outputs)
            ∧ ∀ n, it ≤ n ≤ length (history res) → is_Some (outputs' !! reply_file n)
        | Raise _ => True
        end
  end.
Proof.
  revert it current hist fs outputs started.
  induction left as [|left IH]; intros it current hist fs outputs started -> ->.
  - cbn [patch_loop_over]. destruct (robot_reason_status robot_reason fs current) as [st diag].
    split; [lia|]. split; [by left|]. split; [done|]. cbn [history].
    split; [lia|]. split; [done|]. intros m Hm. lia.
  - cbn [patch_loop_over]. destruct (robot_reason_status robot_reason fs current) as [st diag].
    destruct (decide (st = "coherent")).
    { split; [lia|]. split; [by left|]. split; [done|]. cbn [history stopped].
      split; [lia|]. split; [done|]. intros m Hm. lia. }
    destruct (decide (st = "error")).
    { split; [lia|]. split; [by left|]. split; [done|]. cbn [history stopped].
      split; [lia|]. split; [done|]. intros m Hm. lia. }
    destruct (robot_explain fs current max_robot_explanations) as [[mode md]|];
      [|split; [lia|]; split; [by left|]; split; done].
    destruct (build_targeted_evidence fs current target_iris evidence_max_triples)
      as [evidence|]; [|split; [lia|]; split; [by left|]; split; done].
    cbv zeta. set (k := S (length hist)).
    pose proof (chat_over_saved (make_prompt md evidence target_iris)
                  ("patch_" +:+ fmt_03d k)) as Hsaved.
    cbv zeta in Hsaved.
    destruct (openrouter_chat_json_over _ _ _ _) as [reply s]. cbn [fst snd] in Hsaved.
    assert (Hone : ∀ path, outputs_after s outputs !! path = outputs !! path
                           ∨ path = reply_file k).
    { intros path. unfold outputs_after.
      destruct (api_utils.saved s) as [[filepath content]|]; [|by left].
      subst filepath. destruct (decide (path = reply_file k)) as [->|Hne]; [by right|].
      left. by rewrite lookup_insert_ne. }
    assert (Hmono : ∀ path, is_Some (outputs !! path)
                            → is_Some (outputs_after s outputs !! path)).
    { intros path Hsome. unfold outputs_after.
      destruct (api_utils.saved s) as [[filepath content]|]; [|done].
      destruct (decide (filepath = path)) as [->|Hne].
      - rewrite lookup_insert_eq. by eexists.
      - by rewrite lookup_insert_ne. }
    assert (Hframe1 : ∀ path, outputs_after s outputs !! path = outputs !! path
                              ∨ ∃ n, k ≤ n ≤ S (length hist) ∧ path = reply_file n).
    { intros path. destruct (Hone path) as [->| ->]; [by left|].
      right. exists k. split; [subst k; lia | done]. }
    destruct reply as [patch|e];
      [|split; [lia|]; split; [exact Hframe1|]; split; [exact Hmono | done]].
    assert (Hk : is_Some (outputs_after s outputs !! reply_file k)).
    { unfold outputs_after.
      destruct (api_utils.saved s) as [[filepath content]|];
        [|by destruct (Hsaved patch)].
      subst filepath. change ("outputs/" +:+ ("patch_" +:+ fmt_03d k) +:+ ".txt")
        with (reply_file k). rewrite lookup_insert_eq. by eexists. }
    destruct (apply_patch_to_ttl _ _ _ _ _) as [[u|e] fs2];
      [|split; [lia|]; split; [exact Hframe1|]; split; [exact Hmono | done]].
    match goal with
    | |- context [loop_over left ?it' ?cur' (hist ++ [?r]) ?fs' ?o' ?s'] =>
        specialize (IH it' cur' (hist ++ [r]) fs' o' s');
        destruct (loop_over left it' cur' (hist ++ [r]) fs' o' s')
          as [[[r' fs''] outputs'] started']
    end.
    rewrite length_app in IH. cbn [length] in IH.
    destruct IH as (Hst & Hframe & Hkeep & Hres); [subst k; lia | lia |].
    split; [lia|]. split; [|split].
    + intros path. destruct (Hframe path) as [Heq|(m & Hm & ->)].
      * rewrite Heq. destruct (Hone path) as [->| ->]; [by left|].
        right. exists k. split; [subst k; lia | done].
      * right. exists m. split; [subst k; lia | done].
    + intros path Hsome. by apply Hkeep, Hmono.
    + destruct r' as [res|]; [|done]. destruct Hres as (Hlen & _ & Hall).
      split; [lia|]. split.
      * intros Heq. rewrite Heq in Hlen. lia.
      * intros m Hm. destruct (decide (m = k)) as [->|Hne].
        -- by apply Hkeep.
        -- apply Hall. subst k. lia.
Qed.


End LoopOverProofs.

(** ** The frame of the resolver *)

(** X21. The frame of the resolver. It removes exactly the transitive-type
    triple and the property-chain triples of the properties in the set its
    closure routine returns for P, and nothing else (so every triple about
    another property, and every other triple of these properties, is
    unchanged); P is in that set, so its transitive-type triple is gone;
    the count is the number of triples removed. The properties of that set
    are within two steps of P along inverse-of, subproperty-of and
    superproperty-of whenever the routine returns after its loop, and
    within three steps when it returns at the size cutoff. *)
Theorem non_simple_fix_frame (g : graph) (issue : HermitIssue) :
  let root := URIRef (property_iri issue) in
  let props := related_property_closure g root 2 500 in
  let g' := (deterministic_fix_non_simple g issue).1 in
  let n := (deterministic_fix_non_simple g issue).2 in
  g' = g ∖ non_simple_causes_of g props
  ∧ (∀ t, t ∈ g → t.1.1 ∉ props → t ∈ g')
  ∧ (∀ t, t ∈ g → ¬ is_non_simple_cause t → t ∈ g')
  ∧ (∀ t, t ∈ g' → t ∈ g)
  ∧ root ∈ props
  ∧ (root, RDF_type, OWL_TransitiveProperty) ∉ g'
  ∧ n = size g - size g'
  ∧ props ⊆ ball g root 3
  ∧ (∀ seen, closure_rounds g 500 3 {[ root ]} ∅ = inr seen → props ⊆ ball g root 2).
Proof.
  intros root props g' n. subst g' n. unfold deterministic_fix_non_simple.
  fold root. fold props.
  destruct (remove_non_simple_causes_eq g props) as (Hg & Hn & _).
  destruct (related_property_closure_bounds g root 2 500) as (Hroot & Hb3 & Hb2).
  rewrite Hg, Hn, <- Hg.
  split; [reflexivity|]. rewrite Hg.
  split; [|split; [|split; [|split; [|split; [|split; [|split]]]]]].
  - intros t Hin Hnot. apply elem_of_difference. split; [exact Hin|].
    intros [[Hp _] _]%elem_of_filter. by apply Hnot.
  - intros t Hin Hnot. apply elem_of_difference. split; [exact Hin|].
    intros [[_ Hc] _]%elem_of_filter. by apply Hnot.
  - intros t [Hin _]%elem_of_difference. exact Hin.
  - exact Hroot.
  - intros [Hin Hnot]%elem_of_difference. apply Hnot, elem_of_filter.
    split; [|exact Hin]. split; [exact Hroot|]. left. split; reflexivity.
  - reflexivity.
  - exact Hb3.
  - exact Hb2.
Qed.
